(** * monkit span core (span.go): a shallow embedding and its properties

    The Go file [span.go] implements the span state machine of the tracing
    library: [newSpan] with the finish closure it returns, [addChild],
    [removeChild], [orphan], the context lookup [Value]/[SpanFromCtx] and the
    accessors.  Spans are heap objects that alias each other (parent
    pointers, child sets, contexts), so the embedding keeps an explicit
    store of spans, traces and slice backing arrays, and every Go function
    becomes a computation in a small state-and-log monad: it may crash
    (nil dereference, spinning for ever on a held lock), it threads the
    store, and it logs every call that leaves the file (Func, registry,
    observer, lock). *)

From stdpp Require Import base option list gmap sets strings sorting.
From Stdlib Require Import ZArith Lia.

Open Scope Z_scope.
Open Scope nat_scope.

(** ** Data model *)

(** Addresses of heap objects ([*Span], [*Trace], slice backing arrays). *)
Abbreviation ptr := nat (only parsing).

(** [type ctxKey int; const spanKey ctxKey = iota].  A lookup key is an
    [interface{}]: either the reserved [spanKey] or any other value. *)
Inductive Key :=
| spanKey
| userKey (k : nat).

(** An [interface{}] value as returned by [Context.Value]: nil, a [*Span]
    (which may be a nil pointer) or a value of some other type. *)
Inductive Iface :=
| INil
| ISpan (s : option ptr)
| IOther (v : nat).

(** A [context.Context] interface value.  Its dynamic type is [*Span] or
    some other implementation, which is given by its [Value] method.  The
    [Context] embedded in a span is immutable after construction, so a
    non-nil [*Span] is carried together with the context it embeds. *)
Inductive context :=
| CtxNil
| CtxOther (value : Key → Iface)
| CtxNilSpan
| CtxSpan (s : ptr) (inner : context).

(** [*Func]: the call-site descriptor with the registry [f.scope.r]. *)
Record Func := { fn : nat; scope_r : nat }.

Record Annotation := { Name : string; Value : string }.

(** A Go slice header: backing array ([None] for the nil slice), offset of
    the first element in it, length and capacity. *)
Record Slice := {
  sl_arr : option ptr;
  sl_off : nat;
  sl_len : nat;
  sl_cap : nat }.

Definition nil_slice : Slice :=
  {| sl_arr := None; sl_off := 0; sl_len := 0; sl_cap := 0 |}.

Record Span := {
  (* sync/atomic things *)
  mtx : bool;
  (* immutable things from construction *)
  id : Z;
  start : Z;
  f : Func;
  trace : option ptr;
  parent : option ptr;
  args : list nat;
  Context : context;
  (* protected by mtx *)
  done : bool;
  orphaned : bool;
  children : gset nat;
  annotations : Slice }.

(** Modelled from the spec: the Trace type (trace.go is not part of the
    file): "identifies one root-to-leaves lineage; owns an optional
    Observer". *)
Record Trace := { trace_id : Z; observer : option nat }.

Record State := {
  spans : gmap nat Span;
  traces : gmap nat Trace;
  arrays : gmap nat (list Annotation) }.

(** Calls that leave span.go, and lock operations, in program order. *)
Inductive Event :=
| EvLock (s : ptr)
| EvUnlock (s : ptr)
| EvFuncStart (fn : Func) (parent : option Func)
| EvFuncEnd (fn : Func) (err : option nat) (panicked : bool) (duration : Z)
| EvObserveTrace (r : nat) (t : ptr)
| EvRootSpanStart (r : nat) (s : ptr)
| EvRootSpanEnd (r : nat) (s : ptr)
| EvOrphanedSpan (r : nat) (s : ptr)
| EvOrphanEnd (r : nat) (s : ptr)
| EvObserverStart (o : nat) (s : ptr)
| EvObserverFinish (o : nat) (s : ptr) (err : option nat) (panicked : bool)
    (finish : Z)
| EvVisit (s : ptr)
| EvPanic (v : nat).

Global Instance Key_eq_dec : EqDecision Key.
Proof. solve_decision. Defined.
Global Instance Func_eq_dec : EqDecision Func.
Proof. solve_decision. Defined.
Global Instance Event_eq_dec : EqDecision Event.
Proof. solve_decision. Defined.
Global Instance Annotation_eq_dec : EqDecision Annotation.
Proof. solve_decision. Defined.

(** Field updates. *)
Definition set_mtx (b : bool) (sp : Span) : Span :=
  {| mtx := b; id := id sp; start := start sp; f := f sp; trace := trace sp;
     parent := parent sp; args := args sp; Context := Context sp;
     done := done sp; orphaned := orphaned sp; children := children sp;
     annotations := annotations sp |}.

Definition set_done (b : bool) (sp : Span) : Span :=
  {| mtx := mtx sp; id := id sp; start := start sp; f := f sp;
     trace := trace sp; parent := parent sp; args := args sp;
     Context := Context sp; done := b; orphaned := orphaned sp;
     children := children sp; annotations := annotations sp |}.

Definition set_orphaned (b : bool) (sp : Span) : Span :=
  {| mtx := mtx sp; id := id sp; start := start sp; f := f sp;
     trace := trace sp; parent := parent sp; args := args sp;
     Context := Context sp; done := done sp; orphaned := b;
     children := children sp; annotations := annotations sp |}.

Definition set_children (c : gset nat) (sp : Span) : Span :=
  {| mtx := mtx sp; id := id sp; start := start sp; f := f sp;
     trace := trace sp; parent := parent sp; args := args sp;
     Context := Context sp; done := done sp; orphaned := orphaned sp;
     children := c; annotations := annotations sp |}.

Definition set_annotations (a : Slice) (sp : Span) : Span :=
  {| mtx := mtx sp; id := id sp; start := start sp; f := f sp;
     trace := trace sp; parent := parent sp; args := args sp;
     Context := Context sp; done := done sp; orphaned := orphaned sp;
     children := children sp; annotations := a |}.

Definition with_spans (h : gmap nat Span) (st : State) : State :=
  {| spans := h; traces := traces st; arrays := arrays st |}.

Definition with_traces (h : gmap nat Trace) (st : State) : State :=
  {| spans := spans st; traces := h; arrays := arrays st |}.

Definition with_arrays (h : gmap nat (list Annotation)) (st : State) : State :=
  {| spans := spans st; traces := traces st; arrays := h |}.

(** ** The monad of span operations

    [None] is a run that does not return: a nil or dangling pointer is
    dereferenced, or the spin lock is taken while it is held. *)
Definition M (A : Type) : Type := State → option (A * State * list Event).

Definition ret {A} (a : A) : M A := λ st, Some (a, st, []).

Definition bind {A B} (m : M A) (k : A → M B) : M B :=
  λ st,
    match m st with
    | Some (a, st1, e1) =>
        match k a st1 with
        | Some (b, st2, e2) => Some (b, st2, e1 ++ e2)
        | None => None
        end
    | None => None
    end.

Declare Scope span_scope.
Delimit Scope span_scope with span.
Notation "x <- m ;; k" := (bind m (λ x, k))
  (at level 100, m at next level, right associativity) : span_scope.
Notation "m ;;; k" := (bind m (λ _, k))
  (at level 100, right associativity) : span_scope.
Open Scope span_scope.

Definition crash {A} : M A := λ _, None.

Definition lift {A} (o : option A) : M A :=
  match o with Some a => ret a | None => crash end.

Definition emit (e : Event) : M unit := λ st, Some (tt, st, [e]).

Definition get_span (s : ptr) : M Span :=
  λ st, match spans st !! s with
        | Some sp => Some (sp, st, [])
        | None => None
        end.

Definition modify_span (s : ptr) (g : Span → Span) : M unit :=
  λ st, match spans st !! s with
        | Some sp => Some (tt, with_spans (<[s := g sp]> (spans st)) st, [])
        | None => None
        end.

(** [for _, x := range l { body(x) }] *)
Fixpoint for_each {A} (l : list A) (body : A → M unit) : M unit :=
  match l with
  | [] => ret tt
  | x :: l' => body x ;;; for_each l' body
  end.

(** Modelled from the spec: the Lightweight Lock (spinLock is declared in
    another file): "acquire() blocks the calling execution path until
    exclusive access is obtained; release() yields it"; it is "busy-wait
    based", so taking a held lock on the one execution path modelled here
    never returns. *)
Definition Lock (s : ptr) : M unit :=
  sp <- get_span s ;;
  if mtx sp then crash
  else modify_span s (set_mtx true) ;;; emit (EvLock s).

Definition Unlock (s : ptr) : M unit :=
  modify_span s (set_mtx false) ;;; emit (EvUnlock s).

(** Modelled from the spec: the Child Set (spanBag is declared in another
    file): "add(span) (idempotent if already present), remove(span) (no-op
    if absent), iterate(visit) (calls visit once per distinct member; order
    unspecified)". *)
Definition spanBag_Add (c : ptr) (b : gset nat) : gset nat := {[c]} ∪ b.
Definition spanBag_Remove (c : ptr) (b : gset nat) : gset nat := b ∖ {[c]}.
Definition spanBag_Iterate (b : gset nat) : list nat := elements b.

(** ** span.go: orphan, addChild, removeChild *)

(** [func (s *Span) orphan()] *)
Definition orphan (s : ptr) : M unit :=
  Lock s ;;;
  sp <- get_span s ;;
  (if negb (done sp) && negb (orphaned sp) then
     modify_span s (set_orphaned true) ;;;
     emit (EvOrphanedSpan (scope_r (f sp)) s)
   else ret tt) ;;;
  Unlock s.

(** [func (s *Span) addChild(child *Span)] *)
Definition addChild (s child : ptr) : M unit :=
  Lock s ;;;
  modify_span s (λ sp, set_children (spanBag_Add child (children sp)) sp) ;;;
  sp <- get_span s ;;
  let done_ := done sp in
  Unlock s ;;;
  if done_ then orphan child else ret tt.

(** [func (s *Span) removeChild(child *Span)] *)
Definition removeChild (s child : ptr) : M unit :=
  Lock s ;;;
  modify_span s (λ sp, set_children (spanBag_Remove child (children sp)) sp) ;;;
  Unlock s.

(** ** Collaborators that live outside span.go

    What the Go runtime and the other files of the package decide is taken
    as a parameter: the capacity [append] picks when it has to grow a slice,
    the observer a registry's trace watchers install on a trace they are
    shown, and the [fmt] renderings used by [Args] and [String]. *)
Record Runtime := {
  growslice : nat → nat → nat;
  traceWatcher : nat → Z → option nat;
  Sprintf_arg : nat → string;
  Sprintf_ctx : context → string }.

(** [time.Time.Sub]: the difference as an int64 [Duration], saturating. *)
Definition maxDuration : Z := 2 ^ 63 - 1.
Definition minDuration : Z := - 2 ^ 63.

Definition Time_Sub (t u : Z) : Z :=
  let d := (t - u)%Z in
  if (maxDuration <? d)%Z then maxDuration
  else if (d <? minDuration)%Z then minDuration
  else d.

(** *** Slices of annotations *)

Definition zero_Annotation : Annotation :=
  {| Name := EmptyString; Value := EmptyString |}.

(** The elements a slice header denotes in a store of backing arrays. *)
Definition slice_view_in (h : gmap nat (list Annotation)) (sl : Slice)
  : option (list Annotation) :=
  match sl_arr sl with
  | None => Some []
  | Some a =>
      match h !! a with
      | Some arr => Some (take (sl_len sl) (drop (sl_off sl) arr))
      | None => None
      end
  end.

Definition slice_view (st : State) (sl : Slice) : option (list Annotation) :=
  slice_view_in (arrays st) sl.

Definition read_slice (sl : Slice) : M (list Annotation) :=
  λ st, match slice_view st sl with
        | Some xs => Some (xs, st, [])
        | None => None
        end.

Definition write_array (a : ptr) (i : nat) (xs : list Annotation) : M unit :=
  λ st, match arrays st !! a with
        | Some arr =>
            Some (tt, with_arrays (<[a := list_inserts i xs arr]> (arrays st)) st, [])
        | None => None
        end.

Section runtime.
Variable rt : Runtime.

(** The built-in [append(sl, xs...)] on a store of backing arrays: in
    place when the capacity allows, otherwise into a new backing array
    that receives a copy.  The result is the new slice header and the new
    store. *)
Definition append_in (h : gmap nat (list Annotation)) (sl : Slice)
    (xs : list Annotation) : option (Slice * gmap nat (list Annotation)) :=
  let n := sl_len sl + length xs in
  if decide (n ≤ sl_cap sl) then
    match sl_arr sl with
    | Some a =>
        match h !! a with
        | Some arr =>
            Some ({| sl_arr := Some a; sl_off := sl_off sl; sl_len := n;
                     sl_cap := sl_cap sl |},
                  <[a := list_inserts (sl_off sl + sl_len sl) xs arr]> h)
        | None => None
        end
    | None => Some (sl, h)
    end
  else
    match slice_view_in h sl with
    | Some old =>
        let newcap := n `max` growslice rt (sl_cap sl) n in
        let a := fresh (dom h) in
        Some ({| sl_arr := Some a; sl_off := 0; sl_len := n;
                 sl_cap := newcap |},
              <[a := old ++ xs ++ replicate (newcap - n) zero_Annotation]> h)
    | None => None
    end.

Definition append (sl : Slice) (xs : list Annotation) : M Slice :=
  λ st, match append_in (arrays st) sl xs with
        | Some (sl', h') => Some (sl', with_arrays h' st, [])
        | None => None
        end.

(** *** Traces *)

(** Modelled from the spec: NewTrace (trace.go): "mint a new Trace"; a new
    trace has the given id and no observer yet. *)
Definition NewTrace (id : Z) : M ptr :=
  λ st, let t := fresh (dom (traces st)) in
        Some (t, with_traces (<[t := {| trace_id := id; observer := None |}]>
                                (traces st)) st, []).

(** Modelled from the spec: getObserver (trace.go): the trace "supplies an
    optional observer"; the receiver is dereferenced. *)
Definition getObserver (t : option ptr) : M (option nat) :=
  λ st, match t with
        | Some a =>
            match traces st !! a with
            | Some tr => Some (observer tr, st, [])
            | None => None
            end
        | None => None
        end.

(** Modelled from the spec: registering or replacing the observer of a
    trace (trace.go), which may happen at any time after a span started. *)
Definition setObserver (t : ptr) (o : option nat) (st : State) : State :=
  match traces st !! t with
  | Some tr =>
      with_traces (<[t := {| trace_id := trace_id tr; observer := o |}]>
                     (traces st)) st
  | None => st
  end.

(** [f.scope.r.observeTrace(trace)]: the registry shows the trace to its
    watchers, which may install an observer on it. *)
Definition observeTrace (r : nat) (t : ptr) : M unit :=
  emit (EvObserveTrace r t) ;;;
  λ st, match traces st !! t with
        | Some tr =>
            match traceWatcher rt r (trace_id tr) with
            | Some o => Some (tt, setObserver t (Some o) st, [])
            | None => Some (tt, st, [])
            end
        | None => None
        end.

(** ** span.go: contexts *)

(** [ctx.Value(key)] by dynamic dispatch; [None] is a nil dereference.
    The [*Span] cases are [func (s *Span) Value]. *)
Fixpoint ctx_Value (ctx : context) (key : Key) : option Iface :=
  match ctx with
  | CtxNil => None
  | CtxOther value => Some (value key)
  | CtxNilSpan => if decide (key = spanKey) then Some (ISpan None) else None
  | CtxSpan s inner =>
      if decide (key = spanKey) then Some (ISpan (Some s))
      else ctx_Value inner key
  end.

(** [func (s *Span) Value(key interface{}) interface{}] on a span of the
    store. *)
Definition Span_Value (s : ptr) (key : Key) : M Iface :=
  if decide (key = spanKey) then ret (ISpan (Some s))
  else sp <- get_span s ;; lift (ctx_Value (Context sp) key).

(** The span [s] of the store used as a [context.Context]. *)
Definition as_context (st : State) (s : ptr) : option context :=
  sp ← spans st !! s; Some (CtxSpan s (Context sp)).

(** [func SpanFromCtx(ctx context.Context) *Span] *)
Definition SpanFromCtx (ctx : context) : option (option ptr) :=
  match ctx with
  | CtxSpan s _ => Some (Some s)
  | _ =>
      match ctx_Value ctx spanKey with
      | Some (ISpan (Some s)) => Some (Some s)
      | Some _ => Some None
      | None => None
      end
  end.

(** ** span.go: newSpan and the finish closure *)

(** What the closure returned by [newSpan] captures: the span [s] and the
    local variable [observer]. *)
Record exit_closure := { cl_s : ptr; cl_observer : option nat }.

(** How a call of the finish closure ends. *)
Inductive Outcome :=
| Returned
| Panicked (v : nat).

Definition new_span (sp : Span) : M ptr :=
  λ st, let s := fresh (dom (spans st)) in
        Some (s, with_spans (<[s := sp]> (spans st)) st, []).

(** The first statement of [newSpan]: the [if]/[else if] chain that fixes
    the local variables [ctx], [parent] and [trace]. *)
Definition resolve (ctx : context) (fn_ : Func) (id_ : Z)
    (trace_ : option ptr) : M (context * option ptr * option ptr) :=
  match ctx with
  | CtxSpan s _ =>
      sp <- get_span s ;;
      match trace_ with
      | None => ret (Context sp, Some s, trace sp)
      | Some _ => ret (Context sp, None, trace_)
      end
  | _ =>
      v <- lift (ctx_Value ctx spanKey) ;;
      match v with
      | ISpan (Some s) =>
          match trace_ with
          | None => sp <- get_span s ;; ret (ctx, Some s, trace sp)
          | Some _ => ret (ctx, None, trace_)
          end
      | _ =>
          match trace_ with
          | None =>
              t <- NewTrace id_ ;;
              observeTrace (scope_r fn_) t ;;;
              ret (ctx, None, Some t)
          | Some _ => ret (ctx, None, trace_)
          end
      end
  end.

(** [func newSpan(ctx, f, args, id, trace) (s *Span, exit func( *error))];
    [now] is what [monotime.Now()] returns. *)
Definition newSpan (ctx : context) (fn_ : Func) (args_ : list nat) (id_ : Z)
    (trace_ : option ptr) (now : Z) : M (ptr * exit_closure) :=
  r <- resolve ctx fn_ id_ trace_ ;;
  let ctx' := r.1.1 in
  let parent_ := r.1.2 in
  let trace' := r.2 in
  observer_ <- getObserver trace' ;;
  s <- new_span {| mtx := false; id := id_; start := now; f := fn_;
                   trace := trace'; parent := parent_; args := args_;
                   Context := ctx'; done := false; orphaned := false;
                   children := ∅; annotations := nil_slice |} ;;
  match parent_ with
  | Some p =>
      psp <- get_span p ;;
      emit (EvFuncStart fn_ (Some (f psp))) ;;;
      addChild p s
  | None =>
      emit (EvFuncStart fn_ None) ;;;
      emit (EvRootSpanStart (scope_r fn_) s)
  end ;;;
  match observer_ with
  | Some o => emit (EvObserverStart o s)
  | None => ret tt
  end ;;;
  ret (s, {| cl_s := s; cl_observer := observer_ |}).

(** The closure [func(errptr *error)] returned by [newSpan].  [errptr] is
    the error slot as it is at the call ([None] for a nil pointer), [rec]
    is what [recover()] returns ([None] when nothing is unwinding) and
    [finish] is what [monotime.Now()] returns. *)
Definition exit (cl : exit_closure) (errptr : option (option nat))
    (rec : option nat) (finish : Z) : M Outcome :=
  let s := cl_s cl in
  let panicked := bool_decide (rec ≠ None) in
  let err := match errptr with Some e => e | None => None end in
  sp <- get_span s ;;
  emit (EvFuncEnd (f sp) err panicked (Time_Sub finish (start sp))) ;;;
  Lock s ;;;
  modify_span s (set_done true) ;;;
  sp' <- get_span s ;;
  let orphaned_ := orphaned sp' in
  let children_ := spanBag_Iterate (children sp') in
  Unlock s ;;;
  for_each children_ orphan ;;;
  match parent sp with
  | Some p =>
      removeChild p s ;;;
      if orphaned_ then emit (EvOrphanEnd (scope_r (f sp)) s) else ret tt
  | None => emit (EvRootSpanEnd (scope_r (f sp)) s)
  end ;;;
  match cl_observer cl with
  | Some o => emit (EvObserverFinish o s err panicked finish)
  | None => ret tt
  end ;;;
  match rec with
  | Some v => emit (EvPanic v) ;;; ret (Panicked v)
  | None => ret Returned
  end.

(** ** span.go: accessors *)

(** [func (s *Span) Duration() time.Duration] *)
Definition Duration (s : ptr) (now : Z) : M Z :=
  sp <- get_span s ;; ret (Time_Sub now (start sp)).

(** [func (s *Span) Start() time.Time] *)
Definition Start (s : ptr) : M Z := sp <- get_span s ;; ret (start sp).

(** [func (s *Span) String() string] *)
Definition String_ (s : ptr) : M string :=
  sp <- get_span s ;; ret (Sprintf_ctx rt (Context sp) +:+ ".WithSpan()").

(** Modelled from the spec: the Child Ordering (spanSorter is declared in
    another file): "primary key = start timestamp ascending, tie-break =
    identity ascending". *)
Definition spanSorter_le (x y : ptr * Span) : Prop :=
  (start x.2 < start y.2)%Z ∨ (start x.2 = start y.2 ∧ (id x.2 ≤ id y.2)%Z).

Global Instance spanSorter_le_dec x y : Decision (spanSorter_le x y).
Proof. unfold spanSorter_le. apply _. Defined.

Fixpoint load_spans (l : list ptr) : M (list (ptr * Span)) :=
  match l with
  | [] => ret []
  | c :: l' =>
      sp <- get_span c ;; r <- load_spans l' ;; ret ((c, sp) :: r)
  end.

(** [func (s *Span) Children(cb func(s *Span))]; each call of [cb] is
    logged as a visit. *)
Definition Children (s : ptr) : M unit :=
  Lock s ;;;
  sp <- get_span s ;;
  let sorter := remove_dups (spanBag_Iterate (children sp)) in
  Unlock s ;;;
  loaded <- load_spans sorter ;;
  for_each (merge_sort spanSorter_le loaded) (λ c, emit (EvVisit c.1)).

(** [func (s *Span) Args() (rv []string)] *)
Definition Args (s : ptr) : M (list string) :=
  sp <- get_span s ;; ret (Sprintf_arg rt <$> args sp).

Definition Id (s : ptr) : M Z := sp <- get_span s ;; ret (id sp).
Definition Func_ (s : ptr) : M Func := sp <- get_span s ;; ret (f sp).
Definition Trace_ (s : ptr) : M (option ptr) :=
  sp <- get_span s ;; ret (trace sp).
Definition Parent (s : ptr) : M (option ptr) :=
  sp <- get_span s ;; ret (parent sp).

(** [func (s *Span) Annotations() []Annotation] *)
Definition Annotations (s : ptr) : M Slice :=
  Lock s ;;;
  sp <- get_span s ;;
  let annotations_ := annotations sp in
  Unlock s ;;;
  xs <- read_slice annotations_ ;;
  append nil_slice xs.

(** [func (s *Span) Annotate(name, val string)] *)
Definition Annotate (s : ptr) (name val : string) : M unit :=
  Lock s ;;;
  sp <- get_span s ;;
  sl <- append (annotations sp) [{| Name := name; Value := val |}] ;;
  modify_span s (set_annotations sl) ;;;
  Unlock s.

(** [func (s *Span) Orphaned() (rv bool)] *)
Definition Orphaned (s : ptr) : M bool :=
  Lock s ;;;
  sp <- get_span s ;;
  let rv := orphaned sp in
  Unlock s ;;;
  ret rv.

(** ** The operations of the core, as one type *)

Inductive Op :=
| OpNewSpan (ctx : context) (fn_ : Func) (args_ : list nat) (id_ : Z)
    (trace_ : option ptr) (now : Z)
| OpExit (cl : exit_closure) (errptr : option (option nat))
    (rec : option nat) (finish : Z)
| OpOrphan (s : ptr)
| OpAddChild (s child : ptr)
| OpRemoveChild (s child : ptr)
| OpAnnotate (s : ptr) (name val : string)
| OpAnnotations (s : ptr)
| OpOrphaned (s : ptr)
| OpChildren (s : ptr)
| OpDuration (s : ptr) (now : Z)
| OpStart (s : ptr)
| OpValue (s : ptr) (key : Key)
| OpString (s : ptr)
| OpArgs (s : ptr)
| OpId (s : ptr)
| OpFunc (s : ptr)
| OpTrace (s : ptr)
| OpParent (s : ptr).

Definition void {A} (m : M A) : M unit := m ;;; ret tt.

Definition run_op (op : Op) : M unit :=
  match op with
  | OpNewSpan ctx fn_ args_ id_ trace_ now =>
      void (newSpan ctx fn_ args_ id_ trace_ now)
  | OpExit cl errptr rec finish => void (exit cl errptr rec finish)
  | OpOrphan s => orphan s
  | OpAddChild s child => addChild s child
  | OpRemoveChild s child => removeChild s child
  | OpAnnotate s name val => Annotate s name val
  | OpAnnotations s => void (Annotations s)
  | OpOrphaned s => void (Orphaned s)
  | OpChildren s => Children s
  | OpDuration s now => void (Duration s now)
  | OpStart s => void (Start s)
  | OpValue s key => void (Span_Value s key)
  | OpString s => void (String_ s)
  | OpArgs s => void (Args s)
  | OpId s => void (Id s)
  | OpFunc s => void (Func_ s)
  | OpTrace s => void (Trace_ s)
  | OpParent s => void (Parent s)
  end.

(** A run of several operations one after the other. *)
Fixpoint run_ops (ops : list Op) : M unit :=
  match ops with
  | [] => ret tt
  | op :: ops' => run_op op ;;; run_ops ops'
  end.

End runtime.

(** * The guarded fields and where the code touches them

    The call log shows what the code calls.  What it does under a lock
    needs one thing more: where it reads and writes the fields that the
    struct declares "protected by mtx".  This part is the code of
    [orphan], [addChild], [removeChild] and the finish closure again,
    statement by statement, with one log entry for every such access
    between the calls. *)

(** The fields under "protected by mtx" that the span state machine
    uses. *)
Inductive Field :=
| Fdone
| Forphaned
| Fchildren.

Definition field_type (fld : Field) : Type :=
  match fld with
  | Fdone | Forphaned => bool
  | Fchildren => gset nat
  end.

Definition get_field (fld : Field) : Span → field_type fld :=
  match fld with
  | Fdone => done
  | Forphaned => orphaned
  | Fchildren => children
  end.

Definition set_field (fld : Field) : field_type fld → Span → Span :=
  match fld with
  | Fdone => set_done
  | Forphaned => set_orphaned
  | Fchildren => set_children
  end.

Inductive AccessKind :=
| Reads
| Writes.

(** An entry of the trace: a call, as in the call log, or an access to the
    field [fld] of the span [s]. *)
Inductive TEvent :=
| Call (e : Event)
| Access (s : ptr) (fld : Field) (k : AccessKind).

Global Instance Field_eq_dec : EqDecision Field.
Proof. solve_decision. Defined.
Global Instance AccessKind_eq_dec : EqDecision AccessKind.
Proof. solve_decision. Defined.
Global Instance TEvent_eq_dec : EqDecision TEvent.
Proof. solve_decision. Defined.

Module Traced.

(** The monad of span operations with the trace in the place of the call
    log. *)
Definition T (A : Type) : Type := State → option (A * State * list TEvent).

Definition ret {A} (a : A) : T A := λ st, Some (a, st, []).

Definition bind {A B} (m : T A) (k : A → T B) : T B :=
  λ st,
    match m st with
    | Some (a, st1, t1) =>
        match k a st1 with
        | Some (b, st2, t2) => Some (b, st2, t1 ++ t2)
        | None => None
        end
    | None => None
    end.

Declare Scope traced_scope.
Delimit Scope traced_scope with traced.
Notation "x <- m ;; k" := (bind m (λ x, k))
  (at level 100, m at next level, right associativity) : traced_scope.
Notation "m ;;; k" := (bind m (λ _, k))
  (at level 100, right associativity) : traced_scope.
Local Open Scope traced_scope.

(** A computation of the call-level embedding, its calls traced as they
    are: the lock operations, the calls that leave the file, and the reads
    of the fields fixed at construction. *)
Definition call {A} (m : M A) : T A :=
  λ st, match m st with
        | Some (a, st', evs) => Some (a, st', Call <$> evs)
        | None => None
        end.

(** A read of the guarded field [s.fld]. *)
Definition read (s : ptr) (fld : Field) : T (field_type fld) :=
  λ st, match spans st !! s with
        | Some sp => Some (get_field fld sp, st, [Access s fld Reads])
        | None => None
        end.

(** A change of the guarded field [s.fld] in place: an assignment, or a
    method of the field that changes it ([s.children.Add]). *)
Definition update (s : ptr) (fld : Field)
    (g : field_type fld → field_type fld) : T unit :=
  λ st, match spans st !! s with
        | Some sp =>
            Some (tt,
                  with_spans
                    (<[s := set_field fld (g (get_field fld sp)) sp]>
                       (spans st)) st,
                  [Access s fld Writes])
        | None => None
        end.

Definition write (s : ptr) (fld : Field) (v : field_type fld) : T unit :=
  update s fld (λ _, v).

Fixpoint for_each {A} (l : list A) (body : A → T unit) : T unit :=
  match l with
  | [] => ret tt
  | x :: l' => body x ;;; for_each l' body
  end.

(** [func (s *Span) orphan()]; [!s.done && !s.orphaned] reads [s.orphaned]
    only when [s.done] is false. *)
Definition orphan (s : ptr) : T unit :=
  call (Lock s) ;;;
  done_ <- read s Fdone ;;
  live <- (if done_ then ret false
           else orphaned_ <- read s Forphaned ;; ret (negb orphaned_)) ;;
  (if live then
     write s Forphaned true ;;;
     sp <- call (get_span s) ;;
     call (emit (EvOrphanedSpan (scope_r (f sp)) s))
   else ret tt) ;;;
  call (Unlock s).

(** [func (s *Span) addChild(child *Span)] *)
Definition addChild (s child : ptr) : T unit :=
  call (Lock s) ;;;
  update s Fchildren (spanBag_Add child) ;;;
  done_ <- read s Fdone ;;
  call (Unlock s) ;;;
  if done_ then orphan child else ret tt.

(** [func (s *Span) removeChild(child *Span)] *)
Definition removeChild (s child : ptr) : T unit :=
  call (Lock s) ;;;
  update s Fchildren (spanBag_Remove child) ;;;
  call (Unlock s).

(** The closure [func(errptr *error)] returned by [newSpan], with the
    arguments of the call-level [exit]. *)
Definition exit (cl : exit_closure) (errptr : option (option nat))
    (rec : option nat) (finish : Z) : T Outcome :=
  let s := cl_s cl in
  let panicked := bool_decide (rec ≠ None) in
  let err := match errptr with Some e => e | None => None end in
  sp <- call (get_span s) ;;
  call (emit (EvFuncEnd (f sp) err panicked (Time_Sub finish (start sp)))) ;;;
  call (Lock s) ;;;
  write s Fdone true ;;;
  orphaned_ <- read s Forphaned ;;
  bag <- read s Fchildren ;;
  let children_ := spanBag_Iterate bag in
  call (Unlock s) ;;;
  for_each children_ orphan ;;;
  match parent sp with
  | Some p =>
      removeChild p s ;;;
      if orphaned_ then call (emit (EvOrphanEnd (scope_r (f sp)) s))
      else ret tt
  | None => call (emit (EvRootSpanEnd (scope_r (f sp)) s))
  end ;;;
  match cl_observer cl with
  | Some o => call (emit (EvObserverFinish o s err panicked finish))
  | None => ret tt
  end ;;;
  match rec with
  | Some v => call (emit (EvPanic v)) ;;; ret (Panicked v)
  | None => ret Returned
  end.

End Traced.

(** The calls of a trace, in order. *)
Definition calls_of (tr : list TEvent) : list Event :=
  omap (λ e, match e with Call c => Some c | Access _ _ _ => None end) tr.

(** A traced computation with its accesses forgotten. *)
Definition erase {A} (t : Traced.T A) : M A :=
  λ st, match t st with
        | Some (a, st', tr) => Some (a, st', calls_of tr)
        | None => None
        end.

(** [locked_accesses held tr] replays a trace from the lock state [held]
    (the span whose lock the execution path holds, if any): a lock is
    taken only when none is held and released only by its holder, and
    every access to a guarded field of a span happens while the lock of
    that span is held.  The result is the lock state at the end. *)
Fixpoint locked_accesses (held : option ptr) (tr : list TEvent)
  : option (option ptr) :=
  match tr with
  | [] => Some held
  | Call (EvLock s) :: tr' =>
      match held with
      | None => locked_accesses (Some s) tr'
      | Some _ => None
      end
  | Call (EvUnlock s) :: tr' =>
      if decide (held = Some s) then locked_accesses None tr' else None
  | Call _ :: tr' => locked_accesses held tr'
  | Access x _ _ :: tr' =>
      if decide (held = Some x) then locked_accesses held tr' else None
  end.

(** * The closure as a deferred call

    [rec := recover()] is the first statement of the closure.  What the
    built-in returns is fixed by the language (The Go Programming Language
    Specification, "Handling panics"): nil when the goroutine is not
    panicking, when [recover] was not called directly by a deferred
    function, and when the value of the panic is nil ([panic(nil)], in the
    Go releases this code was written for; from Go 1.21 such a panic
    carries a run-time error instead). *)
Inductive PanicValue :=
| PanicNil
| PanicWith (v : nat).

(** The goroutine when the closure is called: the panic in flight, if any,
    and whether the closure is the function that the [defer] statement
    called. *)
Record Goroutine := {
  panicking : option PanicValue;
  deferred_call : bool }.

Definition recover (g : Goroutine) : option nat :=
  match panicking g with
  | Some (PanicWith v) => if deferred_call g then Some v else None
  | _ => None
  end.

(** * Definitions used to state the properties *)

(** [orphan], symbolically executed. *)
Definition orphan_fires (sp : Span) : bool := negb (done sp) && negb (orphaned sp).

Definition orphan_span (sp : Span) : Span :=
  if orphan_fires sp then set_orphaned true sp else sp.

Definition orphan_events (s : ptr) (sp : Span) : list Event :=
  EvLock s ::
  (if orphan_fires sp then [EvOrphanedSpan (scope_r (f sp)) s] else []) ++
  [EvUnlock s].

(** ** Well-formed stores

    Between two operations of one execution path no lock is held, and every
    pointer stored in a span points to an object of the store. *)
Definition unlocked (h : gmap nat Span) : Prop :=
  ∀ s sp, h !! s = Some sp → mtx sp = false.

Definition closed (st : State) : Prop :=
  ∀ s sp, spans st !! s = Some sp →
    (∀ c, c ∈ children sp → is_Some (spans st !! c)) ∧
    (∀ p, parent sp = Some p → is_Some (spans st !! p)) ∧
    (∃ t, trace sp = Some t ∧ is_Some (traces st !! t)).

Definition wf (st : State) : Prop := unlocked (spans st) ∧ closed st.

(** The loop [for _, child := range children { child.orphan() }]: the
    store it leaves and the calls it makes. *)
Definition orphan_all (l : list ptr) (h : gmap nat Span) : gmap nat Span :=
  foldl (λ h c, alter orphan_span c h) h l.

Fixpoint orphan_all_events (l : list ptr) (h : gmap nat Span) : list Event :=
  match l with
  | [] => []
  | c :: l' =>
      match h !! c with
      | Some sp => orphan_events c sp
      | None => []
      end ++ orphan_all_events l' (alter orphan_span c h)
  end.

Definition remove_child (c : ptr) (sp : Span) : Span :=
  set_children (spanBag_Remove c (children sp)) sp.

Definition add_child (c : ptr) (sp : Span) : Span :=
  set_children (spanBag_Add c (children sp)) sp.

(** [addChild], symbolically executed: the insertion, then [orphan] on the
    child when the parent was done. *)
Definition addChild_spans (s c : ptr) (h : gmap nat Span) : gmap nat Span :=
  let h1 := alter (add_child c) s h in
  match h !! s with
  | Some sp => if done sp then alter orphan_span c h1 else h1
  | None => h
  end.

Definition addChild_events (s c : ptr) (h : gmap nat Span) : list Event :=
  [EvLock s; EvUnlock s] ++
  match h !! s with
  | Some sp =>
      if done sp then
        match alter (add_child c) s h !! c with
        | Some csp => orphan_events c csp
        | None => []
        end
      else []
  | None => []
  end.

(** The finish closure, symbolically executed. *)
Definition exit_spans (s : ptr) (sp : Span) (h : gmap nat Span)
  : gmap nat Span :=
  let h2 := orphan_all (spanBag_Iterate (children sp))
              (<[s := set_done true sp]> h) in
  match parent sp with
  | Some p => alter (remove_child s) p h2
  | None => h2
  end.

Definition exit_err (errptr : option (option nat)) : option nat :=
  match errptr with Some e => e | None => None end.

Definition exit_panicked (rec : option nat) : bool := bool_decide (rec ≠ None).

Definition exit_registry_events (s : ptr) (sp : Span) : list Event :=
  match parent sp with
  | Some p =>
      [EvLock p; EvUnlock p] ++
      (if orphaned sp then [EvOrphanEnd (scope_r (f sp)) s] else [])
  | None => [EvRootSpanEnd (scope_r (f sp)) s]
  end.

Definition exit_observer_events (cl : exit_closure)
    (errptr : option (option nat)) (rec : option nat) (finish : Z)
  : list Event :=
  match cl_observer cl with
  | Some o =>
      [EvObserverFinish o (cl_s cl) (exit_err errptr) (exit_panicked rec) finish]
  | None => []
  end.

Definition exit_events (cl : exit_closure) (sp : Span)
    (errptr : option (option nat)) (rec : option nat) (finish : Z)
    (h : gmap nat Span) : list Event :=
  [EvFuncEnd (f sp) (exit_err errptr) (exit_panicked rec)
     (Time_Sub finish (start sp));
   EvLock (cl_s cl); EvUnlock (cl_s cl)] ++
  orphan_all_events (spanBag_Iterate (children sp))
    (<[cl_s cl := set_done true sp]> h) ++
  exit_registry_events (cl_s cl) sp ++
  exit_observer_events cl errptr rec finish ++
  match rec with Some v => [EvPanic v] | None => [] end.

Definition exit_outcome (rec : option nat) : Outcome :=
  match rec with Some v => Panicked v | None => Returned end.

(** The trace of [orphan] on the span [s] with the record [sp]. *)
Definition orphan_trace (s : ptr) (sp : Span) : list TEvent :=
  [Call (EvLock s); Access s Fdone Reads] ++
  (if done sp then []
   else Access s Forphaned Reads ::
        (if orphaned sp then []
         else [Access s Forphaned Writes;
               Call (EvOrphanedSpan (scope_r (f sp)) s)])) ++
  [Call (EvUnlock s)].

(** The trace of the loop [for _, child := range children { child.orphan()
    }]. *)
Fixpoint orphan_all_trace (l : list ptr) (h : gmap nat Span) : list TEvent :=
  match l with
  | [] => []
  | c :: l' =>
      match h !! c with
      | Some sp => orphan_trace c sp
      | None => []
      end ++ orphan_all_trace l' (alter orphan_span c h)
  end.

(** The trace of the finish closure. *)
Definition exit_trace (cl : exit_closure) (sp : Span)
    (errptr : option (option nat)) (rec : option nat) (finish : Z)
    (h : gmap nat Span) : list TEvent :=
  [Call (EvFuncEnd (f sp) (exit_err errptr) (exit_panicked rec)
           (Time_Sub finish (start sp)));
   Call (EvLock (cl_s cl)); Access (cl_s cl) Fdone Writes;
   Access (cl_s cl) Forphaned Reads; Access (cl_s cl) Fchildren Reads;
   Call (EvUnlock (cl_s cl))] ++
  orphan_all_trace (spanBag_Iterate (children sp))
    (<[cl_s cl := set_done true sp]> h) ++
  match parent sp with
  | Some p =>
      [Call (EvLock p); Access p Fchildren Writes; Call (EvUnlock p)] ++
      (if orphaned sp then [Call (EvOrphanEnd (scope_r (f sp)) (cl_s cl))]
       else [])
  | None => [Call (EvRootSpanEnd (scope_r (f sp)) (cl_s cl))]
  end ++
  (Call <$> exit_observer_events cl errptr rec finish) ++
  match rec with Some v => [Call (EvPanic v)] | None => [] end.

(** ** Relational invariants of computations

    A relation between the store before, the calls logged and the store
    after that holds of nothing-happened and composes along sequencing
    holds of every computation built from primitives that satisfy it. *)
Class Compositional (R : State → list Event → State → Prop) : Prop := {
  comp_refl : ∀ st, R st [] st;
  comp_trans : ∀ st1 e1 st2 e2 st3,
    R st1 e1 st2 → R st2 e2 st3 → R st1 (e1 ++ e2) st3 }.

Definition preserves {A} (R : State → list Event → State → Prop) (m : M A)
  : Prop :=
  ∀ st a st' evs, m st = Some (a, st', evs) → R st evs st'.

(** What construction fixes for good. *)
Definition same_identity (sp sp' : Span) : Prop :=
  id sp' = id sp ∧ start sp' = start sp ∧ f sp' = f sp ∧
  trace sp' = trace sp ∧ parent sp' = parent sp ∧ args sp' = args sp ∧
  Context sp' = Context sp.

Definition flags_le (h h' : gmap nat Span) : Prop :=
  ∀ s sp, h !! s = Some sp →
    ∃ sp', h' !! s = Some sp' ∧ same_identity sp sp' ∧
           (done sp = true → done sp' = true) ∧
           (orphaned sp = true → orphaned sp' = true).

(** A span that is done or orphaned: [orphan] does nothing on it. *)
Definition settled (h : gmap nat Span) (s : ptr) : Prop :=
  ∃ sp, h !! s = Some sp ∧ orphan_fires sp = false.

Definition is_orphanedSpan (s : ptr) (e : Event) : bool :=
  match e with
  | EvOrphanedSpan _ s' => bool_decide (s' = s)
  | _ => false
  end.

(** How many [orphanedSpan(s)] calls a log holds. *)
Definition notifications (s : ptr) (evs : list Event) : nat :=
  length (List.filter (is_orphanedSpan s) evs).

Definition life (s : ptr) (st : State) (evs : list Event) (st' : State)
  : Prop :=
  flags_le (spans st) (spans st') ∧
  (settled (spans st) s → notifications s evs = 0) ∧
  notifications s evs ≤ 1 ∧
  (notifications s evs = 1 → settled (spans st') s).

(** ** Lock discipline

    [scan allow held evs] replays a log from the lock state [held] (the
    span whose lock the execution path holds, if any): a lock is taken
    only when none is held, released only by its holder, and a call that
    leaves the file while the lock of [s] is held must be allowed by
    [allow s].  The result is the lock state at the end, or [None] when
    the log breaks the discipline. *)
Fixpoint scan (allow : ptr → Event → bool) (held : option ptr)
    (evs : list Event) : option (option ptr) :=
  match evs with
  | [] => Some held
  | e :: evs' =>
      match e, held with
      | EvLock s, None => scan allow (Some s) evs'
      | EvLock _, Some _ => None
      | EvUnlock s, Some s' =>
          if decide (s = s') then scan allow None evs' else None
      | EvUnlock _, None => None
      | _, None => scan allow None evs'
      | _, Some s => if allow s e then scan allow held evs' else None
      end
  end.

(** The discipline of the claim: nothing is called while a lock is held. *)
Definition nothing_under_lock (held : ptr) (e : Event) : bool := false.

(** The discipline of the code: under the lock of [s] the only call is the
    registry's [orphanedSpan(s)]. *)
Definition orphanedSpan_under_own_lock (held : ptr) (e : Event) : bool :=
  is_orphanedSpan held e.

Definition is_lock_event (e : Event) : bool :=
  match e with EvLock _ | EvUnlock _ => true | _ => false end.

Definition disc {A} (allow : ptr → Event → bool) (h h' : option ptr)
    (m : M A) : Prop :=
  ∀ st a st' evs, m st = Some (a, st', evs) → scan allow h evs = Some h'.

Abbreviation code_disc := (disc orphanedSpan_under_own_lock None None).

(** ** Computations that stay inside the span store

    [local p]: the traces and the backing arrays are left as they are and
    every logged call satisfies [p]. *)
Definition local (p : Event → bool) (st : State) (evs : list Event)
    (st' : State) : Prop :=
  traces st' = traces st ∧ arrays st' = arrays st ∧
  Forall (λ e, p e = true) evs.

(** The calls of [orphan], [addChild] and [removeChild]. *)
Definition is_orphan_call (e : Event) : bool :=
  match e with
  | EvLock _ | EvUnlock _ | EvOrphanedSpan _ _ => true
  | _ => false
  end.

(** The calls of [newSpan] between the construction of the span and the
    observer. *)
Definition is_link_call (e : Event) : bool :=
  match e with
  | EvLock _ | EvUnlock _ | EvOrphanedSpan _ _ | EvFuncStart _ _
  | EvRootSpanStart _ _ => true
  | _ => false
  end.

(** The span a context designates, if any. *)
Definition ctx_span (ctx : context) : option ptr :=
  match SpanFromCtx ctx with
  | Some (Some p) => Some p
  | _ => None
  end.

(** The span [newSpan] constructs. *)
Definition span_literal (fn_ : Func) (args_ : list nat) (id_ now : Z)
    (r : context * option ptr * option ptr) : Span :=
  {| mtx := false; id := id_; start := now; f := fn_; trace := r.2;
     parent := r.1.2; args := args_; Context := r.1.1; done := false;
     orphaned := false; children := ∅; annotations := nil_slice |}.

(** The same call with the [panicked] flag set to [b]. *)
Definition with_panicked (b : bool) (e : Event) : Event :=
  match e with
  | EvFuncEnd fn_ err _ d => EvFuncEnd fn_ err b d
  | EvObserverFinish o s err _ fin => EvObserverFinish o s err b fin
  | _ => e
  end.

(** ** Every operation leaves the locks free

    [locks_are held h]: the lock of [held] is taken and no other. *)
Definition locks_are (held : option ptr) (h : gmap nat Span) : Prop :=
  ∀ s sp, h !! s = Some sp → mtx sp = bool_decide (held = Some s).

Definition locks {A} (held held' : option ptr) (m : M A) : Prop :=
  ∀ st a st' evs, m st = Some (a, st', evs) →
    locks_are held (spans st) → locks_are held' (spans st').

(** The annotations of the span [s], read through its slice. *)
Definition span_annotations (st : State) (s : ptr)
  : option (list Annotation) :=
  match spans st !! s with
  | Some sp => slice_view st (annotations sp)
  | None => None
  end.

(** A slice header that lies inside its backing array. *)
Definition slice_ok (h : gmap nat (list Annotation)) (sl : Slice) : Prop :=
  sl_len sl ≤ sl_cap sl ∧
  match sl_arr sl with
  | Some a => ∃ arr, h !! a = Some arr ∧ sl_off sl + sl_cap sl ≤ length arr
  | None => sl_cap sl = 0
  end.

(** A backing array that the annotations of some span live in. *)
Definition span_owned (st : State) (a : ptr) : Prop :=
  ∃ s sp, spans st !! s = Some sp ∧ sl_arr (annotations sp) = Some a.

(** Every span's slice lies inside its array, and no two spans share an
    array. *)
Definition ann_wf (st : State) : Prop :=
  (∀ s sp, spans st !! s = Some sp →
           slice_ok (arrays st) (annotations sp)) ∧
  (∀ s1 s2 sp1 sp2 a,
      spans st !! s1 = Some sp1 → spans st !! s2 = Some sp2 →
      sl_arr (annotations sp1) = Some a →
      sl_arr (annotations sp2) = Some a → s1 = s2).

(** ** What the holder of a returned slice can do with it

    Go gives the caller of [Annotations] a slice value; through it the
    caller can overwrite an element ([r[i] = a]), append ([r = append(r,
    xs...)]) and reslice within the capacity ([r = r[lo:hi]]).  Index and
    bounds errors panic. *)
Inductive Mutation :=
| MutSet (i : nat) (a : Annotation)
| MutAppend (xs : list Annotation)
| MutReslice (lo hi : nat).

Definition mutate (rt : Runtime) (r : Slice) (m : Mutation) : M Slice :=
  match m with
  | MutSet i a =>
      if decide (i < sl_len r) then
        match sl_arr r with
        | Some arr => write_array arr (sl_off r + i) [a] ;;; ret r
        | None => crash
        end
      else crash
  | MutAppend xs => append rt r xs
  | MutReslice lo hi =>
      if decide (lo ≤ hi ∧ hi ≤ sl_cap r) then
        ret {| sl_arr := sl_arr r; sl_off := sl_off r + lo;
               sl_len := hi - lo; sl_cap := sl_cap r - lo |}
      else crash
  end.

(** A step of the program around a returned slice [r]: an operation of the
    core (on any span, by anyone) or a mutation of [r] by its holder. *)
Inductive Step :=
| StepOp (op : Op)
| StepMutate (m : Mutation).

Fixpoint run_steps (rt : Runtime) (r : Slice) (steps : list Step) : M Slice :=
  match steps with
  | [] => ret r
  | StepOp op :: rest => run_op rt op ;;; run_steps rt r rest
  | StepMutate m :: rest => r' <- mutate rt r m ;; run_steps rt r' rest
  end.

(** The annotations that the steps add to the span [s], in order. *)
Definition annotated (s : ptr) (op : Op) : list Annotation :=
  match op with
  | OpAnnotate s' name val =>
      if decide (s' = s) then [{| Name := name; Value := val |}] else []
  | _ => []
  end.

Fixpoint annotated_by (s : ptr) (steps : list Step) : list Annotation :=
  match steps with
  | [] => []
  | StepOp op :: rest => annotated s op ++ annotated_by s rest
  | StepMutate _ :: rest => annotated_by s rest
  end.

(** A slice in the hands of a caller: its array is none of the spans'. *)
Definition caller_slice (st : State) (r : Slice) : Prop :=
  ∀ a, sl_arr r = Some a → a ∈ dom (arrays st) ∧ ¬ span_owned st a.

(** How the annotations move in a step: the store stays well-formed, no
    array disappears, and the span [s] gains [app s]. *)
Definition ann_grows (app : ptr → list Annotation) (st st' : State) : Prop :=
  ann_wf st' ∧ dom (arrays st) ⊆ dom (arrays st') ∧
  (∀ s xs, span_annotations st s = Some xs →
           span_annotations st' s = Some (xs ++ app s)) ∧
  (∀ a, a ∈ dom (arrays st) → ¬ span_owned st a → ¬ span_owned st' a).

Definition ann_frame (st : State) (evs : list Event) (st' : State) : Prop :=
  ann_wf st → ann_grows (λ _, []) st st'.

(** ** Concrete inputs *)

Definition rt0 : Runtime :=
  {| growslice := λ c _, 2 * c; traceWatcher := λ _ _, None;
     Sprintf_arg := λ _, EmptyString; Sprintf_ctx := λ _, EmptyString |}.

(** A context that holds no value for any key ([context.Background()]). *)
Definition background : context := CtxOther (λ _, INil).

Definition fn0 : Func := {| fn := 1; scope_r := 7 |}.

Definition mk_span (id_ : Z) (parent_ : option ptr) (done_ orphaned_ : bool)
    (children_ : gset nat) : Span :=
  {| mtx := false; id := id_; start := 100%Z; f := fn0; trace := Some 0;
     parent := parent_; args := []; Context := background; done := done_;
     orphaned := orphaned_; children := children_;
     annotations := nil_slice |}.

Definition trace0 : Trace := {| trace_id := 10%Z; observer := None |}.

(** One live root span at address 0. *)
Definition st_root : State :=
  {| spans := {[0 := mk_span 10 None false false ∅]};
     traces := {[0 := trace0]}; arrays := ∅ |}.

(** A live root span at 0 with a live child at 1. *)
Definition st_family : State :=
  {| spans := {[0 := mk_span 10 None false false {[1]};
                1 := mk_span 11 (Some 0) false false ∅]};
     traces := {[0 := trace0]}; arrays := ∅ |}.

(** The same family after the parent finished: the root is done and the
    child is orphaned. *)
Definition st_orphaned : State :=
  {| spans := {[0 := mk_span 10 None true false ∅;
                1 := mk_span 11 (Some 0) false true ∅]};
     traces := {[0 := trace0]}; arrays := ∅ |}.

Definition ops_orphan_finish : list Op :=
  [OpOrphan 1;
   OpExit {| cl_s := 0; cl_observer := None |} None None 105%Z;
   OpOrphan 1].

Definition ops_child_life : list Op :=
  [OpOrphan 1;
   OpExit {| cl_s := 1; cl_observer := None |} None None 105%Z;
   OpAnnotate 1 "k" "v"; OpOrphan 1; OpRemoveChild 0 1].

Definition ops_panicking_finish : list Op :=
  [OpOrphan 1;
   OpExit {| cl_s := 0; cl_observer := Some 3 |} None (Some 4) 105%Z].

(** A root span that is done, and a live span, not yet its child. *)
Definition st_late : State :=
  {| spans := {[0 := mk_span 10 None true false ∅;
                1 := mk_span 11 None false false ∅]};
     traces := {[0 := trace0]}; arrays := ∅ |}.

Definition trace3 : Trace := {| trace_id := 10%Z; observer := Some 3 |}.

(** A live root span whose trace has the observer 3. *)
Definition st_root3 : State :=
  {| spans := {[0 := mk_span 10 None false false ∅]};
     traces := {[0 := trace3]}; arrays := ∅ |}.

(** The same with a live child at 1. *)
Definition st_family3 : State :=
  {| spans := {[0 := mk_span 10 None false false {[1]};
                1 := mk_span 11 (Some 0) false false ∅]};
     traces := {[0 := trace3]}; arrays := ∅ |}.

(** A context that carries the span 0 under the reserved key. *)
Definition carrying0 : context :=
  CtxOther (λ k, match k with spanKey => ISpan (Some 0) | _ => INil end).

Definition ann_a : Annotation := {| Name := "a"; Value := "1" |}.

Definition ann_b : Annotation := {| Name := "b"; Value := "2" |}.

(** A live root span with one annotation, in a backing array of
    capacity 2. *)
Definition span_annotated : Span :=
  {| mtx := false; id := 10%Z; start := 100%Z; f := fn0; trace := Some 0;
     parent := None; args := []; Context := background; done := false;
     orphaned := false; children := ∅;
     annotations := {| sl_arr := Some 0; sl_off := 0; sl_len := 1;
                       sl_cap := 2 |} |}.

Definition st_annotated : State :=
  {| spans := {[0 := span_annotated]};
     traces := {[0 := trace0]};
     arrays := {[0 := [ann_a; zero_Annotation]]} |}.

Definition steps_mutate_annotate : list Step :=
  [StepMutate (MutSet 0 ann_b);
   StepOp (OpAnnotate 0 "b" "2");
   StepMutate (MutAppend [ann_b; ann_b])].

(** A goroutine that unwinds with the panic value 4, the closure being the
    deferred call. *)
Definition unwinding4 : Goroutine :=
  {| panicking := Some (PanicWith 4); deferred_call := true |}.

(** The same panic, the closure being called by the deferred function
    instead of being it. *)
Definition unwinding4_indirect : Goroutine :=
  {| panicking := Some (PanicWith 4); deferred_call := false |}.

(** A goroutine that unwinds with [panic(nil)]. *)
Definition unwinding_nil : Goroutine :=
  {| panicking := Some PanicNil; deferred_call := true |}.

(** What [newSpan] needs of its arguments to run through: the context is
    not the nil interface, the span it is or carries is in the store, and
    so is an explicit trace. *)
Definition ctx_ok (st : State) (ctx : context) (trace_ : option ptr) : Prop :=
  is_Some (SpanFromCtx ctx) ∧
  (∀ p inner, ctx = CtxSpan p inner → is_Some (spans st !! p)) ∧
  (∀ p, ctx_span ctx = Some p → trace_ = None → is_Some (spans st !! p)) ∧
  (∀ t, trace_ = Some t → is_Some (traces st !! t)).

(** The context a new span embeds: the context passed in, unwrapped once
    when it is a span. *)
Definition embedded_ctx (st : State) (ctx : context) : context :=
  match ctx with
  | CtxSpan p _ =>
      match spans st !! p with
      | Some psp => Context psp
      | None => ctx
      end
  | _ => ctx
  end.

(** The calls of [newSpan] between the construction of the span and the
    observer. *)
Definition link_events (fn_ : Func) (s : ptr) (parent_ : option ptr)
    (h : gmap nat Span) : list Event :=
  match parent_ with
  | Some p =>
      match h !! p with
      | Some psp => EvFuncStart fn_ (Some (f psp)) :: addChild_events p s h
      | None => []
      end
  | None => [EvFuncStart fn_ None; EvRootSpanStart (scope_r fn_) s]
  end.

Definition link_spans (s : ptr) (parent_ : option ptr) (h : gmap nat Span)
  : gmap nat Span :=
  match parent_ with
  | Some p => addChild_spans p s h
  | None => h
  end.

Definition observer_start_events (o : option nat) (s : ptr) : list Event :=
  match o with
  | Some o => [EvObserverStart o s]
  | None => []
  end.

(** The calls made to the registry. *)
Definition is_registry_call (e : Event) : bool :=
  match e with
  | EvObserveTrace _ _ | EvRootSpanStart _ _ | EvRootSpanEnd _ _
  | EvOrphanedSpan _ _ | EvOrphanEnd _ _ => true
  | _ => false
  end.

(** ** The accessors only read *)

Definition is_accessor (op : Op) : bool :=
  match op with
  | OpAnnotations _ | OpOrphaned _ | OpChildren _ | OpDuration _ _
  | OpStart _ | OpValue _ _ | OpString _ | OpArgs _ | OpId _ | OpFunc _
  | OpTrace _ | OpParent _ => true
  | _ => false
  end.

(** What an accessor logs: its own lock, and the callback of [Children]. *)
Definition is_accessor_event (e : Event) : bool :=
  match e with
  | EvLock _ | EvUnlock _ | EvVisit _ => true
  | _ => false
  end.

(** The spans and the traces are as before; the arrays that existed are as
    before (a copy made by [Annotations] lives in a new one). *)
Definition reads_only (st : State) (evs : list Event) (st' : State) : Prop :=
  spans st' = spans st ∧ traces st' = traces st ∧
  arrays st ⊆ arrays st' ∧
  Forall (λ e, is_accessor_event e = true) evs.

(** Reads of the family: its flags, its children, an id, its annotations. *)
Definition ops_read : list Op :=
  [OpOrphaned 1; OpChildren 0; OpId 0; OpAnnotations 0; OpValue 1 spanKey].

(** * Properties *)

(** ** Running the monad *)

Lemma bind_Some {A B} (m : M A) (k : A → M B) st b st2 evs :
  bind m k st = Some (b, st2, evs) ↔
  ∃ a st1 e1 e2,
    m st = Some (a, st1, e1) ∧ k a st1 = Some (b, st2, e2) ∧ evs = e1 ++ e2.
Proof.
  unfold bind. split.
  - destruct (m st) as [[[a st1] e1]|]; [|discriminate].
    destruct (k a st1) as [[[b' st2'] e2]|] eqn:Hk; [|discriminate].
    intros [= -> -> <-]. by exists a, st1, e1, e2.
  - intros (a & st1 & e1 & e2 & -> & -> & ->). done.
Qed.

Lemma bind_run {A B} (m : M A) (k : A → M B) st a st1 e1 :
  m st = Some (a, st1, e1) →
  bind m k st =
    match k a st1 with
    | Some (b, st2, e2) => Some (b, st2, e1 ++ e2)
    | None => None
    end.
Proof. unfold bind. by intros ->. Qed.

Lemma get_span_run s st sp :
  spans st !! s = Some sp → get_span s st = Some (sp, st, []).
Proof. unfold get_span. by intros ->. Qed.

Lemma modify_span_run s g st sp :
  spans st !! s = Some sp →
  modify_span s g st = Some (tt, with_spans (<[s := g sp]> (spans st)) st, []).
Proof. unfold modify_span. by intros ->. Qed.

Lemma get_span_Some s st sp st' evs :
  get_span s st = Some (sp, st', evs) →
  spans st !! s = Some sp ∧ st' = st ∧ evs = [].
Proof.
  unfold get_span. destruct (spans st !! s); [|discriminate].
  by intros [= -> -> <-].
Qed.

Lemma modify_span_Some s g st u st' evs :
  modify_span s g st = Some (u, st', evs) →
  ∃ sp, spans st !! s = Some sp ∧
        st' = with_spans (<[s := g sp]> (spans st)) st ∧ evs = [].
Proof.
  unfold modify_span. destruct (spans st !! s) as [sp|]; [|discriminate].
  intros [= _ <- <-]. by exists sp.
Qed.

Lemma Lock_run s st sp :
  spans st !! s = Some sp → mtx sp = false →
  Lock s st
  = Some (tt, with_spans (<[s := set_mtx true sp]> (spans st)) st, [EvLock s]).
Proof.
  intros Hs Hm. unfold Lock.
  rewrite (bind_run _ _ _ _ _ _ (get_span_run _ _ _ Hs)), Hm.
  by rewrite (bind_run _ _ _ _ _ _ (modify_span_run _ _ _ _ Hs)).
Qed.

Lemma Unlock_run s st sp :
  spans st !! s = Some sp →
  Unlock s st
  = Some (tt, with_spans (<[s := set_mtx false sp]> (spans st)) st,
          [EvUnlock s]).
Proof.
  intros Hs. unfold Unlock.
  by rewrite (bind_run _ _ _ _ _ _ (modify_span_run _ _ _ _ Hs)).
Qed.

Lemma Lock_Some s st u st' evs :
  Lock s st = Some (u, st', evs) →
  ∃ sp, spans st !! s = Some sp ∧ mtx sp = false ∧
        st' = with_spans (<[s := set_mtx true sp]> (spans st)) st ∧
        evs = [EvLock s].
Proof.
  unfold Lock. intros H. apply bind_Some in H as (sp & st1 & e1 & e2 & H1 & H2 & ->).
  apply get_span_Some in H1 as (Hs & -> & ->).
  destruct (mtx sp) eqn:Hm; [discriminate|].
  rewrite (bind_run _ _ _ _ _ _ (modify_span_run _ _ _ _ Hs)) in H2.
  simpl in H2. simplify_eq. by exists sp.
Qed.

Lemma Unlock_Some s st u st' evs :
  Unlock s st = Some (u, st', evs) →
  ∃ sp, spans st !! s = Some sp ∧
        st' = with_spans (<[s := set_mtx false sp]> (spans st)) st ∧
        evs = [EvUnlock s].
Proof.
  unfold Unlock. intros H. apply bind_Some in H as (? & st1 & e1 & e2 & H1 & H2 & ->).
  apply modify_span_Some in H1 as (sp & Hs & -> & ->).
  unfold emit in H2. simplify_eq. by exists sp.
Qed.

(** The state a span operation leaves: the span store is [h], the rest is
    as in [st]. *)
Lemma with_spans_id st : with_spans (spans st) st = st.
Proof. by destruct st. Qed.

Lemma set_mtx_unlock sp : mtx sp = false → set_mtx false sp = sp.
Proof. destruct sp; simpl; by intros ->. Qed.

Lemma orphan_run s st sp :
  spans st !! s = Some sp → mtx sp = false →
  orphan s st
  = Some (tt, with_spans (<[s := orphan_span sp]> (spans st)) st,
          orphan_events s sp).
Proof.
  intros Hs Hm. unfold orphan, orphan_span, orphan_events, orphan_fires.
  rewrite (bind_run _ _ _ _ _ _ (Lock_run _ _ _ Hs Hm)).
  set (st1 := with_spans _ st).
  assert (H1 : spans st1 !! s = Some (set_mtx true sp))
    by (subst st1; simpl; apply lookup_insert_eq).
  rewrite (bind_run _ _ _ _ _ _ (get_span_run _ _ _ H1)). simpl.
  destruct (negb (done sp) && negb (orphaned sp)) eqn:Hf.
  - rewrite (bind_run _ (λ _, Unlock s) st1 tt
               (with_spans (<[s := set_orphaned true (set_mtx true sp)]> (spans st1)) st1)
               [EvOrphanedSpan (scope_r (f sp)) s]).
    2:{ by rewrite (bind_run _ _ _ _ _ _ (modify_span_run _ _ _ _ H1)). }
    erewrite Unlock_run by (simpl; apply lookup_insert_eq).
    subst st1. unfold with_spans. simpl. rewrite !insert_insert_eq.
    do 4 f_equal. destruct sp; simpl in *; by subst.
  - rewrite (bind_run _ (λ _, Unlock s) st1 tt st1 []) by done.
    erewrite Unlock_run by exact H1.
    subst st1. unfold with_spans. simpl. rewrite !insert_insert_eq.
    do 4 f_equal. destruct sp; simpl in *; by subst.
Qed.

Lemma alter_lookup {A} (g : A → A) (h : gmap nat A) s x :
  h !! s = Some x → alter g s h = <[s := g x]> h.
Proof.
  intros Hs. rewrite <- (insert_id h s x Hs) at 1. apply alter_insert_eq.
Qed.

Lemma unlocked_insert h s sp :
  unlocked h → mtx sp = false → unlocked (<[s := sp]> h).
Proof.
  intros Hu Hm s' sp'. rewrite lookup_insert.
  case_decide; [by intros [= <-]|]. apply Hu.
Qed.

Lemma unlocked_alter h s g :
  unlocked h → (∀ sp, mtx (g sp) = mtx sp) → unlocked (alter g s h).
Proof.
  intros Hu Hg s' sp'. rewrite lookup_alter. case_decide as Heq.
  - intros H. apply fmap_Some in H as (x & Hx & ->).
    rewrite Hg. eauto.
  - apply Hu.
Qed.

Lemma orphan_span_mtx sp : mtx (orphan_span sp) = mtx sp.
Proof. unfold orphan_span. by destruct (orphan_fires sp). Qed.

Lemma orphan_all_lookup_is_Some l h c :
  is_Some (orphan_all l h !! c) ↔ is_Some (h !! c).
Proof.
  revert h. induction l as [|x l IH]; intros h; simpl; [done|].
  rewrite IH. rewrite lookup_alter. case_decide; subst; [|done].
  by rewrite fmap_is_Some.
Qed.

Lemma unlocked_orphan_all l h : unlocked h → unlocked (orphan_all l h).
Proof.
  revert h. induction l as [|x l IH]; intros h Hu; simpl; [done|].
  apply IH, unlocked_alter; [done|]. apply orphan_span_mtx.
Qed.

Lemma orphan_run' s st sp :
  spans st !! s = Some sp → mtx sp = false →
  orphan s st
  = Some (tt, with_spans (alter orphan_span s (spans st)) st,
          orphan_events s sp).
Proof.
  intros Hs Hm. rewrite (alter_lookup _ _ _ _ Hs). by apply orphan_run.
Qed.

Lemma for_each_orphan_run l st :
  unlocked (spans st) →
  (∀ c, c ∈ l → is_Some (spans st !! c)) →
  for_each l orphan st
  = Some (tt, with_spans (orphan_all l (spans st)) st,
          orphan_all_events l (spans st)).
Proof.
  revert st. induction l as [|c l IH]; intros st Hu Hl; simpl.
  - unfold ret. by rewrite with_spans_id.
  - destruct (Hl c) as [sp Hc]; [by left|].
    rewrite (bind_run _ _ _ _ _ _ (orphan_run' _ _ _ Hc (Hu _ _ Hc))).
    rewrite IH; simpl.
    + by rewrite Hc.
    + apply unlocked_alter; [done|]. apply orphan_span_mtx.
    + intros c' Hc'. rewrite lookup_alter. case_decide; subst.
      * rewrite Hc. by eexists.
      * apply Hl. by right.
Qed.

Lemma removeChild_run s c st sp :
  spans st !! s = Some sp → mtx sp = false →
  removeChild s c st
  = Some (tt, with_spans (alter (remove_child c) s (spans st)) st,
          [EvLock s; EvUnlock s]).
Proof.
  intros Hs Hm. unfold removeChild. rewrite (alter_lookup _ _ _ _ Hs).
  rewrite (bind_run _ _ _ _ _ _ (Lock_run _ _ _ Hs Hm)).
  set (st1 := with_spans _ st).
  assert (H1 : spans st1 !! s = Some (set_mtx true sp))
    by (subst st1; simpl; apply lookup_insert_eq).
  rewrite (bind_run _ _ _ _ _ _ (modify_span_run _ _ _ _ H1)).
  erewrite Unlock_run by (simpl; apply lookup_insert_eq).
  subst st1. unfold with_spans. simpl. rewrite !insert_insert_eq.
  do 4 f_equal. destruct sp; simpl in *; by subst.
Qed.

Lemma addChild_run s c st sp :
  spans st !! s = Some sp → unlocked (spans st) →
  (done sp = true → is_Some (spans st !! c)) →
  addChild s c st
  = Some (tt, with_spans (addChild_spans s c (spans st)) st,
          addChild_events s c (spans st)).
Proof.
  intros Hs Hu Hc. unfold addChild, addChild_spans, addChild_events.
  rewrite Hs. rewrite (alter_lookup _ _ _ _ Hs).
  rewrite (bind_run _ _ _ _ _ _ (Lock_run _ _ _ Hs (Hu _ _ Hs))).
  set (st1 := with_spans _ st).
  assert (H1 : spans st1 !! s = Some (set_mtx true sp))
    by (subst st1; simpl; apply lookup_insert_eq).
  rewrite (bind_run _ _ _ _ _ _ (modify_span_run _ _ _ _ H1)).
  set (st2 := with_spans _ st1).
  assert (H2 : spans st2 !! s
               = Some (set_children (spanBag_Add c (children sp))
                         (set_mtx true sp)))
    by (subst st2; simpl; apply lookup_insert_eq).
  rewrite (bind_run _ _ _ _ _ _ (get_span_run _ _ _ H2)). simpl.
  rewrite (bind_run _ _ _ _ _ _ (Unlock_run _ _ _ H2)).
  set (st3 := with_spans _ st2).
  assert (Hst3 : st3 = with_spans (<[s := add_child c sp]> (spans st)) st).
  { pose proof (Hu _ _ Hs) as Hm.
    subst st3 st2 st1. unfold with_spans. simpl. rewrite !insert_insert_eq.
    do 2 f_equal. clear Hs. destruct sp; simpl in *.
    unfold add_child, set_children. simpl. by subst. }
  rewrite Hst3. clear st1 st2 st3 H1 H2 Hst3.
  destruct (done sp) eqn:Hd.
  - assert (Hc' : is_Some (<[s := add_child c sp]> (spans st) !! c)).
    { rewrite lookup_insert_is_Some. destruct (decide (s = c)); [by left|].
      right. split; [done|]. by apply Hc. }
    destruct Hc' as [csp Hcsp]. rewrite Hcsp.
    erewrite orphan_run'; [| exact Hcsp |].
    + done.
    + apply (unlocked_insert _ s (add_child c sp) Hu) in Hcsp; [done|].
      simpl. apply (Hu _ _ Hs).
  - unfold ret. by rewrite app_nil_r.
Qed.

Lemma emit_bind_run {B} e (k : unit → M B) st :
  bind (emit e) k st
  = match k tt st with
    | Some (b, st2, e2) => Some (b, st2, e :: e2)
    | None => None
    end.
Proof. done. Qed.

Lemma ret_bind_run {A B} (a : A) (k : A → M B) st :
  bind (ret a) k st = k a st.
Proof. unfold bind, ret. by destruct (k a st) as [[[??]?]|]. Qed.

Lemma exit_run cl errptr rec finish st sp :
  spans st !! cl_s cl = Some sp →
  unlocked (spans st) →
  (∀ c, c ∈ children sp → is_Some (spans st !! c)) →
  (∀ p, parent sp = Some p → is_Some (spans st !! p)) →
  exit cl errptr rec finish st
  = Some (exit_outcome rec,
          with_spans (exit_spans (cl_s cl) sp (spans st)) st,
          exit_events cl sp errptr rec finish (spans st)).
Proof.
  intros Hs Hu Hch Hpar. pose proof (Hu _ _ Hs) as Hm.
  unfold exit, exit_events, exit_spans.
  set (s := cl_s cl) in *.
  rewrite (bind_run _ _ _ _ _ _ (get_span_run _ _ _ Hs)).
  rewrite emit_bind_run.
  rewrite (bind_run _ _ _ _ _ _ (Lock_run _ _ _ Hs Hm)).
  set (st1 := with_spans _ st).
  assert (H1 : spans st1 !! s = Some (set_mtx true sp))
    by (subst st1; simpl; apply lookup_insert_eq).
  rewrite (bind_run _ _ _ _ _ _ (modify_span_run _ _ _ _ H1)).
  set (st2 := with_spans _ st1).
  assert (H2 : spans st2 !! s = Some (set_done true (set_mtx true sp)))
    by (subst st2; simpl; apply lookup_insert_eq).
  rewrite (bind_run _ _ _ _ _ _ (get_span_run _ _ _ H2)).
  rewrite (bind_run _ _ _ _ _ _ (Unlock_run _ _ _ H2)).
  set (st3 := with_spans _ st2).
  assert (Hst3 : st3 = with_spans (<[s := set_done true sp]> (spans st)) st).
  { subst st3 st2 st1. unfold with_spans. simpl. rewrite !insert_insert_eq.
    do 2 f_equal. clear Hs. destruct sp; simpl in *. by subst. }
  rewrite Hst3. clear st1 st2 st3 H1 H2 Hst3. simpl orphaned. simpl children.
  set (h1 := <[s := set_done true sp]> (spans st)).
  assert (Hu1 : unlocked h1) by (by apply unlocked_insert).
  assert (Hdom1 : ∀ c, is_Some (spans st !! c) → is_Some (h1 !! c)).
  { intros c Hc. subst h1. rewrite lookup_insert_is_Some.
    destruct (decide (s = c)); [by left|by right]. }
  rewrite (bind_run _ _ _ _ _ _
             (for_each_orphan_run (spanBag_Iterate (children sp))
                (with_spans h1 st) Hu1
                (λ c Hc, Hdom1 c (Hch c (proj1 (elem_of_elements _ _) Hc))))).
  simpl spans. unfold with_spans at 1. simpl traces. simpl arrays.
  set (h2 := orphan_all _ h1).
  assert (Hu2 : unlocked h2) by (by apply unlocked_orphan_all).
  unfold exit_registry_events, exit_observer_events, exit_outcome.
  fold s. fold (exit_err errptr). fold (exit_panicked rec).
  destruct (parent sp) as [p|] eqn:Hp.
  - destruct (proj2 (orphan_all_lookup_is_Some
                       (spanBag_Iterate (children sp)) h1 p)
                (Hdom1 p (Hpar p eq_refl))) as [psp Hpsp].
    fold h2 in Hpsp.
    assert (Hrm : removeChild p s {| spans := h2; traces := traces st; arrays := arrays st |}
            = Some (tt, with_spans (alter (remove_child s) p h2) st,
                    [EvLock p; EvUnlock p])).
    { erewrite removeChild_run; [done|exact Hpsp|by eapply Hu2]. }
    rewrite (bind_run _ (λ _, match cl_observer cl with Some _ => _ | None => _ end ;;; _)
               _ tt (with_spans (alter (remove_child s) p h2) st)
               ([EvLock p; EvUnlock p] ++
                (if orphaned sp then [EvOrphanEnd (scope_r (f sp)) s] else []))).
    2:{ rewrite (bind_run _ _ _ _ _ _ Hrm). by destruct (orphaned sp). }
    destruct (cl_observer cl) as [o|], rec as [v|]; simpl;
      by rewrite <- ?app_assoc.
  - rewrite emit_bind_run.
    destruct (cl_observer cl) as [o|], rec as [v|]; simpl; done.
Qed.

(** ** The traced code, symbolically executed *)

Lemma traced_bind_run {A B} (m : Traced.T A) (k : A → Traced.T B)
    st a st1 t1 :
  m st = Some (a, st1, t1) →
  Traced.bind m k st =
    match k a st1 with
    | Some (b, st2, t2) => Some (b, st2, t1 ++ t2)
    | None => None
    end.
Proof. unfold Traced.bind. by intros ->. Qed.

Lemma traced_call_run {A} (m : M A) st a st1 e1 :
  m st = Some (a, st1, e1) →
  Traced.call m st = Some (a, st1, Call <$> e1).
Proof. unfold Traced.call. by intros ->. Qed.

Lemma traced_read_run s fld st sp :
  spans st !! s = Some sp →
  Traced.read s fld st = Some (get_field fld sp, st, [Access s fld Reads]).
Proof. unfold Traced.read. by intros ->. Qed.

Lemma traced_update_run s fld g st sp :
  spans st !! s = Some sp →
  Traced.update s fld g st
  = Some (tt,
          with_spans (<[s := set_field fld (g (get_field fld sp)) sp]>
                        (spans st)) st,
          [Access s fld Writes]).
Proof. unfold Traced.update. by intros ->. Qed.

Lemma traced_orphan_run s st sp :
  spans st !! s = Some sp → mtx sp = false →
  Traced.orphan s st
  = Some (tt, with_spans (<[s := orphan_span sp]> (spans st)) st,
          orphan_trace s sp).
Proof.
  intros Hs Hm. unfold Traced.orphan, orphan_span, orphan_trace, orphan_fires.
  rewrite (traced_bind_run _ _ _ _ _ _
             (traced_call_run _ _ _ _ _ (Lock_run _ _ _ Hs Hm))).
  set (st1 := with_spans _ st).
  assert (H1 : spans st1 !! s = Some (set_mtx true sp))
    by (subst st1; simpl; apply lookup_insert_eq).
  rewrite (traced_bind_run _ _ _ _ _ _ (traced_read_run s Fdone _ _ H1)).
  cbn [get_field]. change (done (set_mtx true sp)) with (done sp).
  assert (Hfin : ∀ sp1, mtx sp1 = true → set_mtx false sp1 = set_mtx false sp →
            ∀ sp2, sp2 = set_mtx false sp1 →
            with_spans (<[s := set_mtx false sp1]> (<[s := sp1]> (spans st1)))
              st1
            = with_spans (<[s := sp2]> (spans st)) st).
  { intros sp1 _ _ sp2 ->. subst st1. unfold with_spans. simpl.
    by rewrite !insert_insert_eq. }
  destruct (done sp) eqn:Hd.
  - rewrite (traced_bind_run _ _ st1 false st1 []) by done.
    rewrite (traced_bind_run _ _ st1 tt st1 []) by done.
    rewrite (traced_call_run _ _ _ _ _ (Unlock_run _ _ _ H1)).
    subst st1. unfold with_spans. simpl. rewrite !insert_insert_eq.
    do 4 f_equal. destruct sp; simpl in *; by subst.
  - rewrite (traced_bind_run _ _ st1 (negb (orphaned sp)) st1
               [Access s Forphaned Reads]).
    2:{ by rewrite (traced_bind_run _ _ _ _ _ _
                      (traced_read_run s Forphaned _ _ H1)). }
    destruct (orphaned sp) eqn:Ho; cbn [negb andb].
    + rewrite (traced_bind_run _ _ st1 tt st1 []) by done.
      rewrite (traced_call_run _ _ _ _ _ (Unlock_run _ _ _ H1)).
      subst st1. unfold with_spans. simpl. rewrite !insert_insert_eq.
      do 4 f_equal. destruct sp; simpl in *; by subst.
    + set (st2 := with_spans
                    (<[s := set_orphaned true (set_mtx true sp)]> (spans st1))
                    st1).
      assert (H2 : spans st2 !! s
                   = Some (set_orphaned true (set_mtx true sp)))
        by (subst st2; simpl; apply lookup_insert_eq).
      rewrite (traced_bind_run _ _ st1 tt st2
                 [Access s Forphaned Writes;
                  Call (EvOrphanedSpan (scope_r (f sp)) s)]).
      2:{ unfold Traced.write.
          rewrite (traced_bind_run _ _ _ _ _ _
                     (traced_update_run s Forphaned _ _ _ H1)).
          cbn [set_field get_field]. fold st2.
          rewrite (traced_bind_run _ _ _ _ _ _
                     (traced_call_run _ _ _ _ _ (get_span_run _ _ _ H2))).
          done. }
      rewrite (traced_call_run _ _ _ _ _ (Unlock_run _ _ _ H2)).
      subst st2 st1. unfold with_spans. simpl. rewrite !insert_insert_eq.
      do 4 f_equal. destruct sp; simpl in *; by subst.
Qed.

Lemma traced_orphan_run' s st sp :
  spans st !! s = Some sp → mtx sp = false →
  Traced.orphan s st
  = Some (tt, with_spans (alter orphan_span s (spans st)) st,
          orphan_trace s sp).
Proof.
  intros Hs Hm. rewrite (alter_lookup _ _ _ _ Hs). by apply traced_orphan_run.
Qed.

Lemma traced_for_each_orphan_run l st :
  unlocked (spans st) →
  (∀ c, c ∈ l → is_Some (spans st !! c)) →
  Traced.for_each l Traced.orphan st
  = Some (tt, with_spans (orphan_all l (spans st)) st,
          orphan_all_trace l (spans st)).
Proof.
  revert st. induction l as [|c l IH]; intros st Hu Hl; simpl.
  - unfold Traced.ret. by rewrite with_spans_id.
  - destruct (Hl c) as [sp Hc]; [by left|].
    rewrite (traced_bind_run _ _ _ _ _ _
               (traced_orphan_run' _ _ _ Hc (Hu _ _ Hc))).
    rewrite IH; simpl.
    + by rewrite Hc.
    + apply unlocked_alter; [done|]. apply orphan_span_mtx.
    + intros c' Hc'. rewrite lookup_alter. case_decide; subst.
      * rewrite Hc. by eexists.
      * apply Hl. by right.
Qed.

Lemma traced_removeChild_run s c st sp :
  spans st !! s = Some sp → mtx sp = false →
  Traced.removeChild s c st
  = Some (tt, with_spans (alter (remove_child c) s (spans st)) st,
          [Call (EvLock s); Access s Fchildren Writes; Call (EvUnlock s)]).
Proof.
  intros Hs Hm. unfold Traced.removeChild. rewrite (alter_lookup _ _ _ _ Hs).
  rewrite (traced_bind_run _ _ _ _ _ _
             (traced_call_run _ _ _ _ _ (Lock_run _ _ _ Hs Hm))).
  set (st1 := with_spans _ st).
  assert (H1 : spans st1 !! s = Some (set_mtx true sp))
    by (subst st1; simpl; apply lookup_insert_eq).
  rewrite (traced_bind_run _ _ _ _ _ _
             (traced_update_run s Fchildren _ _ _ H1)).
  cbn [set_field get_field].
  set (st2 := with_spans _ st1).
  assert (H2 : spans st2 !! s
               = Some (set_children
                         (spanBag_Remove c (children (set_mtx true sp)))
                         (set_mtx true sp)))
    by (subst st2; simpl; apply lookup_insert_eq).
  rewrite (traced_call_run _ _ _ _ _ (Unlock_run _ _ _ H2)).
  subst st2 st1. unfold with_spans. simpl. rewrite !insert_insert_eq.
  do 4 f_equal. destruct sp; simpl in *; by subst.
Qed.

(** [addChild] up to the unlock: the insertion, then the read of [done],
    both under the lock. *)
Lemma traced_addChild_unfold s c st sp :
  spans st !! s = Some sp → mtx sp = false →
  Traced.addChild s c st
  = match (if done sp then Traced.orphan c else Traced.ret tt)
            (with_spans (<[s := add_child c sp]> (spans st)) st) with
    | Some (u, st', t) =>
        Some (u, st',
              [Call (EvLock s); Access s Fchildren Writes;
               Access s Fdone Reads; Call (EvUnlock s)] ++ t)
    | None => None
    end.
Proof.
  intros Hs Hm. unfold Traced.addChild.
  rewrite (traced_bind_run _ _ _ _ _ _
             (traced_call_run _ _ _ _ _ (Lock_run _ _ _ Hs Hm))).
  set (st1 := with_spans _ st).
  assert (H1 : spans st1 !! s = Some (set_mtx true sp))
    by (subst st1; simpl; apply lookup_insert_eq).
  rewrite (traced_bind_run _ _ _ _ _ _
             (traced_update_run s Fchildren _ _ _ H1)).
  cbn [set_field get_field].
  set (st2 := with_spans _ st1).
  assert (H2 : spans st2 !! s
               = Some (set_children (spanBag_Add c (children (set_mtx true sp)))
                         (set_mtx true sp)))
    by (subst st2; simpl; apply lookup_insert_eq).
  rewrite (traced_bind_run _ _ _ _ _ _ (traced_read_run s Fdone _ _ H2)).
  cbn [get_field].
  rewrite (traced_bind_run _ _ _ _ _ _
             (traced_call_run _ _ _ _ _ (Unlock_run _ _ _ H2))).
  set (st3 := with_spans _ st2).
  assert (Hst3 : st3 = with_spans (<[s := add_child c sp]> (spans st)) st).
  { subst st3 st2 st1. unfold with_spans. simpl. rewrite !insert_insert_eq.
    do 2 f_equal. clear Hs. destruct sp; simpl in *.
    unfold add_child, set_children. simpl. by subst. }
  rewrite Hst3.
  change (done (set_children _ (set_mtx true sp))) with (done sp).
  by destruct ((if done sp then Traced.orphan c else Traced.ret tt) _)
    as [[[??]?]|].
Qed.

Lemma traced_emit_bind_run {B} e (k : unit → Traced.T B) st :
  Traced.bind (Traced.call (emit e)) k st
  = match k tt st with
    | Some (b, st2, t2) => Some (b, st2, Call e :: t2)
    | None => None
    end.
Proof. done. Qed.

Lemma traced_exit_run cl errptr rec finish st sp :
  spans st !! cl_s cl = Some sp →
  unlocked (spans st) →
  (∀ c, c ∈ children sp → is_Some (spans st !! c)) →
  (∀ p, parent sp = Some p → is_Some (spans st !! p)) →
  Traced.exit cl errptr rec finish st
  = Some (exit_outcome rec,
          with_spans (exit_spans (cl_s cl) sp (spans st)) st,
          exit_trace cl sp errptr rec finish (spans st)).
Proof.
  intros Hs Hu Hch Hpar. pose proof (Hu _ _ Hs) as Hm.
  unfold Traced.exit, exit_trace, exit_spans.
  set (s := cl_s cl) in *.
  rewrite (traced_bind_run _ _ _ _ _ _
             (traced_call_run _ _ _ _ _ (get_span_run _ _ _ Hs))).
  rewrite traced_emit_bind_run.
  rewrite (traced_bind_run _ _ _ _ _ _
             (traced_call_run _ _ _ _ _ (Lock_run _ _ _ Hs Hm))).
  set (st1 := with_spans _ st).
  assert (H1 : spans st1 !! s = Some (set_mtx true sp))
    by (subst st1; simpl; apply lookup_insert_eq).
  unfold Traced.write.
  rewrite (traced_bind_run _ _ _ _ _ _ (traced_update_run s Fdone _ _ _ H1)).
  cbn [set_field get_field].
  set (st2 := with_spans _ st1).
  assert (H2 : spans st2 !! s = Some (set_done true (set_mtx true sp)))
    by (subst st2; simpl; apply lookup_insert_eq).
  rewrite (traced_bind_run _ _ _ _ _ _ (traced_read_run s Forphaned _ _ H2)).
  rewrite (traced_bind_run _ _ _ _ _ _ (traced_read_run s Fchildren _ _ H2)).
  cbn [get_field].
  rewrite (traced_bind_run _ _ _ _ _ _
             (traced_call_run _ _ _ _ _ (Unlock_run _ _ _ H2))).
  set (st3 := with_spans _ st2).
  assert (Hst3 : st3 = with_spans (<[s := set_done true sp]> (spans st)) st).
  { subst st3 st2 st1. unfold with_spans. simpl. rewrite !insert_insert_eq.
    do 2 f_equal. clear Hs. destruct sp; simpl in *. by subst. }
  rewrite Hst3. clear st1 st2 st3 H1 H2 Hst3. simpl orphaned. simpl children.
  set (h1 := <[s := set_done true sp]> (spans st)).
  assert (Hu1 : unlocked h1) by (by apply unlocked_insert).
  assert (Hdom1 : ∀ c, is_Some (spans st !! c) → is_Some (h1 !! c)).
  { intros c Hc. subst h1. rewrite lookup_insert_is_Some.
    destruct (decide (s = c)); [by left|by right]. }
  rewrite (traced_bind_run _ _ _ _ _ _
             (traced_for_each_orphan_run (spanBag_Iterate (children sp))
                (with_spans h1 st) Hu1
                (λ c Hc, Hdom1 c (Hch c (proj1 (elem_of_elements _ _) Hc))))).
  simpl spans. unfold with_spans at 1. simpl traces. simpl arrays.
  set (h2 := orphan_all _ h1).
  assert (Hu2 : unlocked h2) by (by apply unlocked_orphan_all).
  unfold exit_observer_events, exit_outcome.
  fold s. fold (exit_err errptr). fold (exit_panicked rec).
  destruct (parent sp) as [p|] eqn:Hp.
  - destruct (proj2 (orphan_all_lookup_is_Some
                       (spanBag_Iterate (children sp)) h1 p)
                (Hdom1 p (Hpar p eq_refl))) as [psp Hpsp].
    fold h2 in Hpsp.
    assert (Hrm : Traced.removeChild p s
                    {| spans := h2; traces := traces st; arrays := arrays st |}
            = Some (tt, with_spans (alter (remove_child s) p h2) st,
                    [Call (EvLock p); Access p Fchildren Writes;
                     Call (EvUnlock p)])).
    { erewrite traced_removeChild_run; [done|exact Hpsp|by eapply Hu2]. }
    rewrite (traced_bind_run _
               (λ _, Traced.bind
                       match cl_observer cl with Some _ => _ | None => _ end _)
               _ tt (with_spans (alter (remove_child s) p h2) st)
               ([Call (EvLock p); Access p Fchildren Writes;
                 Call (EvUnlock p)] ++
                (if orphaned sp
                 then [Call (EvOrphanEnd (scope_r (f sp)) s)] else []))).
    2:{ rewrite (traced_bind_run _ _ _ _ _ _ Hrm). by destruct (orphaned sp). }
    destruct (cl_observer cl) as [o|], rec as [v|]; simpl;
      by rewrite <- ?app_assoc.
  - rewrite traced_emit_bind_run.
    destruct (cl_observer cl) as [o|], rec as [v|]; simpl; done.
Qed.

(** ** The calls of a trace *)

Lemma calls_of_app t1 t2 : calls_of (t1 ++ t2) = calls_of t1 ++ calls_of t2.
Proof. apply omap_app. Qed.

Lemma calls_of_Call evs : calls_of (Call <$> evs) = evs.
Proof. induction evs as [|e evs IH]; [done|]. simpl. by f_equal. Qed.

Lemma calls_of_orphan_trace s sp :
  calls_of (orphan_trace s sp) = orphan_events s sp.
Proof.
  unfold orphan_trace, orphan_events, orphan_fires.
  by destruct (done sp), (orphaned sp).
Qed.

Lemma calls_of_orphan_all_trace l h :
  calls_of (orphan_all_trace l h) = orphan_all_events l h.
Proof.
  revert h. induction l as [|c l IH]; intros h; [done|].
  cbn [orphan_all_trace orphan_all_events]. rewrite calls_of_app, IH.
  f_equal. destruct (h !! c); [apply calls_of_orphan_trace|done].
Qed.

Lemma calls_of_exit_trace cl sp errptr rec finish h :
  calls_of (exit_trace cl sp errptr rec finish h)
  = exit_events cl sp errptr rec finish h.
Proof.
  unfold exit_trace, exit_events, exit_registry_events.
  rewrite !calls_of_app, calls_of_orphan_all_trace, calls_of_Call.
  f_equal. f_equal. f_equal; [|by destruct rec].
  destruct (parent sp); [|done]. by destruct (orphaned sp).
Qed.

(** ** Accesses and locks *)

Lemma locked_accesses_app h t1 t2 :
  locked_accesses h (t1 ++ t2)
  = match locked_accesses h t1 with
    | Some h1 => locked_accesses h1 t2
    | None => None
    end.
Proof.
  revert h. induction t1 as [|e t1 IH]; intros h; [done|].
  destruct e as [[]|x fld k]; simpl; try apply IH.
  - destruct h; [done|apply IH].
  - case_decide; [apply IH|done].
  - case_decide; [apply IH|done].
Qed.

Lemma locked_accesses_orphan_trace s sp :
  locked_accesses None (orphan_trace s sp) = Some None.
Proof.
  unfold orphan_trace. destruct (done sp), (orphaned sp); simpl;
    by rewrite ?decide_True.
Qed.

Lemma locked_accesses_orphan_all_trace l h :
  locked_accesses None (orphan_all_trace l h) = Some None.
Proof.
  revert h. induction l as [|c l IH]; intros h; [done|].
  cbn [orphan_all_trace]. rewrite locked_accesses_app.
  destruct (h !! c); [by rewrite locked_accesses_orphan_trace|apply IH].
Qed.

Lemma locked_accesses_calls h evs :
  (∀ s, EvLock s ∉ evs) → (∀ s, EvUnlock s ∉ evs) →
  locked_accesses h (Call <$> evs) = Some h.
Proof.
  induction evs as [|e evs IH]; intros HL HU; [done|].
  assert (locked_accesses h (Call <$> evs) = Some h) as IH'.
  { apply IH; intros s Hin; [eapply HL|eapply HU]; by right. }
  destruct e; simpl; try done.
  - destruct (HL s). by left.
  - destruct (HU s). by left.
Qed.

Lemma locked_accesses_exit_trace cl sp errptr rec finish h :
  locked_accesses None (exit_trace cl sp errptr rec finish h) = Some None.
Proof.
  unfold exit_trace.
  assert (Hp : locked_accesses None
            [Call (EvFuncEnd (f sp) (exit_err errptr) (exit_panicked rec)
                     (Time_Sub finish (start sp)));
             Call (EvLock (cl_s cl)); Access (cl_s cl) Fdone Writes;
             Access (cl_s cl) Forphaned Reads;
             Access (cl_s cl) Fchildren Reads;
             Call (EvUnlock (cl_s cl))] = Some None)
    by (simpl; by rewrite !decide_True).
  rewrite locked_accesses_app, Hp.
  rewrite locked_accesses_app, locked_accesses_orphan_all_trace.
  rewrite locked_accesses_app.
  assert (Hreg : locked_accesses None
            match parent sp with
            | Some p =>
                [Call (EvLock p); Access p Fchildren Writes;
                 Call (EvUnlock p)] ++
                (if orphaned sp
                 then [Call (EvOrphanEnd (scope_r (f sp)) (cl_s cl))]
                 else [])
            | None => [Call (EvRootSpanEnd (scope_r (f sp)) (cl_s cl))]
            end = Some None).
  { destruct (parent sp); [|done]. simpl. rewrite !decide_True by done.
    by destruct (orphaned sp). }
  rewrite Hreg, locked_accesses_app.
  unfold exit_observer_events. destruct (cl_observer cl), rec; done.
Qed.

Lemma elem_of_calls_of e tr : e ∈ calls_of tr ↔ Call e ∈ tr.
Proof.
  unfold calls_of. rewrite list_elem_of_omap. split.
  - intros ([c|x fld k] & Hin & Heq); [|done]. by injection Heq as ->.
  - intros Hin. by exists (Call e).
Qed.

Section preserves.
Context (R : State → list Event → State → Prop) `{!Compositional R}.

Lemma preserves_ret {A} (a : A) : preserves R (ret a).
Proof. intros st a' st' evs [= _ <- <-]. apply comp_refl. Qed.

Lemma preserves_crash {A} : preserves R (@crash A).
Proof. intros st a st' evs [=]. Qed.

Lemma preserves_lift {A} (o : option A) : preserves R (lift o).
Proof. destruct o; [apply preserves_ret|apply preserves_crash]. Qed.

Lemma preserves_bind {A B} (m : M A) (k : A → M B) :
  preserves R m → (∀ a, preserves R (k a)) → preserves R (bind m k).
Proof.
  intros Hm Hk st b st' evs H.
  apply bind_Some in H as (a & st1 & e1 & e2 & H1 & H2 & ->).
  eapply comp_trans; [by eapply Hm|by eapply Hk].
Qed.

Lemma preserves_for_each {A} (l : list A) (body : A → M unit) :
  (∀ x, preserves R (body x)) → preserves R (for_each l body).
Proof.
  intros Hb. induction l as [|x l IH]; simpl.
  - apply preserves_ret.
  - apply preserves_bind; [apply Hb|by intros _].
Qed.

(** A computation that logs nothing and leaves the store as it is. *)
Lemma preserves_pure {A} (m : M A) :
  (∀ st a st' evs, m st = Some (a, st', evs) → st' = st ∧ evs = []) →
  preserves R m.
Proof.
  intros Hm st a st' evs H. destruct (Hm _ _ _ _ H) as [-> ->].
  apply comp_refl.
Qed.

Lemma preserves_get_span s : preserves R (get_span s).
Proof.
  apply preserves_pure. intros st a st' evs H.
  by apply get_span_Some in H as (_ & -> & ->).
Qed.

Lemma preserves_read_slice sl : preserves R (read_slice sl).
Proof.
  apply preserves_pure. intros st a st' evs. unfold read_slice.
  destruct (slice_view st sl); [|done]. by intros [= _ <- <-].
Qed.

Lemma preserves_getObserver t : preserves R (getObserver t).
Proof.
  apply preserves_pure. intros st a st' evs. unfold getObserver.
  destruct t as [t|]; [|done]. destruct (traces st !! t); [|done].
  by intros [= _ <- <-].
Qed.

Lemma preserves_load_spans l : preserves R (load_spans l).
Proof.
  induction l as [|c l IH]; simpl; [apply preserves_ret|].
  apply preserves_bind; [apply preserves_get_span|intros sp].
  apply preserves_bind; [apply IH|intros r]. apply preserves_ret.
Qed.

Lemma preserves_void {A} (m : M A) : preserves R m → preserves R (void m).
Proof.
  intros Hm. apply preserves_bind; [done|intros _; apply preserves_ret].
Qed.
End preserves.

Create HintDb pres discriminated.
#[export] Hint Resolve preserves_ret preserves_crash preserves_lift
  preserves_get_span preserves_read_slice preserves_getObserver
  preserves_load_spans : pres.

(** One step of a proof that a computation keeps a relation: peel a bind,
    split a branch, or close a primitive from the hint database. *)
Ltac pres_step :=
  cbv zeta;
  lazymatch goal with
  | |- preserves _ (bind _ _) => apply preserves_bind; [apply _| |intros ?]
  | |- preserves _ (void _) => apply preserves_void; [apply _|]
  | |- preserves _ (for_each _ _) =>
      apply preserves_for_each; [apply _|intros ?]
  | |- preserves _ (match ?x with _ => _ end) => destruct x
  | |- _ => solve [eauto with pres typeclass_instances]
  end.

Ltac pres_auto := repeat pres_step.

(** ** The life of the two flags and of the orphan notification *)

Lemma same_identity_refl sp : same_identity sp sp.
Proof. by repeat split. Qed.

Lemma same_identity_trans sp1 sp2 sp3 :
  same_identity sp1 sp2 → same_identity sp2 sp3 → same_identity sp1 sp3.
Proof. unfold same_identity. intuition congruence. Qed.

Lemma flags_le_refl h : flags_le h h.
Proof. intros s sp Hs. exists sp. auto using same_identity_refl. Qed.

Lemma flags_le_trans h1 h2 h3 :
  flags_le h1 h2 → flags_le h2 h3 → flags_le h1 h3.
Proof.
  intros H12 H23 s sp Hs.
  destruct (H12 _ _ Hs) as (sp2 & Hs2 & Hi2 & Hd2 & Ho2).
  destruct (H23 _ _ Hs2) as (sp3 & Hs3 & Hi3 & Hd3 & Ho3).
  exists sp3. split; [done|]. split; [by eapply same_identity_trans|]. auto.
Qed.

Lemma orphan_fires_false sp :
  orphan_fires sp = false ↔ done sp = true ∨ orphaned sp = true.
Proof.
  unfold orphan_fires. destruct (done sp), (orphaned sp); simpl;
    intuition congruence.
Qed.

Lemma settled_mono h h' s : flags_le h h' → settled h s → settled h' s.
Proof.
  intros Hle (sp & Hs & Hf).
  destruct (Hle _ _ Hs) as (sp' & Hs' & _ & Hd & Ho).
  exists sp'. split; [done|]. apply orphan_fires_false.
  apply orphan_fires_false in Hf. tauto.
Qed.

Lemma notifications_app s e1 e2 :
  notifications s (e1 ++ e2) = notifications s e1 + notifications s e2.
Proof. unfold notifications. by rewrite List.filter_app, length_app. Qed.

(** A step that logs nothing and keeps or raises the flags. *)
Lemma life_silent s st st' :
  flags_le (spans st) (spans st') → life s st [] st'.
Proof.
  intros Hle. split; [done|]. unfold notifications. simpl.
  repeat split; [lia|discriminate].
Qed.

Global Instance life_compositional s : Compositional (life s).
Proof.
  split.
  - intros st. apply life_silent, flags_le_refl.
  - intros st1 e1 st2 e2 st3 (Hle1 & Hq1 & Hn1 & Hs1) (Hle2 & Hq2 & Hn2 & Hs2).
    unfold life. rewrite notifications_app.
    split; [by eapply flags_le_trans|]. split; [|split].
    + intros Hq. rewrite (Hq1 Hq). rewrite Hq2; [done|].
      by eapply settled_mono.
    + destruct (notifications s e1) as [|[|n]] eqn:E1; [lia| |lia].
      rewrite Hq2; [lia|]. by apply Hs1.
    + intros Hn. destruct (notifications s e1) as [|[|n]] eqn:E1.
      * apply Hs2. lia.
      * eapply settled_mono; [done|]. by apply Hs1.
      * lia.
Qed.

Lemma life_emit s e : is_orphanedSpan s e = false → preserves (life s) (emit e).
Proof.
  intros He st a st' evs [= _ <- <-]. split; [apply flags_le_refl|].
  unfold notifications. simpl. rewrite He. simpl.
  repeat split; [lia|discriminate].
Qed.

Lemma life_modify_span s s' g :
  (∀ sp, same_identity sp (g sp)) →
  (∀ sp, done sp = true → done (g sp) = true) →
  (∀ sp, orphaned sp = true → orphaned (g sp) = true) →
  preserves (life s) (modify_span s' g).
Proof.
  intros Hi Hd Ho st a st' evs H.
  apply modify_span_Some in H as (sp & Hs & -> & ->).
  apply life_silent. simpl. intros x xp Hx.
  destruct (decide (x = s')) as [->|Hne].
  - rewrite lookup_insert_eq. exists (g sp). simplify_eq. auto.
  - rewrite lookup_insert_ne by done. exists xp.
    auto using same_identity_refl.
Qed.

Lemma life_new_span s sp : preserves (life s) (new_span sp).
Proof.
  intros st a st' evs [= _ <- <-]. apply life_silent. simpl.
  intros x xp Hx. exists xp. split; [|auto using same_identity_refl].
  rewrite lookup_insert_ne; [done|]. intros <-.
  apply (is_fresh (dom (spans st))). apply elem_of_dom. by eexists.
Qed.

Lemma life_same_spans {A} s (m : M A) :
  (∀ st a st' evs, m st = Some (a, st', evs) →
     spans st' = spans st ∧ notifications s evs = 0) →
  preserves (life s) m.
Proof.
  intros Hm st a st' evs H. destruct (Hm _ _ _ _ H) as [Hsp Hn].
  split; [rewrite Hsp; apply flags_le_refl|]. rewrite Hn.
  repeat split; [lia|discriminate].
Qed.

Lemma life_write_array s a i xs : preserves (life s) (write_array a i xs).
Proof.
  apply life_same_spans. intros st u st' evs. unfold write_array.
  destruct (arrays st !! a); [|done]. by intros [= _ <- <-].
Qed.

Lemma life_append rt s sl xs : preserves (life s) (append rt sl xs).
Proof.
  apply life_same_spans. intros st u st' evs. unfold append.
  destruct (append_in rt (arrays st) sl xs) as [[sl' h']|]; [|done].
  by intros [= _ <- <-].
Qed.

Lemma life_NewTrace s i : preserves (life s) (NewTrace i).
Proof.
  apply life_same_spans. intros st u st' evs. by intros [= _ <- <-].
Qed.

Lemma setObserver_spans t o st : spans (setObserver t o st) = spans st.
Proof. unfold setObserver. by destruct (traces st !! t). Qed.

Lemma life_observeTrace rt s r t : preserves (life s) (observeTrace rt r t).
Proof.
  apply life_same_spans. intros st u st' evs H. unfold observeTrace in H.
  rewrite emit_bind_run in H.
  destruct (traces st !! t) as [tr|]; [|done].
  destruct (traceWatcher rt r (trace_id tr));
    simplify_eq; by rewrite ?setObserver_spans.
Qed.

Lemma orphan_Some s st u st' evs :
  orphan s st = Some (u, st', evs) →
  ∃ sp, spans st !! s = Some sp ∧ mtx sp = false ∧
        st' = with_spans (<[s := orphan_span sp]> (spans st)) st ∧
        evs = orphan_events s sp.
Proof.
  intros H.
  assert (∃ sp, spans st !! s = Some sp ∧ mtx sp = false) as (sp & Hs & Hm).
  { unfold orphan in H. apply bind_Some in H as (? & ? & ? & ? & HL & _).
    apply Lock_Some in HL as (sp & ? & ? & _). eauto. }
  rewrite (orphan_run _ _ _ Hs Hm) in H. simplify_eq. eauto.
Qed.

Lemma notifications_orphan_events s s' sp :
  notifications s (orphan_events s' sp)
  = if decide (s' = s) then (if orphan_fires sp then 1 else 0) else 0.
Proof.
  unfold notifications, orphan_events.
  destruct (orphan_fires sp); simpl; [|by case_decide].
  case_decide.
  - by rewrite bool_decide_eq_true_2.
  - by rewrite bool_decide_eq_false_2.
Qed.

Lemma orphan_span_fires sp : orphan_fires (orphan_span sp) = false.
Proof.
  unfold orphan_span. destruct (orphan_fires sp) eqn:Hf; [|done].
  unfold orphan_fires. simpl. by rewrite andb_false_r.
Qed.

Lemma orphan_span_done sp : done (orphan_span sp) = done sp.
Proof. unfold orphan_span. by destruct (orphan_fires sp). Qed.

Lemma orphan_span_orphaned sp :
  orphaned sp = true → orphaned (orphan_span sp) = true.
Proof. unfold orphan_span. by destruct (orphan_fires sp). Qed.

Lemma orphan_span_identity sp : same_identity sp (orphan_span sp).
Proof.
  unfold orphan_span. destruct (orphan_fires sp); by repeat split.
Qed.

Lemma life_orphan s s' : preserves (life s) (orphan s').
Proof.
  intros st u st' evs H.
  apply orphan_Some in H as (sp & Hs & Hm & -> & ->).
  unfold life. rewrite notifications_orphan_events. simpl.
  split; [|split; [|split]].
  - intros x xp Hx. destruct (decide (x = s')) as [->|Hne].
    + rewrite lookup_insert_eq. exists (orphan_span sp). simplify_eq.
      rewrite orphan_span_done.
      auto using orphan_span_orphaned, orphan_span_identity.
    + rewrite lookup_insert_ne by done. exists xp.
      auto using same_identity_refl.
  - intros (sp0 & Hs0 & Hf). case_decide; [|done]. simplify_eq.
    by rewrite Hf.
  - case_decide; [|lia]. destruct (orphan_fires sp); lia.
  - case_decide; [|done]. subst. intros _. exists (orphan_span sp).
    rewrite lookup_insert_eq. split; [done|]. apply orphan_span_fires.
Qed.

#[export] Hint Resolve life_orphan life_new_span life_write_array life_append
  life_NewTrace life_observeTrace : pres.
#[export] Hint Extern 1 (preserves (life _) (emit _)) =>
  apply life_emit; reflexivity : pres.
#[export] Hint Extern 1 (preserves (life _) (modify_span _ _)) =>
  apply life_modify_span; intros []; simpl;
  unfold same_identity; simpl; intuition congruence : pres.

Lemma life_Lock s s' : preserves (life s) (Lock s').
Proof. unfold Lock. pres_auto. Qed.

Lemma life_Unlock s s' : preserves (life s) (Unlock s').
Proof. unfold Unlock. pres_auto. Qed.

#[export] Hint Resolve life_Lock life_Unlock : pres.

Lemma life_addChild s p c : preserves (life s) (addChild p c).
Proof. unfold addChild. pres_auto. Qed.

Lemma life_removeChild s p c : preserves (life s) (removeChild p c).
Proof. unfold removeChild. pres_auto. Qed.

#[export] Hint Resolve life_addChild life_removeChild : pres.

Lemma life_resolve rt s ctx fn_ id_ trace_ :
  preserves (life s) (resolve rt ctx fn_ id_ trace_).
Proof. unfold resolve. pres_auto. Qed.

#[export] Hint Resolve life_resolve : pres.

Lemma life_newSpan rt s ctx fn_ args_ id_ trace_ now :
  preserves (life s) (newSpan rt ctx fn_ args_ id_ trace_ now).
Proof. unfold newSpan. pres_auto. Qed.

Lemma life_exit s cl errptr rec finish :
  preserves (life s) (exit cl errptr rec finish).
Proof. unfold exit. pres_auto. Qed.

Lemma life_Annotations rt s s' : preserves (life s) (Annotations rt s').
Proof. unfold Annotations. pres_auto. Qed.

Lemma life_Annotate rt s s' name val :
  preserves (life s) (Annotate rt s' name val).
Proof. unfold Annotate. pres_auto. Qed.

Lemma life_Children s s' : preserves (life s) (Children s').
Proof. unfold Children. pres_auto. Qed.

Lemma life_Orphaned s s' : preserves (life s) (Orphaned s').
Proof. unfold Orphaned. pres_auto. Qed.

#[export] Hint Resolve life_newSpan life_exit life_Annotations life_Annotate
  life_Children life_Orphaned : pres.

Lemma life_run_op rt s op : preserves (life s) (run_op rt op).
Proof.
  destruct op; simpl; try (apply preserves_void; [apply _|]); eauto with pres;
    unfold Duration, Start, Span_Value, String_, Args, Id, Func_, Trace_,
      Parent; pres_auto.
Qed.

Lemma life_run_ops rt s ops : preserves (life s) (run_ops rt ops).
Proof.
  induction ops as [|op ops IH]; simpl; [apply preserves_ret, _|].
  apply preserves_bind; [apply _|apply life_run_op|by intros _].
Qed.

Lemma scan_app allow h e1 e2 :
  scan allow h (e1 ++ e2)
  = match scan allow h e1 with
    | Some h1 => scan allow h1 e2
    | None => None
    end.
Proof.
  revert h. induction e1 as [|e e1 IH]; intros h; simpl; [done|].
  destruct e, h; simpl; try apply IH; try done;
    repeat case_decide; try done; try apply IH;
    match goal with |- context [allow ?s ?e] => destruct (allow s e) end;
    try done; apply IH.
Qed.

Section disc.
Variable allow : ptr → Event → bool.

Lemma disc_ret {A} h (a : A) : disc allow h h (ret a).
Proof. by intros st a' st' evs [= _ _ <-]. Qed.

Lemma disc_crash {A} h h' : disc allow h h' (@crash A).
Proof. by intros st a st' evs [=]. Qed.

Lemma disc_lift {A} h (o : option A) : disc allow h h (lift o).
Proof. destruct o; [apply disc_ret|apply disc_crash]. Qed.

Lemma disc_bind {A B} h h1 h2 (m : M A) (k : A → M B) :
  disc allow h h1 m → (∀ a, disc allow h1 h2 (k a)) →
  disc allow h h2 (bind m k).
Proof.
  intros Hm Hk st b st' evs H.
  apply bind_Some in H as (a & st1 & e1 & e2 & H1 & H2 & ->).
  rewrite scan_app, (Hm _ _ _ _ H1). by eapply Hk.
Qed.

Lemma disc_for_each {A} h (l : list A) (body : A → M unit) :
  (∀ x, disc allow h h (body x)) → disc allow h h (for_each l body).
Proof.
  intros Hb. induction l as [|x l IH]; simpl; [apply disc_ret|].
  eapply disc_bind; [apply Hb|by intros _].
Qed.

Lemma disc_void {A} h h' (m : M A) :
  disc allow h h' m → disc allow h h' (void m).
Proof. intros Hm. eapply disc_bind; [done|intros _; apply disc_ret]. Qed.

(** A computation that logs nothing leaves the lock state as it is. *)
Lemma disc_silent {A} h (m : M A) :
  (∀ st a st' evs, m st = Some (a, st', evs) → evs = []) →
  disc allow h h m.
Proof. intros Hm st a st' evs H. by rewrite (Hm _ _ _ _ H). Qed.

Lemma disc_get_span h s : disc allow h h (get_span s).
Proof.
  apply disc_silent. intros st a st' evs H.
  by apply get_span_Some in H as (_ & _ & ->).
Qed.

Lemma disc_modify_span h s g : disc allow h h (modify_span s g).
Proof.
  apply disc_silent. intros st a st' evs H.
  by apply modify_span_Some in H as (? & _ & _ & ->).
Qed.

Lemma disc_new_span h sp : disc allow h h (new_span sp).
Proof. apply disc_silent. by intros st a st' evs [= _ _ <-]. Qed.

Lemma disc_read_slice h sl : disc allow h h (read_slice sl).
Proof.
  apply disc_silent. intros st a st' evs. unfold read_slice.
  destruct (slice_view st sl); [|done]. by intros [= _ _ <-].
Qed.

Lemma disc_write_array h a i xs : disc allow h h (write_array a i xs).
Proof.
  apply disc_silent. intros st u st' evs. unfold write_array.
  destruct (arrays st !! a); [|done]. by intros [= _ _ <-].
Qed.

Lemma disc_append rt h sl xs : disc allow h h (append rt sl xs).
Proof.
  apply disc_silent. intros st u st' evs. unfold append.
  destruct (append_in rt (arrays st) sl xs) as [[sl' h']|]; [|done].
  by intros [= _ _ <-].
Qed.

Lemma disc_NewTrace h i : disc allow h h (NewTrace i).
Proof. apply disc_silent. by intros st a st' evs [= _ _ <-]. Qed.

Lemma disc_getObserver h t : disc allow h h (getObserver t).
Proof.
  apply disc_silent. intros st a st' evs. unfold getObserver.
  destruct t as [t|]; [|done]. destruct (traces st !! t); [|done].
  by intros [= _ _ <-].
Qed.

Lemma disc_load_spans h l : disc allow h h (load_spans l).
Proof.
  induction l as [|c l IH]; simpl; [apply disc_ret|].
  eapply disc_bind; [apply disc_get_span|intros sp].
  eapply disc_bind; [apply IH|intros r]. apply disc_ret.
Qed.

(** A call made while no lock is held. *)
Lemma disc_emit_free e :
  is_lock_event e = false → disc allow None None (emit e).
Proof. intros He st a st' evs [= _ _ <-]. by destruct e. Qed.

(** A call made while the lock of [s] is held. *)
Lemma disc_emit_held s e :
  is_lock_event e = false → allow s e = true →
  disc allow (Some s) (Some s) (emit e).
Proof.
  intros He Ha st a st' evs [= _ _ <-]. destruct e; simpl in *;
    try done; by rewrite Ha.
Qed.

Lemma disc_emit_lock s : disc allow None (Some s) (emit (EvLock s)).
Proof. by intros st a st' evs [= _ _ <-]. Qed.

Lemma disc_emit_unlock s : disc allow (Some s) None (emit (EvUnlock s)).
Proof.
  intros st a st' evs [= _ _ <-]. simpl. by rewrite decide_True.
Qed.

Lemma disc_Lock s : disc allow None (Some s) (Lock s).
Proof.
  unfold Lock. eapply disc_bind; [apply disc_get_span|intros sp].
  destruct (mtx sp); [apply disc_crash|].
  eapply disc_bind; [apply disc_modify_span|intros _].
  apply disc_emit_lock.
Qed.

Lemma disc_Unlock s : disc allow (Some s) None (Unlock s).
Proof.
  unfold Unlock. eapply disc_bind; [apply disc_modify_span|intros _].
  apply disc_emit_unlock.
Qed.

Lemma disc_observeTrace rt r t :
  disc allow None None (observeTrace rt r t).
Proof.
  intros st u st' evs H. unfold observeTrace in H.
  rewrite emit_bind_run in H.
  destruct (traces st !! t) as [tr|]; [|done].
  destruct (traceWatcher rt r (trace_id tr)); by simplify_eq.
Qed.
End disc.

Create HintDb disc discriminated.
#[export] Hint Resolve disc_ret disc_crash disc_lift disc_get_span
  disc_modify_span disc_new_span disc_read_slice disc_write_array
  disc_append disc_NewTrace disc_getObserver disc_load_spans disc_Lock
  disc_Unlock disc_observeTrace : disc.

Ltac disc_step :=
  cbv zeta;
  lazymatch goal with
  | |- disc _ _ _ (bind _ _) => eapply disc_bind; [|intros ?]
  | |- disc _ _ _ (void _) => apply disc_void
  | |- disc _ _ _ (for_each _ _) => apply disc_for_each; intros ?
  | |- disc _ None _ (emit _) => apply disc_emit_free; reflexivity
  | |- disc _ (Some _) _ (emit _) =>
      apply disc_emit_held; [reflexivity|]; simpl;
      by rewrite bool_decide_eq_true_2
  | |- disc _ _ _ (match ?x with _ => _ end) => destruct x
  | |- _ => solve [eauto with disc]
  end.

Ltac disc_auto := repeat disc_step.

Lemma disc_orphan s : code_disc (orphan s).
Proof. unfold orphan. disc_auto. Qed.

#[export] Hint Resolve disc_orphan : disc.

Lemma disc_addChild s c : code_disc (addChild s c).
Proof. unfold addChild. disc_auto. Qed.

Lemma disc_removeChild s c : code_disc (removeChild s c).
Proof. unfold removeChild. disc_auto. Qed.

#[export] Hint Resolve disc_addChild disc_removeChild : disc.

Lemma disc_resolve rt ctx fn_ id_ trace_ :
  code_disc (resolve rt ctx fn_ id_ trace_).
Proof. unfold resolve. disc_auto. Qed.

#[export] Hint Resolve disc_resolve : disc.

Lemma disc_newSpan rt ctx fn_ args_ id_ trace_ now :
  code_disc (newSpan rt ctx fn_ args_ id_ trace_ now).
Proof. unfold newSpan. disc_auto. Qed.

Lemma disc_exit cl errptr rec finish : code_disc (exit cl errptr rec finish).
Proof. unfold exit. disc_auto. Qed.

Lemma disc_Annotations rt s : code_disc (Annotations rt s).
Proof. unfold Annotations. disc_auto. Qed.

Lemma disc_Annotate rt s name val : code_disc (Annotate rt s name val).
Proof. unfold Annotate. disc_auto. Qed.

Lemma disc_Children s : code_disc (Children s).
Proof. unfold Children. disc_auto. Qed.

Lemma disc_Orphaned s : code_disc (Orphaned s).
Proof. unfold Orphaned. disc_auto. Qed.

#[export] Hint Resolve disc_newSpan disc_exit disc_Annotations disc_Annotate
  disc_Children disc_Orphaned : disc.

Lemma disc_run_op rt op : code_disc (run_op rt op).
Proof.
  destruct op; simpl; try (apply disc_void); eauto with disc;
    unfold Duration, Start, Span_Value, String_, Args, Id, Func_, Trace_,
      Parent; disc_auto.
Qed.

Global Instance local_compositional p : Compositional (local p).
Proof.
  split.
  - by intros st.
  - intros st1 e1 st2 e2 st3 (Ht1 & Ha1 & He1) (Ht2 & Ha2 & He2).
    split; [congruence|]. split; [congruence|]. by apply Forall_app.
Qed.

Lemma local_emit p e : p e = true → preserves (local p) (emit e).
Proof.
  intros He st a st' evs [= _ <- <-]. repeat split. by constructor.
Qed.

Lemma local_modify_span p s g : preserves (local p) (modify_span s g).
Proof.
  intros st a st' evs H.
  by apply modify_span_Some in H as (sp & Hs & -> & ->).
Qed.

Lemma local_new_span p sp : preserves (local p) (new_span sp).
Proof. by intros st a st' evs [= _ <- <-]. Qed.

#[export] Hint Resolve local_modify_span local_new_span : pres.
#[export] Hint Extern 1 (preserves (local _) (emit _)) =>
  apply local_emit; reflexivity : pres.

Lemma local_orphan_loop l :
  preserves (local is_orphan_call) (for_each l orphan).
Proof. unfold orphan, Lock, Unlock. pres_auto. Qed.

Lemma local_addChild s c : preserves (local is_link_call) (addChild s c).
Proof. unfold addChild, orphan, Lock, Unlock. pres_auto. Qed.

(** ** newSpan, taken apart *)

Lemma observeTrace_NewTrace {A} rt r i (k : nat → A) st :
  bind (NewTrace i) (λ t, observeTrace rt r t ;;; ret (k t)) st
  = let t := fresh (dom (traces st)) in
    Some (k t,
          with_traces (<[t := {| trace_id := i;
                                 observer := traceWatcher rt r i |}]>
                         (traces st)) st,
          [EvObserveTrace r t]).
Proof.
  unfold bind, NewTrace, observeTrace, emit, ret. cbn.
  rewrite lookup_insert_eq. cbn.
  destruct (traceWatcher rt r i) as [o|]; cbn; [|done].
  unfold setObserver. cbn. rewrite lookup_insert_eq. unfold with_traces. cbn.
  by rewrite insert_insert_eq.
Qed.

Lemma resolve_Some rt ctx fn_ id_ trace_ st r st1 e1 :
  resolve rt ctx fn_ id_ trace_ st = Some (r, st1, e1) →
  r.1.2 = (match trace_ with Some _ => None | None => ctx_span ctx end) ∧
  spans st1 = spans st ∧ arrays st1 = arrays st ∧
  (∀ p, ctx_span ctx = Some p → trace_ = None → is_Some (spans st !! p)) ∧
  match trace_ with
  | Some t => r.2 = Some t ∧ st1 = st ∧ e1 = []
  | None =>
      match ctx_span ctx with
      | Some p =>
          ∃ psp, spans st !! p = Some psp ∧ r.2 = trace psp ∧
                 st1 = st ∧ e1 = []
      | None =>
          let t := fresh (dom (traces st)) in
          r.2 = Some t ∧ e1 = [EvObserveTrace (scope_r fn_) t] ∧
          traces st1
          = <[t := {| trace_id := id_;
                      observer := traceWatcher rt (scope_r fn_) id_ |}]>
              (traces st)
      end
  end.
Proof.
  assert (Hmint : ∀ c,
    bind (NewTrace id_) (λ t, observeTrace rt (scope_r fn_) t ;;;
                               ret (c, @None nat, Some t)) st
    = Some (r, st1, e1) →
    r.1.2 = None ∧ spans st1 = spans st ∧ arrays st1 = arrays st ∧
    r.2 = Some (fresh (dom (traces st))) ∧
    e1 = [EvObserveTrace (scope_r fn_) (fresh (dom (traces st)))] ∧
    traces st1
    = <[fresh (dom (traces st)) :=
          {| trace_id := id_;
             observer := traceWatcher rt (scope_r fn_) id_ |}]> (traces st)).
  { intros c H.
    rewrite (observeTrace_NewTrace rt (scope_r fn_) id_
               (λ t, (c, @None nat, Some t))) in H.
    simpl in H. injection H as <- <- <-. by repeat split. }
  unfold resolve, ctx_span. intros H.
  destruct ctx as [|value| |p inner]; simpl in *.
  - done.
  - rewrite ret_bind_run in H.
    destruct (value spanKey) as [|[p|]|], trace_ as [t|]; simpl in *;
      try (unfold ret in H; simplify_eq; by repeat split);
      try (apply Hmint in H as (? & ? & ? & ? & ? & ?); by repeat split).
    apply bind_Some in H as (psp & st2 & e2 & e3 & H1 & H2 & ->).
    apply get_span_Some in H1 as (Hp & -> & ->). unfold ret in H2.
    simplify_eq. simpl. repeat split; eauto. intros ? [= <-]. eauto.
  - rewrite ret_bind_run in H. destruct trace_ as [t|]; simpl in *.
    + unfold ret in H. simplify_eq. by repeat split.
    + apply Hmint in H as (? & ? & ? & ? & ? & ?). by repeat split.
  - apply bind_Some in H as (psp & st2 & e2 & e3 & H1 & H2 & ->).
    apply get_span_Some in H1 as (Hp & -> & ->).
    destruct trace_ as [t|]; unfold ret in H2; simplify_eq; simpl.
    + by repeat split.
    + repeat split; eauto. intros ? [= <-]. eauto.
Qed.

Lemma getObserver_Some t st o st' evs :
  getObserver t st = Some (o, st', evs) →
  ∃ a tr, t = Some a ∧ traces st !! a = Some tr ∧ o = observer tr ∧
          st' = st ∧ evs = [].
Proof.
  unfold getObserver. destruct t as [a|]; [|done].
  destruct (traces st !! a) as [tr|] eqn:Ha; [|done].
  intros [= <- <- <-]. by exists a, tr.
Qed.

Lemma newSpan_Some rt ctx fn_ args_ id_ trace_ now st s cl st' evs :
  newSpan rt ctx fn_ args_ id_ trace_ now st = Some ((s, cl), st', evs) →
  ∃ r st1 e1 e3 t tr,
    resolve rt ctx fn_ id_ trace_ st = Some (r, st1, e1) ∧
    r.2 = Some t ∧ traces st1 !! t = Some tr ∧
    s = fresh (dom (spans st1)) ∧
    cl = {| cl_s := s; cl_observer := observer tr |} ∧
    traces st' = traces st1 ∧ arrays st' = arrays st1 ∧
    Forall (λ e, is_link_call e = true) e3 ∧
    flags_le (<[s := span_literal fn_ args_ id_ now r]> (spans st1))
      (spans st') ∧
    match r.1.2 with
    | Some p =>
        psp <- get_span p ;;
        emit (EvFuncStart fn_ (Some (f psp))) ;;; addChild p s
    | None =>
        emit (EvFuncStart fn_ None) ;;; emit (EvRootSpanStart (scope_r fn_) s)
    end (with_spans (<[s := span_literal fn_ args_ id_ now r]> (spans st1))
           st1)
    = Some (tt, st', e3) ∧
    evs = e1 ++ e3 ++
          match observer tr with
          | Some o => [EvObserverStart o s]
          | None => []
          end.
Proof.
  unfold newSpan. intros H.
  apply bind_Some in H as (r & st1 & e1 & e2 & Hr & H & ->).
  apply bind_Some in H as (obs & st2 & e2' & e3 & Ho & H & ->).
  apply getObserver_Some in Ho as (t & tr & Ht & Htr & -> & -> & ->).
  apply bind_Some in H as (s0 & st3 & e4 & e5 & Hn & H & ->).
  unfold new_span in Hn. simplify_eq. simpl in H.
  apply bind_Some in H as ([] & st4 & e6 & e7 & Hl & H & ->).
  apply bind_Some in H as ([] & st5 & e8 & e9 & Hobs & H & ->).
  set (s0 := fresh (dom (spans st1))) in *.
  assert (st5 = st4 ∧ e8 = match observer tr with
                           | Some o => [EvObserverStart o s0]
                           | None => []
                           end) as [-> ->].
  { destruct (observer tr); unfold emit, ret in Hobs;
      by injection Hobs as <- <-. }
  unfold ret in H. injection H as <- <- <- <-.
  assert (Hlife : preserves (life s0)
    (match r.1.2 with
     | Some p =>
         psp <- get_span p ;;
         emit (EvFuncStart fn_ (Some (f psp))) ;;; addChild p s0
     | None =>
         emit (EvFuncStart fn_ None) ;;;
         emit (EvRootSpanStart (scope_r fn_) s0)
     end)) by pres_auto.
  assert (Hloc : preserves (local is_link_call)
    (match r.1.2 with
     | Some p =>
         psp <- get_span p ;;
         emit (EvFuncStart fn_ (Some (f psp))) ;;; addChild p s0
     | None =>
         emit (EvFuncStart fn_ None) ;;;
         emit (EvRootSpanStart (scope_r fn_) s0)
     end)) by (pose proof local_addChild; pres_auto).
  destruct (Hlife _ _ _ _ Hl) as (Hle & _).
  destruct (Hloc _ _ _ _ Hl) as (Htr' & Har' & Hev).
  exists r, st1, e1, e6, t, tr. simpl in *.
  repeat split; try done. by rewrite app_nil_r.
Qed.

(** ** newSpan: parent and trace *)

(** C1, as the code has it.  The context's span (the context itself when
    it is a span, else the span it carries under the reserved key) becomes
    the parent only when no explicit trace was supplied; with an explicit
    trace the new span has no parent, whatever the context.  The trace is
    the explicit one if supplied, else the trace of the parent when there
    is one, else a new Trace, which is reported to the registry by
    [observeTrace] (and in no other case is a trace reported). *)
Theorem newSpan_parent_trace rt ctx fn_ args_ id_ trace_ now st s cl st' evs :
  newSpan rt ctx fn_ args_ id_ trace_ now st = Some ((s, cl), st', evs) →
  spans st !! s = None ∧
  ∃ sp, spans st' !! s = Some sp ∧
    parent sp = (match trace_ with
                 | Some _ => None
                 | None => ctx_span ctx
                 end) ∧
    match trace_ with
    | Some t =>
        trace sp = Some t ∧ traces st' = traces st ∧
        ∀ r t', EvObserveTrace r t' ∉ evs
    | None =>
        match ctx_span ctx with
        | Some p =>
            (∃ psp, spans st !! p = Some psp ∧ trace sp = trace psp) ∧
            traces st' = traces st ∧
            ∀ r t', EvObserveTrace r t' ∉ evs
        | None =>
            ∃ t rest,
              trace sp = Some t ∧ traces st !! t = None ∧
              traces st'
              = <[t := {| trace_id := id_;
                          observer := traceWatcher rt (scope_r fn_) id_ |}]>
                  (traces st) ∧
              evs = EvObserveTrace (scope_r fn_) t :: rest ∧
              ∀ r t', EvObserveTrace r t' ∉ rest
        end
    end.
Proof.
  intros H.
  apply newSpan_Some in H
    as (r & st1 & e1 & e3 & t & tr & Hr & Ht & Htr & -> & -> & Htr' & Har'
        & Hev & Hle & _ & ->).
  apply resolve_Some in Hr as (Hpar & Hsp & Har & Halloc & Hcase).
  set (s := fresh (dom (spans st1))) in *.
  assert (Hfresh : spans st !! s = None).
  { rewrite <- Hsp. apply not_elem_of_dom, is_fresh. }
  split; [done|].
  destruct (Hle s _ (lookup_insert_eq _ _ _))
    as (sp & Hs & (_ & _ & _ & Htrace & Hparent & _) & _).
  simpl in Htrace, Hparent.
  assert (Hno3 : ∀ r0 t', EvObserveTrace r0 t' ∉ e3).
  { intros r0 t' Hin. rewrite Forall_forall in Hev. by apply Hev in Hin. }
  assert (Hnoo : ∀ r0 t',
             EvObserveTrace r0 t' ∉
               match observer tr with
               | Some o => [EvObserverStart o s]
               | None => []
               end).
  { intros r0 t'. destruct (observer tr); [|apply not_elem_of_nil].
    rewrite list_elem_of_singleton. discriminate. }
  exists sp. split; [done|]. split; [congruence|].
  destruct trace_ as [t0|].
  - destruct Hcase as (Hr2 & -> & ->). split; [congruence|]. split; [done|].
    intros r0 t'. simpl. intros [?|?]%elem_of_app;
      [by eapply Hno3|by eapply Hnoo].
  - destruct (ctx_span ctx) as [p|].
    + destruct Hcase as (psp & Hp & Hr2 & -> & ->).
      split; [exists psp; split; [done|congruence]|]. split; [done|].
      intros r0 t'. simpl. intros [?|?]%elem_of_app;
      [by eapply Hno3|by eapply Hnoo].
    + destruct Hcase as (Hr2 & -> & Htraces).
      exists (fresh (dom (traces st))), (e3 ++ match observer tr with
                                               | Some o => [EvObserverStart o s]
                                               | None => []
                                               end).
      split; [congruence|]. split; [apply not_elem_of_dom, is_fresh|].
      split; [congruence|]. split; [done|].
      intros r0 t'. intros [?|?]%elem_of_app;
        [by eapply Hno3|by eapply Hnoo].
Qed.

(** C1, as stated, fails: a context that is a span and an explicit trace
    give a span without parent. *)
Lemma explicit_trace_drops_parent :
  SpanFromCtx (CtxSpan 0 background) = Some (Some 0) ∧
  ∃ cl st' evs,
    newSpan rt0 (CtxSpan 0 background) fn0 [] 11%Z (Some 0) 101%Z st_root
    = Some ((1, cl), st', evs) ∧
    parent <$> spans st' !! 1 = Some None.
Proof.
  split; [reflexivity|]. eexists _, _, _. split; vm_compute; reflexivity.
Qed.

Lemma newSpan_parent_trace_witness :
  ∃ cl st' evs,
    newSpan rt0 (CtxSpan 0 background) fn0 [] 11%Z None 101%Z st_root
    = Some ((1, cl), st', evs) ∧
    ∃ sp, spans st' !! 1 = Some sp ∧ parent sp = Some 0 ∧
          trace sp = Some 0.
Proof.
  eexists _, _, _. split; [vm_compute; reflexivity|].
  edestruct (newSpan_parent_trace rt0 (CtxSpan 0 background) fn0 [] 11%Z None
               101%Z st_root 1)
    as (_ & sp & Hs & Hp & (psp & Hpsp & Htr) & _);
    [vm_compute; reflexivity|].
  exists sp. split; [exact Hs|]. split; [exact Hp|].
  rewrite Htr. vm_compute in Hpsp. by simplify_eq.
Defined.

(** ** The finish closure *)

Lemma flags_le_alter h s g :
  (∀ sp, same_identity sp (g sp)) →
  (∀ sp, done sp = true → done (g sp) = true) →
  (∀ sp, orphaned sp = true → orphaned (g sp) = true) →
  flags_le h (alter g s h).
Proof.
  intros Hi Hd Ho x xp Hx. rewrite lookup_alter. case_decide; subst.
  - rewrite Hx. exists (g xp). auto.
  - exists xp. auto using same_identity_refl.
Qed.

Lemma flags_le_orphan_all l h : flags_le h (orphan_all l h).
Proof.
  revert h. induction l as [|c l IH]; intros h; simpl.
  - apply flags_le_refl.
  - eapply flags_le_trans; [|apply IH].
    apply flags_le_alter; intros sp;
      [apply orphan_span_identity|by rewrite orphan_span_done
      |apply orphan_span_orphaned].
Qed.

Lemma flags_le_remove_child h s p : flags_le h (alter (remove_child s) p h).
Proof. apply flags_le_alter; intros []; simpl; by repeat split. Qed.

Lemma settled_orphan_all l h c :
  c ∈ l → is_Some (h !! c) → settled (orphan_all l h) c.
Proof.
  revert h. induction l as [|x l IH]; intros h Hc [sp Hsp]; simpl.
  - by apply elem_of_nil in Hc.
  - destruct (decide (c = x)) as [->|Hne].
    + eapply settled_mono; [apply flags_le_orphan_all|].
      exists (orphan_span sp). rewrite lookup_alter_eq, Hsp.
      split; [done|apply orphan_span_fires].
    + apply IH.
      * apply elem_of_cons in Hc as [?|?]; [done|done].
      * rewrite lookup_alter_ne by done. by exists sp.
Qed.

Lemma orphan_all_events_lock l h c :
  c ∈ l → (∀ x, x ∈ l → is_Some (h !! x)) →
  EvLock c ∈ orphan_all_events l h.
Proof.
  revert h. induction l as [|x l IH]; intros h Hc Hl; simpl.
  - by apply elem_of_nil in Hc.
  - apply elem_of_app. apply elem_of_cons in Hc as [->|Hc].
    + left. destruct (Hl x) as [sp ->]; [by left|]. by left.
    + right. apply IH; [done|]. intros y Hy. rewrite lookup_alter.
      case_decide; subst; [|apply Hl; by right].
      apply fmap_is_Some, Hl. by right.
Qed.

Lemma orphan_all_events_calls l h :
  Forall (λ e, is_orphan_call e = true) (orphan_all_events l h).
Proof.
  revert h. induction l as [|c l IH]; intros h; simpl; [constructor|].
  apply Forall_app. split; [|apply IH].
  destruct (h !! c) as [sp|]; [|constructor].
  unfold orphan_events. destruct (orphan_fires sp); by repeat constructor.
Qed.

(** The finish closure on a span of a well-formed store: the loop over the
    snapshot and the whole call, symbolically executed. *)
Lemma exit_steps cl errptr rec finish st sp :
  spans st !! cl_s cl = Some sp → wf st →
  let s := cl_s cl in
  let snapshot := spanBag_Iterate (children sp) in
  let h1 := <[s := set_done true sp]> (spans st) in
  for_each snapshot orphan (with_spans h1 st)
  = Some (tt, with_spans (orphan_all snapshot h1) st,
          orphan_all_events snapshot h1) ∧
  exit cl errptr rec finish st
  = Some (exit_outcome rec, with_spans (exit_spans s sp (spans st)) st,
          exit_events cl sp errptr rec finish (spans st)) ∧
  (∀ c, c ∈ children sp → EvLock c ∈ orphan_all_events snapshot h1) ∧
  (∀ c, is_Some (spans st !! c) → is_Some (h1 !! c)).
Proof.
  intros Hs [Hu Hcl] s snapshot h1. destruct (Hcl _ _ Hs) as (Hch & Hpar & _).
  assert (Hu1 : unlocked h1)
    by (apply unlocked_insert; [done|apply (Hu _ _ Hs)]).
  assert (Hdom1 : ∀ c, is_Some (spans st !! c) → is_Some (h1 !! c)).
  { intros c Hc. subst h1. rewrite lookup_insert_is_Some.
    destruct (decide (s = c)); [by left|by right]. }
  assert (Hsnap : ∀ c, c ∈ snapshot → is_Some (h1 !! c)).
  { intros c Hc. apply Hdom1, Hch. by apply elem_of_elements. }
  split; [exact (for_each_orphan_run snapshot (with_spans h1 st) Hu1 Hsnap)|].
  split; [exact (exit_run cl errptr rec finish st sp Hs Hu Hch Hpar)|].
  split; [|done].
  intros c Hc. apply orphan_all_events_lock; [|done].
  by apply elem_of_elements.
Qed.

(** C2.  The finish closure, on a span of a well-formed store, returns,
    and its trace is: the end of the call-site descriptor; the lock of the
    span, and under it, in this order, the write of [done], the read of
    [orphaned] into the local and the read of the child set for the
    snapshot; the release of the lock; then [orphan] on every child of
    that snapshot (from the store in which the span is done), so every
    child is afterwards done or orphaned; for a span with a parent the
    removal from the child set of the parent, under the lock of the
    parent, and [orphanEnd] exactly when [orphaned] was set when it was
    read; for a span without parent [rootSpanEnd] instead.  Every access
    to a guarded field lies between the lock and the unlock of its span,
    and the call-level closure returns the same result and store with the
    calls of this trace as its log. *)
Theorem exit_protocol cl errptr rec finish st sp :
  spans st !! cl_s cl = Some sp → wf st →
  let s := cl_s cl in
  let snapshot := spanBag_Iterate (children sp) in
  ∃ st_mid tr_orphan st' tr,
    Traced.for_each snapshot Traced.orphan
      (with_spans (<[s := set_done true sp]> (spans st)) st)
    = Some (tt, st_mid, tr_orphan) ∧
    tr = [Call (EvFuncEnd (f sp) (exit_err errptr) (exit_panicked rec)
                  (Time_Sub finish (start sp)));
          Call (EvLock s); Access s Fdone Writes; Access s Forphaned Reads;
          Access s Fchildren Reads; Call (EvUnlock s)] ++
         tr_orphan ++
         match parent sp with
         | Some p =>
             [Call (EvLock p); Access p Fchildren Writes;
              Call (EvUnlock p)] ++
             (if orphaned sp then [Call (EvOrphanEnd (scope_r (f sp)) s)]
              else [])
         | None => [Call (EvRootSpanEnd (scope_r (f sp)) s)]
         end ++
         (Call <$> exit_observer_events cl errptr rec finish) ++
         match rec with Some v => [Call (EvPanic v)] | None => [] end ∧
    Traced.exit cl errptr rec finish st = Some (exit_outcome rec, st', tr) ∧
    exit cl errptr rec finish st
    = Some (exit_outcome rec, st', calls_of tr) ∧
    locked_accesses None tr = Some None ∧
    (∀ c, c ∈ snapshot ↔ c ∈ children sp) ∧
    (∀ c, c ∈ children sp →
          Call (EvLock c) ∈ tr_orphan ∧ settled (spans st') c) ∧
    locked_accesses None tr_orphan = Some None ∧
    Forall (λ e, is_orphan_call e = true) (calls_of tr_orphan) ∧
    (∃ sp', spans st' !! s = Some sp' ∧ done sp' = true) ∧
    match parent sp with
    | Some p =>
        spans st' = alter (remove_child s) p (spans st_mid) ∧
        ∃ psp', spans st' !! p = Some psp' ∧ s ∉ children psp'
    | None => st' = st_mid
    end.
Proof.
  intros Hs Hwf s snapshot.
  destruct (exit_steps cl errptr rec finish st sp Hs Hwf)
    as (_ & Hrun & Hlock & Hdom1).
  destruct Hwf as [Hu Hcl]. destruct (Hcl _ _ Hs) as (Hch & Hpar & _).
  fold s snapshot in Hrun, Hlock.
  pose proof (traced_exit_run cl errptr rec finish st sp Hs Hu Hch Hpar)
    as Htr. fold s in Htr.
  set (h1 := <[s := set_done true sp]> (spans st)) in *.
  assert (Hu1 : unlocked h1)
    by (apply unlocked_insert; [done|apply (Hu _ _ Hs)]).
  pose proof (traced_for_each_orphan_run snapshot (with_spans h1 st) Hu1
                (λ c Hc, Hdom1 c (Hch c (proj1 (elem_of_elements _ _) Hc))))
    as Hloop.
  exists (with_spans (orphan_all snapshot h1) st),
    (orphan_all_trace snapshot h1),
    (with_spans (exit_spans s sp (spans st)) st),
    (exit_trace cl sp errptr rec finish (spans st)).
  split; [exact Hloop|]. split; [reflexivity|]. split; [exact Htr|].
  split; [by rewrite calls_of_exit_trace|].
  split; [apply locked_accesses_exit_trace|].
  split; [intros c; apply elem_of_elements|].
  assert (Hle : flags_le h1 (exit_spans s sp (spans st))).
  { unfold exit_spans. fold h1. fold snapshot.
    destruct (parent sp).
    - eapply flags_le_trans;
        [apply flags_le_orphan_all|apply flags_le_remove_child].
    - apply flags_le_orphan_all. }
  split; [|split; [|split; [|split]]].
  - intros c Hc. split.
    { apply elem_of_calls_of. rewrite calls_of_orphan_all_trace.
      by apply Hlock. }
    simpl. unfold exit_spans. fold h1. fold snapshot.
    assert (settled (orphan_all snapshot h1) c).
    { apply settled_orphan_all; [by apply elem_of_elements|].
      by apply Hdom1, Hch. }
    destruct (parent sp); [|done].
    eapply settled_mono; [apply flags_le_remove_child|done].
  - apply locked_accesses_orphan_all_trace.
  - rewrite calls_of_orphan_all_trace. apply orphan_all_events_calls.
  - destruct (Hle s _ (lookup_insert_eq _ _ _)) as (sp' & Hs' & _ & Hd & _).
    exists sp'. split; [done|]. by apply Hd.
  - unfold exit_spans. fold h1. fold snapshot. simpl.
    destruct (parent sp) as [p|] eqn:Hp; [|done]. split; [done|].
    destruct (proj2 (orphan_all_lookup_is_Some snapshot h1 p)
                (Hdom1 p (Hpar p eq_refl))) as [psp Hpsp].
    exists (remove_child s psp). rewrite lookup_alter_eq, Hpsp.
    split; [done|]. simpl. unfold spanBag_Remove.
    rewrite elem_of_difference, elem_of_singleton. by intros [_ ?].
Qed.

Lemma with_panicked_orphan_call b evs :
  Forall (λ e, is_orphan_call e = true) evs → with_panicked b <$> evs = evs.
Proof.
  induction 1 as [|e evs He _ IH]; [done|].
  rewrite fmap_cons, IH. by destruct e.
Qed.


(** ** The observer of a span *)

Lemma exit_events_observer cl sp errptr rec finish h o x e p fin :
  EvObserverFinish o x e p fin ∈ exit_events cl sp errptr rec finish h ↔
  cl_observer cl = Some o ∧ x = cl_s cl ∧ e = exit_err errptr ∧
  p = exit_panicked rec ∧ fin = finish.
Proof.
  unfold exit_events, exit_registry_events, exit_observer_events.
  rewrite !elem_of_app. split.
  - intros [Hin|[Hin|[Hin|[Hin|Hin]]]].
    + repeat (apply elem_of_cons in Hin as [Hin|Hin]; [discriminate|]).
      by apply elem_of_nil in Hin.
    + pose proof (orphan_all_events_calls
                    (spanBag_Iterate (children sp))
                    (<[cl_s cl := set_done true sp]> h)) as Hc.
      rewrite Forall_forall in Hc. by apply Hc in Hin.
    + destruct (parent sp); [destruct (orphaned sp)|];
        repeat (apply elem_of_cons in Hin as [Hin|Hin]; [discriminate|]);
        by apply elem_of_nil in Hin.
    + destruct (cl_observer cl); [|by apply elem_of_nil in Hin].
      apply list_elem_of_singleton in Hin. by injection Hin as -> -> -> -> ->.
    + destruct rec; [|by apply elem_of_nil in Hin].
      apply list_elem_of_singleton in Hin. discriminate.
  - intros (-> & -> & -> & -> & ->). right. right. right. left. by left.
Qed.

(** C10.  The observer that is told of the start and of the finish of a
    span is the one the trace has when the span starts: [newSpan] reads it
    once and the closure keeps it.  Whatever observer the trace is given
    afterwards ([setObserver t o'] on any later well-formed store), the
    finish closure returns and tells the observer read at the start, and
    no other; when there was none at the start, no observer is told. *)
Theorem observer_captured_at_start rt ctx fn_ args_ id_ trace_ now st s cl
    st1 evs1 st2 sp2 o' errptr rec finish :
  newSpan rt ctx fn_ args_ id_ trace_ now st = Some ((s, cl), st1, evs1) →
  wf st2 → spans st2 !! s = Some sp2 →
  ∃ t tr,
    trace <$> spans st1 !! s = Some (Some t) ∧
    traces st1 !! t = Some tr ∧
    cl_s cl = s ∧ cl_observer cl = observer tr ∧
    (∀ o x, EvObserverStart o x ∈ evs1 ↔ observer tr = Some o ∧ x = s) ∧
    ∃ st3 evs3,
      exit cl errptr rec finish (setObserver t o' st2)
      = Some (exit_outcome rec, st3, evs3) ∧
      ∀ o x e p fin,
        EvObserverFinish o x e p fin ∈ evs3 ↔
        observer tr = Some o ∧ x = s ∧ e = exit_err errptr ∧
        p = exit_panicked rec ∧ fin = finish.
Proof.
  intros H [Hu Hcl] Hs2.
  apply newSpan_Some in H
    as (r & st1' & e1 & e3 & t & tr & Hr & Ht & Htr & -> & -> & Htr' & Har'
        & Hev & Hle & _ & ->).
  set (s := fresh (dom (spans st1'))) in *.
  apply resolve_Some in Hr as (_ & _ & _ & _ & Hcase).
  exists t, tr.
  destruct (Hle s _ (lookup_insert_eq _ _ _))
    as (sp & Hs & (_ & _ & _ & Htrace & _) & _).
  simpl in Htrace.
  split; [rewrite Hs; simpl; congruence|].
  split; [by rewrite Htr'|]. split; [done|]. split; [done|]. split.
  - intros o x. rewrite !elem_of_app. split.
    + intros [Hin|[Hin|Hin]].
      * destruct trace_ as [t0|]; [destruct Hcase as (_ & _ & ->)|].
        { by apply elem_of_nil in Hin. }
        destruct (ctx_span ctx).
        { destruct Hcase as (? & _ & _ & _ & ->).
          by apply elem_of_nil in Hin. }
        destruct Hcase as (_ & -> & _).
        apply list_elem_of_singleton in Hin. discriminate.
      * rewrite Forall_forall in Hev. by apply Hev in Hin.
      * destruct (observer tr); [|by apply elem_of_nil in Hin].
        apply list_elem_of_singleton in Hin. by injection Hin as -> ->.
    + intros [-> ->]. right. right. by left.
  - destruct (Hcl _ _ Hs2) as (Hch & Hpar & _).
    pose proof (exit_run {| cl_s := s; cl_observer := observer tr |}
                  errptr rec finish (setObserver t o' st2) sp2) as Hrun.
    rewrite setObserver_spans in Hrun. simpl in Hrun.
    specialize (Hrun Hs2 Hu Hch Hpar).
    eexists _, _. split; [exact Hrun|].
    intros o x e p fin. by rewrite exit_events_observer.
Qed.

(** ** addChild *)

Lemma addChild_unfold s c st sp :
  spans st !! s = Some sp → mtx sp = false →
  addChild s c st
  = match (if done sp then orphan c else ret tt)
            (with_spans (<[s := add_child c sp]> (spans st)) st) with
    | Some (u, st', e) => Some (u, st', [EvLock s; EvUnlock s] ++ e)
    | None => None
    end.
Proof.
  intros Hs Hm. unfold addChild.
  rewrite (bind_run _ _ _ _ _ _ (Lock_run _ _ _ Hs Hm)).
  set (st1 := with_spans _ st).
  assert (H1 : spans st1 !! s = Some (set_mtx true sp))
    by (subst st1; simpl; apply lookup_insert_eq).
  rewrite (bind_run _ _ _ _ _ _ (modify_span_run _ _ _ _ H1)).
  set (st2 := with_spans _ st1).
  assert (H2 : spans st2 !! s
               = Some (set_children (spanBag_Add c (children sp))
                         (set_mtx true sp)))
    by (subst st2; simpl; apply lookup_insert_eq).
  rewrite (bind_run _ _ _ _ _ _ (get_span_run _ _ _ H2)). simpl.
  rewrite (bind_run _ _ _ _ _ _ (Unlock_run _ _ _ H2)).
  set (st3 := with_spans _ st2).
  assert (Hst3 : st3 = with_spans (<[s := add_child c sp]> (spans st)) st).
  { subst st3 st2 st1. unfold with_spans. simpl. rewrite !insert_insert_eq.
    do 2 f_equal. clear Hs. destruct sp; simpl in *.
    unfold add_child, set_children. simpl. by subst. }
  rewrite Hst3.
  by destruct ((if done sp then orphan c else ret tt) _) as [[[??]?]|].
Qed.

(** ** The traced code is the code

    Forgetting the accesses of the traced [orphan], [removeChild],
    [addChild] and finish closure gives the call-level functions, on every
    store: the same crashes, the same results, the same stores, the same
    calls. *)

Lemma erase_ret {A} (a : A) st : erase (Traced.ret a) st = ret a st.
Proof. done. Qed.

Lemma erase_call {A} (m : M A) st : erase (Traced.call m) st = m st.
Proof.
  unfold erase, Traced.call. destruct (m st) as [[[a st'] evs]|]; [|done].
  by rewrite calls_of_Call.
Qed.

Lemma erase_bind {A B} (t : Traced.T A) (k : A → Traced.T B)
    (m : M A) (k' : A → M B) st :
  (∀ st, erase t st = m st) → (∀ a st, erase (k a) st = k' a st) →
  erase (Traced.bind t k) st = bind m k' st.
Proof.
  intros Ht Hk. unfold bind. rewrite <- Ht. unfold erase, Traced.bind.
  destruct (t st) as [[[a st1] t1]|]; [|done].
  rewrite <- Hk. unfold erase. destruct (k a st1) as [[[b st2] t2]|]; [|done].
  by rewrite calls_of_app.
Qed.

Lemma erase_for_each {A} (l : list A) (body : A → Traced.T unit)
    (body' : A → M unit) st :
  (∀ x st, erase (body x) st = body' x st) →
  erase (Traced.for_each l body) st = for_each l body' st.
Proof.
  intros Hb. revert st. induction l as [|x l IH]; intros st; [done|].
  simpl. apply erase_bind; [apply Hb|]. by intros _.
Qed.

Lemma erase_orphan s st : erase (Traced.orphan s) st = orphan s st.
Proof.
  destruct (spans st !! s) as [sp|] eqn:Hs.
  - destruct (mtx sp) eqn:Hm.
    + unfold erase, Traced.orphan, orphan, Traced.bind, bind, Traced.call,
        Lock, bind, get_span. by rewrite Hs, Hm.
    + unfold erase.
      rewrite (traced_orphan_run _ _ _ Hs Hm), (orphan_run _ _ _ Hs Hm).
      by rewrite calls_of_orphan_trace.
  - unfold erase, Traced.orphan, orphan, Traced.bind, bind, Traced.call,
      Lock, bind, get_span. by rewrite Hs.
Qed.

Lemma erase_removeChild s c st :
  erase (Traced.removeChild s c) st = removeChild s c st.
Proof.
  destruct (spans st !! s) as [sp|] eqn:Hs.
  - destruct (mtx sp) eqn:Hm.
    + unfold erase, Traced.removeChild, removeChild, Traced.bind, bind,
        Traced.call, Lock, bind, get_span. by rewrite Hs, Hm.
    + unfold erase.
      by rewrite (traced_removeChild_run _ _ _ _ Hs Hm),
        (removeChild_run _ _ _ _ Hs Hm).
  - unfold erase, Traced.removeChild, removeChild, Traced.bind, bind,
      Traced.call, Lock, bind, get_span. by rewrite Hs.
Qed.

Lemma erase_addChild s c st :
  erase (Traced.addChild s c) st = addChild s c st.
Proof.
  destruct (spans st !! s) as [sp|] eqn:Hs.
  - destruct (mtx sp) eqn:Hm.
    + unfold erase, Traced.addChild, addChild, Traced.bind, bind,
        Traced.call, Lock, bind, get_span. by rewrite Hs, Hm.
    + unfold erase.
      rewrite (traced_addChild_unfold _ _ _ _ Hs Hm),
        (addChild_unfold _ _ _ _ Hs Hm).
      set (st1 := with_spans _ st).
      assert (Hrest : erase (if done sp then Traced.orphan c
                             else Traced.ret tt) st1
                      = (if done sp then orphan c else ret tt) st1)
        by (destruct (done sp); [apply erase_orphan|done]).
      rewrite <- Hrest. unfold erase.
      destruct ((if done sp then Traced.orphan c else Traced.ret tt) st1)
        as [[[u st'] t]|]; [|done].
      by rewrite calls_of_app.
  - unfold erase, Traced.addChild, addChild, Traced.bind, bind, Traced.call,
      Lock, bind, get_span. by rewrite Hs.
Qed.

Lemma erase_exit cl errptr rec finish st :
  erase (Traced.exit cl errptr rec finish) st = exit cl errptr rec finish st.
Proof.
  destruct (spans st !! cl_s cl) as [sp|] eqn:Hs.
  2:{ unfold erase, Traced.exit, exit, Traced.bind, bind, Traced.call,
        get_span. by rewrite Hs. }
  destruct (mtx sp) eqn:Hm.
  { unfold erase, Traced.exit, exit.
    rewrite (traced_bind_run _ _ _ _ _ _
               (traced_call_run _ _ _ _ _ (get_span_run _ _ _ Hs))).
    rewrite (bind_run _ _ _ _ _ _ (get_span_run _ _ _ Hs)).
    rewrite traced_emit_bind_run, emit_bind_run.
    unfold Traced.bind at 1. unfold bind at 1.
    unfold Traced.call, Lock, bind, get_span. by rewrite Hs, Hm. }
  unfold erase, Traced.exit, exit.
  set (s := cl_s cl) in *.
  rewrite (traced_bind_run _ _ _ _ _ _
             (traced_call_run _ _ _ _ _ (get_span_run _ _ _ Hs))).
  rewrite (bind_run _ _ _ _ _ _ (get_span_run _ _ _ Hs)).
  rewrite traced_emit_bind_run, emit_bind_run.
  rewrite (traced_bind_run _ _ _ _ _ _
             (traced_call_run _ _ _ _ _ (Lock_run _ _ _ Hs Hm))).
  rewrite (bind_run _ _ _ _ _ _ (Lock_run _ _ _ Hs Hm)).
  set (st1 := with_spans _ st).
  assert (H1 : spans st1 !! s = Some (set_mtx true sp))
    by (subst st1; simpl; apply lookup_insert_eq).
  unfold Traced.write.
  rewrite (traced_bind_run _ _ _ _ _ _ (traced_update_run s Fdone _ _ _ H1)).
  rewrite (bind_run _ _ _ _ _ _ (modify_span_run _ _ _ _ H1)).
  cbn [set_field get_field].
  set (st2 := with_spans _ st1).
  assert (H2 : spans st2 !! s = Some (set_done true (set_mtx true sp)))
    by (subst st2; simpl; apply lookup_insert_eq).
  rewrite (traced_bind_run _ _ _ _ _ _ (traced_read_run s Forphaned _ _ H2)).
  rewrite (traced_bind_run _ _ _ _ _ _ (traced_read_run s Fchildren _ _ H2)).
  rewrite (bind_run _ _ _ _ _ _ (get_span_run _ _ _ H2)).
  cbn [get_field].
  rewrite (traced_bind_run _ _ _ _ _ _
             (traced_call_run _ _ _ _ _ (Unlock_run _ _ _ H2))).
  rewrite (bind_run _ _ _ _ _ _ (Unlock_run _ _ _ H2)).
  set (st3 := with_spans _ st2).
  change (children (set_done true (set_mtx true sp))) with (children sp).
  change (orphaned (set_done true (set_mtx true sp))) with (orphaned sp).
  set (restT := Traced.bind (Traced.for_each _ Traced.orphan) _).
  set (restM := bind (for_each _ orphan) _).
  assert (Hrest : erase restT st3 = restM st3).
  { subst restT restM. apply erase_bind.
    { intros st'. apply erase_for_each, erase_orphan. }
    intros _ st'. apply erase_bind.
    { intros st''. destruct (parent sp) as [p|]; [|apply erase_call].
      apply erase_bind; [apply erase_removeChild|].
      intros _ st'''. destruct (orphaned sp); [apply erase_call|done]. }
    intros _ st''. apply erase_bind.
    { intros st'''. destruct (cl_observer cl); [apply erase_call|done]. }
    intros _ st'''. destruct rec; [|done].
    apply erase_bind; [apply erase_call|done]. }
  rewrite <- Hrest. unfold erase.
  destruct (restT st3) as [[[b st4] t4]|]; [|done].
  done.
Qed.

(** C4.  [addChild(p, c)] returns, and its trace is: the lock of [p], the
    insertion of [c] into the child set of [p], then the read of the flag
    [done] of [p], then the unlock; both accesses lie under the lock and
    the read comes after the insertion.  [c] is then in the child set of
    [p], and the flag read decides the rest.  When [p] is not done nothing
    else happens.  When [p] is done, [orphan] is called on [c] right after
    the unlock, so [c] is afterwards orphaned (unless [c] has itself
    finished, where [orphan] does nothing).  The call-level [addChild]
    returns the same store with the calls of this trace as its log.  A
    span that [newSpan] attaches to a parent that is done is therefore
    always marked orphaned, with its [orphanedSpan] notification, and is
    in the child set of the parent. *)
Theorem addChild_orphans_late_child rt st p c psp csp ctx fn_ args_ id_ now
    s cl st1 evs1 :
  spans st !! p = Some psp → spans st !! c = Some csp →
  unlocked (spans st) →
  (∃ st' tr,
      Traced.addChild p c st = Some (tt, st', tr) ∧
      addChild p c st = Some (tt, st', calls_of tr) ∧
      locked_accesses None tr = Some None ∧
      (∃ psp', spans st' !! p = Some psp' ∧ c ∈ children psp') ∧
      let st_ins := with_spans (<[p := add_child c psp]> (spans st)) st in
      let under_lock :=
        [Call (EvLock p); Access p Fchildren Writes; Access p Fdone Reads;
         Call (EvUnlock p)] in
      if done psp then
        (∃ to, Traced.orphan c st_ins = Some (tt, st', to) ∧
               tr = under_lock ++ to) ∧
        settled (spans st') c ∧
        (done csp = false →
         ∃ csp', spans st' !! c = Some csp' ∧ orphaned csp' = true)
      else st' = st_ins ∧ tr = under_lock) ∧
  (done psp = true → ctx_span ctx = Some p →
   newSpan rt ctx fn_ args_ id_ None now st = Some ((s, cl), st1, evs1) →
   (∃ sp', spans st1 !! s = Some sp' ∧ parent sp' = Some p ∧
           orphaned sp' = true) ∧
   EvOrphanedSpan (scope_r fn_) s ∈ evs1 ∧
   ∃ psp', spans st1 !! p = Some psp' ∧ s ∈ children psp').
Proof.
  intros Hp Hc Hu. pose proof (Hu _ _ Hp) as Hmp. split.
  - rewrite (traced_addChild_unfold _ _ _ _ Hp Hmp).
    rewrite (addChild_unfold _ _ _ _ Hp Hmp).
    set (st_ins := with_spans (<[p := add_child c psp]> (spans st)) st).
    assert (Hpre : locked_accesses None
              [Call (EvLock p); Access p Fchildren Writes;
               Access p Fdone Reads; Call (EvUnlock p)] = Some None)
      by (simpl; by rewrite !decide_True).
    destruct (done psp) eqn:Hd.
    + assert (∃ x, spans st_ins !! c = Some x ∧ mtx x = false ∧
                   c ∈ children (if decide (p = c) then x else add_child c psp) ∧
                   (done csp = false → x = csp)) as (x & Hx & Hmx & Hin & Hxc).
      { simpl. destruct (decide (p = c)) as [->|Hne].
        - exists (add_child c psp). rewrite lookup_insert_eq.
          repeat split; [done|simpl; unfold spanBag_Add; set_solver|].
          intros Hdc. simplify_eq. congruence.
        - exists csp. rewrite lookup_insert_ne by done.
          repeat split; [done|by eapply Hu|].
          simpl. unfold spanBag_Add. set_solver. }
      rewrite (traced_orphan_run _ _ _ Hx Hmx).
      rewrite (orphan_run _ _ _ Hx Hmx).
      eexists _, _. split; [done|].
      split; [by rewrite calls_of_app, calls_of_orphan_trace|].
      split.
      { by rewrite locked_accesses_app, Hpre, locked_accesses_orphan_trace. }
      unfold st_ins. cbn [spans with_spans].
      split; [|split; [|split]].
      * destruct (decide (p = c)) as [->|Hne].
        -- exists (orphan_span x). rewrite lookup_insert_eq. split; [done|].
           unfold orphan_span. by destruct (orphan_fires x).
        -- exists (add_child c psp).
           rewrite lookup_insert_ne, lookup_insert_eq by done. done.
      * exists (orphan_trace c x).
        split; [apply (traced_orphan_run _ _ _ Hx Hmx)|done].
      * exists (orphan_span x). rewrite lookup_insert_eq.
        split; [done|apply orphan_span_fires].
      * intros Hdc. exists (orphan_span x). rewrite lookup_insert_eq.
        split; [done|]. rewrite (Hxc Hdc). unfold orphan_span, orphan_fires.
        rewrite Hdc. simpl. by destruct (orphaned csp) eqn:Ho.
    + unfold ret, Traced.ret. eexists _, _. split; [done|].
      split; [by rewrite app_nil_r|].
      split; [by rewrite app_nil_r|].
      split; [|by rewrite app_nil_r].
      exists (add_child c psp). simpl. rewrite lookup_insert_eq.
      split; [done|]. simpl. unfold spanBag_Add. set_solver.
  - intros Hd Hctx H.
    apply newSpan_Some in H
      as (r & st1' & e1 & e3 & t & tr & Hr & Ht & Htr & -> & -> & Htr' & Har'
          & Hev & Hle & Hlink & ->).
    apply resolve_Some in Hr as (Hpar & _ & _ & _ & Hcase).
    rewrite Hctx in Hcase, Hpar. destruct Hcase as (psp0 & Hp0 & _ & -> & ->).
    simplify_eq. rewrite Hpar in Hlink.
    set (s := fresh (dom (spans st))) in *.
    set (lit := span_literal fn_ args_ id_ now r) in *.
    assert (Hne : s ≠ p).
    { intros Heq. apply (is_fresh (dom (spans st))). fold s. rewrite Heq.
      apply elem_of_dom. by eexists. }
    set (st2 := with_spans (<[s := lit]> (spans st)) st) in *.
    assert (Hp2 : spans st2 !! p = Some psp)
      by (simpl; by rewrite lookup_insert_ne).
    rewrite (bind_run _ _ _ _ _ _ (get_span_run _ _ _ Hp2)) in Hlink.
    rewrite emit_bind_run in Hlink.
    rewrite (addChild_unfold _ _ _ _ Hp2 Hmp), Hd in Hlink.
    set (st_ins := with_spans _ st2) in Hlink.
    assert (Hs : spans st_ins !! s = Some lit).
    { simpl. rewrite lookup_insert_ne by done. apply lookup_insert_eq. }
    rewrite (orphan_run _ _ _ Hs eq_refl) in Hlink. simpl in Hlink.
    injection Hlink as <- <-. simpl.
    split; [|split].
    + exists (set_orphaned true lit). rewrite lookup_insert_eq.
      split; [done|]. split; [|done]. simpl. by rewrite Hpar.
    + apply elem_of_cons. right. apply elem_of_cons. right.
      apply elem_of_cons. right. apply elem_of_cons. right. by left.
    + exists (add_child s psp).
      rewrite lookup_insert_ne, lookup_insert_eq by done.
      split; [done|]. simpl. unfold spanBag_Add. set_solver.
Qed.

(** ** Contexts *)

(** C8.  On a span, looking up the reserved key returns the span itself
    and looking up any other key is delegated to the context the span
    wraps.  So [SpanFromCtx] of a span used as a context is that span, and
    [SpanFromCtx] of any context that holds a span under the reserved key
    is the span it holds. *)
Theorem span_context_lookup st s sp key inner ctx p :
  spans st !! s = Some sp →
  ctx_Value ctx spanKey = Some (ISpan (Some p)) →
  Span_Value s spanKey st = Some (ISpan (Some s), st, []) ∧
  (key ≠ spanKey →
   Span_Value s key st
   = match ctx_Value (Context sp) key with
     | Some v => Some (v, st, [])
     | None => None
     end) ∧
  ctx_Value (CtxSpan s inner) spanKey = Some (ISpan (Some s)) ∧
  (key ≠ spanKey → ctx_Value (CtxSpan s inner) key = ctx_Value inner key) ∧
  SpanFromCtx (CtxSpan s inner) = Some (Some s) ∧
  SpanFromCtx <$> as_context st s = Some (Some (Some s)) ∧
  SpanFromCtx ctx = Some (Some p).
Proof.
  intros Hs Hctx. repeat split.
  - intros Hk. unfold Span_Value. rewrite decide_False by done.
    rewrite (bind_run _ _ _ _ _ _ (get_span_run _ _ _ Hs)).
    by destruct (ctx_Value (Context sp) key).
  - intros Hk. simpl. by rewrite decide_False.
  - unfold as_context. by rewrite Hs.
  - destruct ctx as [|value| |q inner']; simpl in *; try done.
    + injection Hctx as Hv. by rewrite Hv.
    + by injection Hctx as ->.
Qed.

Lemma locks_are_unlocked h : locks_are None h ↔ unlocked h.
Proof. done. Qed.

Lemma locks_ret {A} held (a : A) : locks held held (ret a).
Proof. by intros st a' st' evs [= _ <- _]. Qed.

Lemma locks_crash {A} held held' : locks held held' (@crash A).
Proof. by intros st a st' evs [=]. Qed.

Lemma locks_lift {A} held (o : option A) : locks held held (lift o).
Proof. destruct o; [apply locks_ret|apply locks_crash]. Qed.

Lemma locks_bind {A B} h h1 h2 (m : M A) (k : A → M B) :
  locks h h1 m → (∀ a, locks h1 h2 (k a)) → locks h h2 (bind m k).
Proof.
  intros Hm Hk st b st' evs H.
  apply bind_Some in H as (a & st1 & e1 & e2 & H1 & H2 & ->).
  intros Hl. eapply Hk; [done|]. by eapply Hm.
Qed.

Lemma locks_for_each {A} h (l : list A) (body : A → M unit) :
  (∀ x, locks h h (body x)) → locks h h (for_each l body).
Proof.
  intros Hb. induction l as [|x l IH]; simpl; [apply locks_ret|].
  eapply locks_bind; [apply Hb|by intros _].
Qed.

Lemma locks_void {A} h h' (m : M A) : locks h h' m → locks h h' (void m).
Proof. intros Hm. eapply locks_bind; [done|intros _; apply locks_ret]. Qed.

Lemma locks_same_spans {A} h (m : M A) :
  (∀ st a st' evs, m st = Some (a, st', evs) → spans st' = spans st) →
  locks h h m.
Proof. intros Hm st a st' evs H. by rewrite (Hm _ _ _ _ H). Qed.

Lemma locks_emit h e : locks h h (emit e).
Proof. apply locks_same_spans. by intros st a st' evs [= _ <- _]. Qed.

Lemma locks_get_span h s : locks h h (get_span s).
Proof.
  apply locks_same_spans. intros st a st' evs H.
  by apply get_span_Some in H as (_ & -> & _).
Qed.

Lemma locks_read_slice h sl : locks h h (read_slice sl).
Proof.
  apply locks_same_spans. intros st a st' evs. unfold read_slice.
  destruct (slice_view st sl); [|done]. by intros [= _ <- _].
Qed.

Lemma locks_write_array h a i xs : locks h h (write_array a i xs).
Proof.
  apply locks_same_spans. intros st u st' evs. unfold write_array.
  destruct (arrays st !! a); [|done]. by intros [= _ <- _].
Qed.

Lemma locks_append rt h sl xs : locks h h (append rt sl xs).
Proof.
  apply locks_same_spans. intros st u st' evs. unfold append.
  destruct (append_in rt (arrays st) sl xs) as [[sl' h']|]; [|done].
  by intros [= _ <- _].
Qed.

Lemma locks_NewTrace h i : locks h h (NewTrace i).
Proof. apply locks_same_spans. by intros st a st' evs [= _ <- _]. Qed.

Lemma locks_getObserver h t : locks h h (getObserver t).
Proof.
  apply locks_same_spans. intros st a st' evs H.
  by apply getObserver_Some in H as (? & ? & _ & _ & _ & -> & _).
Qed.

Lemma locks_observeTrace rt h r t : locks h h (observeTrace rt r t).
Proof.
  apply locks_same_spans. intros st u st' evs H. unfold observeTrace in H.
  rewrite emit_bind_run in H.
  destruct (traces st !! t) as [tr|]; [|done].
  destruct (traceWatcher rt r (trace_id tr)); injection H as _ <- _;
    by rewrite ?setObserver_spans.
Qed.

Lemma locks_load_spans h l : locks h h (load_spans l).
Proof.
  induction l as [|c l IH]; simpl; [apply locks_ret|].
  eapply locks_bind; [apply locks_get_span|intros sp].
  eapply locks_bind; [apply IH|intros r]. apply locks_ret.
Qed.

Lemma locks_modify_span h s g :
  (∀ sp, mtx (g sp) = mtx sp) → locks h h (modify_span s g).
Proof.
  intros Hg st a st' evs H Hl.
  apply modify_span_Some in H as (sp & Hs & -> & _).
  intros x xp. simpl. rewrite lookup_insert. case_decide; subst.
  - intros [= <-]. rewrite Hg. by apply Hl.
  - apply Hl.
Qed.

Lemma locks_new_span sp : mtx sp = false → locks None None (new_span sp).
Proof.
  intros Hm st a st' evs [= _ <- _] Hl x xp. simpl.
  rewrite lookup_insert. case_decide; subst; [by intros [= <-]|apply Hl].
Qed.

Lemma locks_Lock s : locks None (Some s) (Lock s).
Proof.
  intros st a st' evs H Hl.
  apply Lock_Some in H as (sp & Hs & Hm & -> & _).
  intros x xp. simpl. rewrite lookup_insert. case_decide; subst.
  - intros [= <-]. simpl. by rewrite bool_decide_eq_true_2.
  - intros Hx. rewrite (Hl _ _ Hx). simpl.
    rewrite bool_decide_eq_false_2; [done|]. by intros [= ->].
Qed.

Lemma locks_Unlock s : locks (Some s) None (Unlock s).
Proof.
  intros st a st' evs H Hl.
  apply Unlock_Some in H as (sp & Hs & -> & _).
  intros x xp. simpl. rewrite lookup_insert. case_decide; subst.
  - by intros [= <-].
  - intros Hx. rewrite (Hl _ _ Hx).
    rewrite bool_decide_eq_false_2; [done|]. by intros [= ->].
Qed.

Create HintDb locks discriminated.
#[export] Hint Resolve locks_ret locks_crash locks_lift locks_emit
  locks_get_span locks_read_slice locks_write_array locks_append
  locks_NewTrace locks_getObserver locks_observeTrace locks_load_spans
  locks_Lock locks_Unlock : locks.
#[export] Hint Extern 1 (locks _ _ (modify_span _ _)) =>
  apply locks_modify_span; by intros [] : locks.
#[export] Hint Extern 1 (locks None _ (new_span _)) =>
  apply locks_new_span; reflexivity : locks.

Ltac locks_step :=
  cbv zeta;
  lazymatch goal with
  | |- locks _ _ (bind _ _) => eapply locks_bind; [|intros ?]
  | |- locks _ _ (void _) => apply locks_void
  | |- locks _ _ (for_each _ _) => apply locks_for_each; intros ?
  | |- locks _ _ (match ?x with _ => _ end) => destruct x
  | |- _ => solve [eauto with locks]
  end.

Ltac locks_auto := repeat locks_step.

Lemma locks_orphan s : locks None None (orphan s).
Proof. unfold orphan. locks_auto. Qed.

#[export] Hint Resolve locks_orphan : locks.

Lemma locks_addChild s c : locks None None (addChild s c).
Proof. unfold addChild. locks_auto. Qed.

Lemma locks_removeChild s c : locks None None (removeChild s c).
Proof. unfold removeChild. locks_auto. Qed.

#[export] Hint Resolve locks_addChild locks_removeChild : locks.

Lemma locks_run_op rt op : locks None None (run_op rt op).
Proof.
  destruct op; simpl;
    unfold newSpan, resolve, exit, Annotate, Annotations, Orphaned,
      Children, Duration, Start, Span_Value, String_, Args, Id, Func_,
      Trace_, Parent; locks_auto.
Qed.

Lemma unlocked_run_ops rt ops st st' evs :
  run_ops rt ops st = Some (tt, st', evs) →
  unlocked (spans st) → unlocked (spans st').
Proof.
  revert st evs. induction ops as [|op ops IH]; intros st evs; simpl.
  - by intros [= <- _].
  - intros H Hu.
    apply bind_Some in H as ([] & st1 & e1 & e2 & H1 & H2 & ->).
    eapply IH; [done|]. by eapply (locks_run_op rt op).
Qed.

(** ** Annotations and their backing arrays *)

Lemma view_inserts_old {A} (arr xs : list A) off len :
  take len (drop off (list_inserts (off + len) xs arr))
  = take len (drop off arr).
Proof.
  apply list_eq. intros i. destruct (decide (i < len)).
  - rewrite !lookup_take_lt, !lookup_drop by done.
    apply list_lookup_inserts_lt. lia.
  - by rewrite !lookup_take_ge by lia.
Qed.

Lemma view_inserts_new {A} (arr xs : list A) off len :
  off + len + length xs ≤ length arr →
  take (len + length xs) (drop off (list_inserts (off + len) xs arr))
  = take len (drop off arr) ++ xs.
Proof.
  intros Hb. apply list_eq. intros i.
  assert (Hl : length (take len (drop off arr)) = len).
  { rewrite length_take, length_drop. lia. }
  destruct (decide (i < len)).
  - rewrite lookup_app_l by lia.
    rewrite !lookup_take_lt, !lookup_drop by lia.
    apply list_lookup_inserts_lt. lia.
  - rewrite lookup_app_r by lia. rewrite Hl.
    destruct (decide (i < len + length xs)).
    + rewrite lookup_take_lt, lookup_drop by lia.
      rewrite list_lookup_inserts by lia. f_equal. lia.
    + rewrite lookup_take_ge by lia. symmetry.
      apply lookup_ge_None_2. lia.
Qed.

Lemma slice_view_in_length h sl old :
  slice_ok h sl → slice_view_in h sl = Some old → length old = sl_len sl.
Proof.
  unfold slice_ok, slice_view_in. intros [Hlen Harr].
  destruct (sl_arr sl) as [a|].
  - destruct Harr as (arr & -> & Hb). intros [= <-].
    rewrite length_take, length_drop. lia.
  - intros [= <-]. simpl. lia.
Qed.

Lemma slice_view_in_is_Some h sl :
  slice_ok h sl → is_Some (slice_view_in h sl).
Proof.
  unfold slice_ok, slice_view_in. intros [_ Harr].
  destruct (sl_arr sl) as [a|]; [|by eexists].
  destruct Harr as (arr & -> & _). by eexists.
Qed.

(** What [append] does to the store of arrays, whatever the slice. *)
Lemma append_in_frame rt h sl xs sl' h' :
  append_in rt h sl xs = Some (sl', h') →
  dom h ⊆ dom h' ∧
  (∀ a, sl_arr sl ≠ Some a → a ∈ dom h → h' !! a = h !! a) ∧
  (∀ a arr, h !! a = Some arr →
            ∃ arr', h' !! a = Some arr' ∧ length arr' = length arr) ∧
  (sl_arr sl' = sl_arr sl ∨
   (∃ a, sl_arr sl' = Some a ∧ (a ∉ dom h) ∧ (a ∈ dom h'))).
Proof.
  unfold append_in. case_decide as Hn.
  - destruct (sl_arr sl) as [a|] eqn:Ha.
    + destruct (h !! a) as [arr|] eqn:Harr; [|done]. intros [= <- <-].
      split; [rewrite dom_insert; set_solver|]. split; [|split].
      * intros b Hb _. apply lookup_insert_ne. congruence.
      * intros b arrb Hb. rewrite lookup_insert. case_decide; subst.
        -- eexists. split; [done|]. rewrite length_inserts. congruence.
        -- by exists arrb.
      * by left.
    + intros [= <- <-]. split; [done|]. split; [done|].
      split; [by eauto|by left].
  - destruct (slice_view_in h sl) as [old|]; [|done]. intros [= <- <-].
    pose proof (is_fresh (dom h)) as Hf.
    split; [rewrite dom_insert; set_solver|]. split; [|split].
    + intros b _ Hb. apply lookup_insert_ne. intros <-. done.
    + intros b arrb Hb. exists arrb. split; [|done].
      rewrite lookup_insert_ne; [done|]. intros <-.
      apply Hf, elem_of_dom. by eexists.
    + right. eexists. split; [done|]. split; [done|].
      rewrite dom_insert. set_solver.
Qed.

(** What [append] returns on a slice that lies inside its array. *)
Lemma append_in_spec rt h sl xs old :
  slice_ok h sl → slice_view_in h sl = Some old →
  ∃ sl' h',
    append_in rt h sl xs = Some (sl', h') ∧
    slice_view_in h' sl' = Some (old ++ xs) ∧
    slice_view_in h' sl = Some old ∧
    slice_ok h' sl'.
Proof.
  intros Hok Hold. pose proof (slice_view_in_length _ _ _ Hok Hold) as Hlen.
  destruct Hok as [Hlc Harr]. unfold append_in. case_decide as Hn.
  - unfold slice_view_in in *. destruct (sl_arr sl) as [a|] eqn:Ha.
    + destruct Harr as (arr & Harr & Hb). rewrite Harr in *.
      injection Hold as <-. eexists _, _. split; [done|]. simpl.
      rewrite lookup_insert_eq. split; [|split].
      * f_equal. apply view_inserts_new. lia.
      * f_equal. apply view_inserts_old.
      * split; [simpl; lia|]. simpl. eexists. rewrite lookup_insert_eq.
        split; [done|]. rewrite length_inserts. lia.
    + injection Hold as <-. simpl in Hlen.
      assert (xs = []) as -> by (destruct xs; [done|simpl in *; lia]).
      eexists _, _. split; [done|]. unfold slice_ok. rewrite Ha.
      split; [done|]. split; [done|]. split; [lia|done].
  - rewrite Hold. eexists _, _. split; [done|].
    pose proof (is_fresh (dom h)) as Hf. split; [|split].
    + unfold slice_view_in. simpl. rewrite lookup_insert_eq. f_equal.
      rewrite drop_0, app_assoc. apply take_app_length'.
      rewrite length_app. lia.
    + unfold slice_view_in in *. destruct (sl_arr sl) as [a|]; [|done].
      destruct Harr as (arr & Harr & Hb).
      rewrite lookup_insert_ne; [done|]. intros <-.
      apply Hf, elem_of_dom. by eexists.
    + split; [simpl; lia|]. simpl. eexists. rewrite lookup_insert_eq.
      split; [done|]. rewrite !length_app, length_replicate. lia.
Qed.

Lemma span_annotations_Some st s xs :
  span_annotations st s = Some xs ↔
  ∃ sp, spans st !! s = Some sp ∧ slice_view st (annotations sp) = Some xs.
Proof.
  unfold span_annotations. destruct (spans st !! s) as [sp|]; split.
  - intros Hv. by exists sp.
  - by intros (sp' & [= <-] & Hv).
  - done.
  - by intros (sp' & ? & _).
Qed.

Lemma ann_grows_refl st : ann_wf st → ann_grows (λ _, []) st st.
Proof.
  intros Hwf. split; [done|]. split; [done|]. split; [|done].
  intros s xs Hs. by rewrite app_nil_r.
Qed.

Global Instance ann_frame_compositional : Compositional ann_frame.
Proof.
  split.
  - intros st Hwf. by apply ann_grows_refl.
  - intros st1 e1 st2 e2 st3 H12 H23 Hwf.
    destruct (H12 Hwf) as (Hwf2 & Hd2 & Hv2 & Ho2).
    destruct (H23 Hwf2) as (Hwf3 & Hd3 & Hv3 & Ho3).
    split; [done|]. split; [set_solver|]. split.
    + intros s xs Hs. apply Hv2 in Hs. rewrite app_nil_r in Hs.
      by apply Hv3 in Hs.
    + intros a Ha Hno. apply Ho3; [set_solver|]. by apply Ho2.
Qed.

(** A step that keeps every annotation slice and every existing array. *)
Lemma ann_frame_intro st evs st' :
  (∀ s sp, spans st !! s = Some sp →
     ∃ sp', spans st' !! s = Some sp' ∧ annotations sp' = annotations sp) →
  (∀ s sp', spans st' !! s = Some sp' →
     (∃ sp, spans st !! s = Some sp ∧ annotations sp = annotations sp') ∨
     annotations sp' = nil_slice) →
  dom (arrays st) ⊆ dom (arrays st') →
  (∀ a, a ∈ dom (arrays st) → arrays st' !! a = arrays st !! a) →
  ann_frame st evs st'.
Proof.
  intros Hfw Hbw Hdom Harr [Hok Hdis].
  assert (Hview : ∀ sl, slice_ok (arrays st) sl →
            slice_ok (arrays st') sl ∧
            slice_view st' sl = slice_view st sl).
  { intros sl [Hlen Hsl]. unfold slice_ok, slice_view, slice_view_in.
    destruct (sl_arr sl) as [a|]; [|done].
    destruct Hsl as (arr & Ha & Hb).
    rewrite Harr by (apply elem_of_dom; by eexists). rewrite Ha.
    split; [|done]. split; [done|]. by exists arr. }
  split; [split|split; [done|split]].
  - intros s sp' Hs'. destruct (Hbw _ _ Hs') as [(sp & Hs & Hann)| ->].
    + rewrite <- Hann. by apply Hview, (Hok s).
    + by split.
  - intros s1 s2 sp1 sp2 a H1 H2 Ha1 Ha2.
    destruct (Hbw _ _ H1) as [(sp1' & H1' & Hann1)|Hn]; [|by rewrite Hn in Ha1].
    destruct (Hbw _ _ H2) as [(sp2' & H2' & Hann2)|Hn]; [|by rewrite Hn in Ha2].
    rewrite <- Hann1 in Ha1. rewrite <- Hann2 in Ha2. eauto.
  - intros s xs Hs. apply span_annotations_Some in Hs as (sp & Hs & Hv).
    rewrite app_nil_r. apply span_annotations_Some.
    destruct (Hfw _ _ Hs) as (sp' & Hs' & Hann). exists sp'.
    split; [done|]. rewrite Hann, <- Hv. by apply Hview, (Hok s).
  - intros a Ha Hno (s & sp' & Hs' & Hsl). apply Hno.
    destruct (Hbw _ _ Hs') as [(sp & Hs & Hann)|Hn]; [|by rewrite Hn in Hsl].
    exists s, sp. by rewrite Hann.
Qed.

Lemma ann_frame_same {A} (m : M A) :
  (∀ st a st' evs, m st = Some (a, st', evs) →
     spans st' = spans st ∧ arrays st' = arrays st) →
  preserves ann_frame m.
Proof.
  intros Hm st a st' evs H. destruct (Hm _ _ _ _ H) as [Hs Ha].
  apply ann_frame_intro; rewrite ?Hs, ?Ha; eauto.
Qed.

Lemma ann_frame_emit e : preserves ann_frame (emit e).
Proof. apply ann_frame_same. by intros st a st' evs [= _ <- _]. Qed.

Lemma ann_frame_NewTrace i : preserves ann_frame (NewTrace i).
Proof. apply ann_frame_same. by intros st a st' evs [= _ <- _]. Qed.

Lemma setObserver_arrays t o st : arrays (setObserver t o st) = arrays st.
Proof. unfold setObserver. by destruct (traces st !! t). Qed.

Lemma ann_frame_observeTrace rt r t : preserves ann_frame (observeTrace rt r t).
Proof.
  apply ann_frame_same. intros st u st' evs H. unfold observeTrace in H.
  rewrite emit_bind_run in H.
  destruct (traces st !! t) as [tr|]; [|done].
  destruct (traceWatcher rt r (trace_id tr)); injection H as _ <- _;
    by rewrite ?setObserver_spans, ?setObserver_arrays.
Qed.

Lemma ann_frame_modify_span s g :
  (∀ sp, annotations (g sp) = annotations sp) →
  preserves ann_frame (modify_span s g).
Proof.
  intros Hg st a st' evs H.
  apply modify_span_Some in H as (sp & Hs & -> & _).
  apply ann_frame_intro; simpl; try done.
  - intros x xp Hx. rewrite lookup_insert. case_decide; subst.
    + exists (g sp). simplify_eq. auto.
    + by exists xp.
  - intros x xp'. rewrite lookup_insert. case_decide; subst.
    + intros [= <-]. left. exists sp. auto.
    + intros Hx. left. by exists xp'.
Qed.

Lemma ann_frame_new_span sp :
  annotations sp = nil_slice → preserves ann_frame (new_span sp).
Proof.
  intros Hsp st a st' evs [= _ <- _].
  apply ann_frame_intro; simpl; try done.
  - intros x xp Hx. exists xp. split; [|done].
    rewrite lookup_insert_ne; [done|]. intros <-.
    apply (is_fresh (dom (spans st))), elem_of_dom. by eexists.
  - intros x xp'. rewrite lookup_insert. case_decide; subst.
    + intros [= <-]. by right.
    + intros Hx. left. by exists xp'.
Qed.

Lemma ann_frame_append_nil rt xs : preserves ann_frame (append rt nil_slice xs).
Proof.
  intros st a st' evs H. unfold append in H.
  destruct (append_in rt (arrays st) nil_slice xs) as [[sl' h']|] eqn:Happ;
    [|done].
  injection H as _ <- _.
  apply append_in_frame in Happ as (Hdom & Hsame & _ & _).
  apply ann_frame_intro; simpl; eauto.
Qed.

#[export] Hint Resolve ann_frame_emit ann_frame_NewTrace
  ann_frame_observeTrace ann_frame_append_nil : pres.
#[export] Hint Extern 1 (preserves ann_frame (modify_span _ _)) =>
  apply ann_frame_modify_span; by intros [] : pres.
#[export] Hint Extern 1 (preserves ann_frame (new_span _)) =>
  apply ann_frame_new_span; reflexivity : pres.

Lemma ann_frame_run_op rt op :
  (∀ s name val, op ≠ OpAnnotate s name val) →
  preserves ann_frame (run_op rt op).
Proof.
  intros Hop. destruct op; simpl;
    try (by exfalso; eapply Hop);
    unfold newSpan, resolve, exit, addChild, removeChild, orphan,
      Annotations, Orphaned, Children, Lock, Unlock, Duration, Start,
      Span_Value, String_, Args, Id, Func_, Trace_, Parent; pres_auto.
Qed.

Lemma slice_ok_nil h : slice_ok h nil_slice.
Proof. by split. Qed.

Lemma critical_section_id s st sp :
  spans st !! s = Some sp → mtx sp = false →
  with_spans (<[s := set_mtx false (set_mtx true sp)]>
                (<[s := set_mtx true sp]> (spans st))) st = st.
Proof.
  intros Hs Hm. rewrite insert_insert_eq.
  replace (set_mtx false (set_mtx true sp)) with sp
    by (clear Hs; destruct sp; simpl in *; by subst).
  by rewrite (insert_id _ _ _ Hs), with_spans_id.
Qed.

(** [Annotations], symbolically executed. *)
Lemma Annotations_run rt s st sp old :
  spans st !! s = Some sp → mtx sp = false →
  slice_view st (annotations sp) = Some old →
  ∃ r h',
    append_in rt (arrays st) nil_slice old = Some (r, h') ∧
    Annotations rt s st
    = Some (r, with_arrays h' st, [EvLock s; EvUnlock s]) ∧
    slice_view_in h' r = Some old.
Proof.
  intros Hs Hm Hold.
  destruct (append_in_spec rt (arrays st) nil_slice old []
              (slice_ok_nil _) eq_refl) as (r & h' & Happ & Hv & _ & _).
  exists r, h'. split; [done|]. split; [|done].
  unfold Annotations.
  rewrite (bind_run _ _ _ _ _ _ (Lock_run _ _ _ Hs Hm)).
  set (st1 := with_spans _ st).
  assert (H1 : spans st1 !! s = Some (set_mtx true sp))
    by (subst st1; simpl; apply lookup_insert_eq).
  rewrite (bind_run _ _ _ _ _ _ (get_span_run _ _ _ H1)).
  rewrite (bind_run _ _ _ _ _ _ (Unlock_run _ _ _ H1)).
  subst st1. cbn [spans with_spans].
  replace (with_spans _ (with_spans _ st)) with st
    by (symmetry; apply (critical_section_id _ _ _ Hs Hm)).
  simpl annotations. unfold bind, read_slice, append. rewrite Hold, Happ.
  done.
Qed.

(** [Annotate], symbolically executed. *)
Lemma Annotate_run rt s name val st sp old :
  spans st !! s = Some sp → mtx sp = false →
  slice_ok (arrays st) (annotations sp) →
  slice_view st (annotations sp) = Some old →
  ∃ sl' h',
    append_in rt (arrays st) (annotations sp)
      [{| Name := name; Value := val |}] = Some (sl', h') ∧
    Annotate rt s name val st
    = Some (tt,
            {| spans := <[s := set_annotations sl' sp]> (spans st);
               traces := traces st; arrays := h' |},
            [EvLock s; EvUnlock s]) ∧
    slice_view_in h' sl' = Some (old ++ [{| Name := name; Value := val |}]) ∧
    slice_ok h' sl'.
Proof.
  intros Hs Hm Hok Hold.
  destruct (append_in_spec rt (arrays st) (annotations sp)
              [{| Name := name; Value := val |}] old Hok Hold)
    as (sl' & h' & Happ & Hv & _ & Hok').
  exists sl', h'. split; [done|]. split; [|done].
  unfold Annotate.
  rewrite (bind_run _ _ _ _ _ _ (Lock_run _ _ _ Hs Hm)).
  set (st1 := with_spans _ st).
  assert (H1 : spans st1 !! s = Some (set_mtx true sp))
    by (subst st1; simpl; apply lookup_insert_eq).
  rewrite (bind_run _ _ _ _ _ _ (get_span_run _ _ _ H1)).
  assert (Ha : append rt (annotations (set_mtx true sp))
                 [{| Name := name; Value := val |}] st1
               = Some (sl', with_arrays h' st1, [])).
  { unfold append. subst st1. simpl. by rewrite Happ. }
  rewrite (bind_run _ _ _ _ _ _ Ha).
  set (st2 := with_arrays h' st1).
  assert (H2 : spans st2 !! s = Some (set_mtx true sp)) by exact H1.
  rewrite (bind_run _ _ _ _ _ _ (modify_span_run _ _ _ _ H2)).
  erewrite Unlock_run by (simpl; apply lookup_insert_eq).
  subst st2 st1. unfold with_spans, with_arrays. simpl.
  rewrite !insert_insert_eq. do 4 f_equal.
  clear Hs H1 H2 Ha Hok Hold. destruct sp; simpl in *. by subst.
Qed.

Lemma slice_ok_arr_dom h sl a :
  slice_ok h sl → sl_arr sl = Some a → a ∈ dom h.
Proof.
  intros [_ H] Ha. rewrite Ha in H. destruct H as (arr & Harr & _).
  apply elem_of_dom. by eexists.
Qed.

Lemma span_owned_dom st a : ann_wf st → span_owned st a → a ∈ dom (arrays st).
Proof.
  intros [Hok _] (s & sp & Hs & Ha). eapply slice_ok_arr_dom; eauto.
Qed.

Lemma slice_ok_same h h' sl :
  slice_ok h sl →
  (∀ a arr, h !! a = Some arr →
            ∃ arr', h' !! a = Some arr' ∧ length arr' = length arr) →
  slice_ok h' sl.
Proof.
  intros [Hlen Harr] Hh. split; [done|].
  destruct (sl_arr sl) as [a|]; [|done].
  destruct Harr as (arr & Ha & Hb). destruct (Hh _ _ Ha) as (arr' & Ha' & Hl).
  exists arr'. split; [done|lia].
Qed.

Lemma slice_view_same h h' sl :
  (∀ a, sl_arr sl = Some a → h' !! a = h !! a) →
  slice_view_in h' sl = slice_view_in h sl.
Proof.
  intros Hh. unfold slice_view_in. destruct (sl_arr sl) as [a|]; [|done].
  by rewrite Hh.
Qed.

(** [Annotate] adds exactly one annotation to its span and leaves the
    annotations of every other span alone. *)
Lemma ann_Annotate rt s name val st u st' evs :
  ann_wf st →
  Annotate rt s name val st = Some (u, st', evs) →
  ann_grows (λ x, annotated x (OpAnnotate s name val)) st st'.
Proof.
  intros Hwf H. pose proof Hwf as [Hok Hdis].
  assert (∃ sp, spans st !! s = Some sp ∧ mtx sp = false) as (sp & Hs & Hm).
  { unfold Annotate in H. apply bind_Some in H as (? & ? & ? & ? & HL & _).
    apply Lock_Some in HL as (sp & ? & ? & _). eauto. }
  destruct (slice_view_in_is_Some _ _ (Hok _ _ Hs)) as [old Hold].
  destruct (Annotate_run rt s name val st sp old Hs Hm (Hok _ _ Hs) Hold)
    as (sl' & h' & Happ & Hrun & Hv & Hok').
  rewrite Hrun in H. injection H as _ <- _.
  destruct (append_in_frame _ _ _ _ _ _ Happ) as (Hdom & Hsame & Hlen & Hnew).
  assert (Hother : ∀ x xp a, x ≠ s → spans st !! x = Some xp →
            sl_arr (annotations xp) = Some a → h' !! a = arrays st !! a).
  { intros x xp a Hx Hxp Ha. apply Hsame.
    - intros Hsa. apply Hx. symmetry. by eapply (Hdis s x).
    - eapply slice_ok_arr_dom; eauto. }
  split; [split|split; [done|split]]; simpl.
  - intros x xp'. rewrite lookup_insert. case_decide; subst.
    + by intros [= <-].
    + intros Hx. eapply slice_ok_same; eauto.
  - intros s1 s2 sp1 sp2 a. rewrite !lookup_insert.
    assert (Hcross : ∀ x xp, x ≠ s → spans st !! x = Some xp →
              sl_arr sl' = Some a → sl_arr (annotations xp) = Some a → False).
    { intros x xp Hx Hxp Ha' Hax. destruct Hnew as [Heq|(b & Hb & Hnb & _)].
      - apply Hx. symmetry. apply (Hdis s x sp xp a); congruence.
      - assert (b = a) as -> by congruence.
        apply Hnb. eapply slice_ok_arr_dom; eauto. }
    repeat case_decide; subst; try done.
    + intros [= <-] H2 Ha1 Ha2. exfalso. eapply (Hcross s2); eauto.
    + intros H1 [= <-] Ha1 Ha2. exfalso. eapply (Hcross s1); eauto.
    + eauto.
  - intros x xs Hx. apply span_annotations_Some in Hx as (xp & Hxp & Hxv).
    apply span_annotations_Some. cbn [spans]. unfold annotated.
    destruct (decide (x = s)) as [->|Hne].
    + exists (set_annotations sl' sp). rewrite lookup_insert_eq.
      split; [done|]. unfold slice_view. simpl.
      rewrite Hv, decide_True by done.
      unfold slice_view in Hold, Hxv. congruence.
    + exists xp. rewrite lookup_insert_ne by done. split; [done|].
      rewrite decide_False by (by intros ->).
      rewrite app_nil_r. unfold slice_view in *. simpl. rewrite <- Hxv.
      apply slice_view_same. eauto.
  - intros a Ha Hno (x & xp' & Hx & Hax). simpl in Hx.
    rewrite lookup_insert in Hx. case_decide as Hxs; [subst x|].
    + injection Hx as <-. simpl in Hax.
      destruct Hnew as [Heq|(b & Hb & Hnb & _)].
      * apply Hno. exists s, sp. split; [done|congruence].
      * apply Hnb. congruence.
    + apply Hno. by exists x, xp'.
Qed.

Lemma ann_run_op rt op st st' evs :
  ann_wf st → run_op rt op st = Some (tt, st', evs) →
  ann_grows (λ s, annotated s op) st st'.
Proof.
  intros Hwf H.
  assert (Hcases : (∃ s name val, op = OpAnnotate s name val) ∨
                   (∀ s name val, op ≠ OpAnnotate s name val))
    by (destruct op; eauto; right; discriminate).
  destruct Hcases as [(s & name & val & ->)|Hop].
  - by eapply ann_Annotate.
  - replace (λ s, annotated s op) with (λ _ : nat, @nil Annotation)
      by (destruct op; try done; by exfalso; eapply Hop).
    by eapply (ann_frame_run_op rt op Hop).
Qed.

(** A store change made through a slice that is none of the spans'. *)
Lemma caller_write st st' :
  ann_wf st → spans st' = spans st →
  dom (arrays st) ⊆ dom (arrays st') →
  (∀ a, span_owned st a → arrays st' !! a = arrays st !! a) →
  ann_wf st' ∧
  (∀ s, span_annotations st' s = span_annotations st s) ∧
  (∀ a, span_owned st' a ↔ span_owned st a).
Proof.
  intros [Hok Hdis] Hsp Hdom Harr.
  assert (Hown : ∀ a, span_owned st' a ↔ span_owned st a).
  { intros a. unfold span_owned. by rewrite Hsp. }
  split; [split|split; [|done]].
  - intros s sp. rewrite Hsp. intros Hs. destruct (Hok _ _ Hs) as [Hlen Hsl].
    split; [done|]. destruct (sl_arr (annotations sp)) as [a|] eqn:Ha; [|done].
    rewrite Harr by (by exists s, sp). done.
  - intros s1 s2 sp1 sp2 a. rewrite Hsp. apply Hdis.
  - intros s. unfold span_annotations. rewrite Hsp.
    destruct (spans st !! s) as [sp|] eqn:Hs; [|done].
    apply slice_view_same. intros a Ha. apply Harr. by exists s, sp.
Qed.

Lemma mutate_isolated rt r m st r' st' evs :
  ann_wf st → caller_slice st r →
  mutate rt r m st = Some (r', st', evs) →
  spans st' = spans st ∧ ann_wf st' ∧
  (∀ s, span_annotations st' s = span_annotations st s) ∧
  caller_slice st' r'.
Proof.
  intros Hwf Hr H. destruct m as [i x|xs|lo hi]; simpl in H.
  - case_decide; [|done]. destruct (sl_arr r) as [a|] eqn:Ha; [|done].
    destruct (Hr a Ha) as [Hdom Hno].
    apply bind_Some in H as ([] & st1 & e1 & e2 & H1 & H2 & ->).
    injection H2 as <- <- <-. unfold write_array in H1.
    destruct (arrays st !! a) as [arr|] eqn:Harr; [|done].
    injection H1 as <- <-.
    destruct (caller_write st
                (with_arrays (<[a := list_inserts (sl_off r + i) [x] arr]>
                                (arrays st)) st))
      as (Hwf' & Hv & Hown); try done.
    + simpl. rewrite dom_insert. set_solver.
    + intros b Hb. simpl. apply lookup_insert_ne. by intros <-.
    + split; [done|]. split; [done|]. split; [done|].
      intros b Hb. rewrite Ha in Hb. injection Hb as <-. split.
      * simpl. apply elem_of_dom. rewrite lookup_insert_eq. by eexists.
      * by rewrite Hown.
  - unfold append in H.
    destruct (append_in rt (arrays st) r xs) as [[sl' h']|] eqn:Happ; [|done].
    injection H as <- <- <-.
    destruct (append_in_frame _ _ _ _ _ _ Happ) as (Hdom & Hsame & _ & Hnew).
    destruct (caller_write st (with_arrays h' st))
      as (Hwf' & Hv & Hown); try done.
    + intros b Hb. simpl. apply Hsame; [|by apply span_owned_dom].
      intros Hrb. by destruct (Hr b Hrb).
    + split; [done|]. split; [done|]. split; [done|].
      intros b Hb. rewrite Hown. simpl.
      destruct Hnew as [Heq|(c & Hc & Hnc & Hc')].
      * rewrite Heq in Hb. destruct (Hr b Hb). split; [by apply Hdom|done].
      * assert (c = b) as -> by congruence. split; [done|].
        intros Ho. by apply Hnc, span_owned_dom.
  - case_decide; [|done]. injection H as <- <- <-.
    split; [done|]. split; [done|]. split; [done|]. exact Hr.
Qed.

Lemma run_steps_annotations rt steps r st r2 st2 e2 :
  ann_wf st → unlocked (spans st) → caller_slice st r →
  run_steps rt r steps st = Some (r2, st2, e2) →
  ann_wf st2 ∧ unlocked (spans st2) ∧
  ∀ s xs, span_annotations st s = Some xs →
          span_annotations st2 s = Some (xs ++ annotated_by s steps).
Proof.
  revert r st e2. induction steps as [|[op|m] steps IH];
    intros r st e2 Hwf Hu Hr H; simpl in H.
  - injection H as <- <- <-. split; [done|]. split; [done|].
    intros s xs Hs. simpl. by rewrite app_nil_r.
  - apply bind_Some in H as ([] & st1 & e1 & e3 & H1 & H2 & ->).
    destruct (ann_run_op _ _ _ _ _ Hwf H1) as (Hwf1 & Hdom & Hv & Hown).
    destruct (IH r st1 e3) as (Hwf2 & Hu2 & Hv2); try done.
    + by eapply (locks_run_op rt op).
    + intros a Ha. destruct (Hr a Ha) as [Hd Hno].
      split; [by apply Hdom|by apply Hown].
    + split; [done|]. split; [done|]. intros s xs Hs. simpl.
      rewrite app_assoc. apply Hv2. by apply Hv.
  - apply bind_Some in H as (r1 & st1 & e1 & e3 & H1 & H2 & ->).
    destruct (mutate_isolated _ _ _ _ _ _ _ Hwf Hr H1)
      as (Hsp & Hwf1 & Hv & Hr1).
    destruct (IH r1 st1 e3) as (Hwf2 & Hu2 & Hv2); try done.
    + by rewrite Hsp.
    + split; [done|]. split; [done|]. intros s xs Hs. simpl.
      apply Hv2. by rewrite Hv.
Qed.

(** C7.  [Annotations] returns a copy of the annotations as they are at
    the call, in a backing array that no span uses.  Whatever is then done
    (operations of the core on any span, and overwriting, appending to or
    reslicing the returned slice), the annotations of the span are what
    they were followed by what [Annotate] added to the span since, and a
    later call of [Annotations] returns exactly that: a mutation of a
    returned slice is never seen, and what was returned earlier is a
    prefix of what is returned later. *)
Theorem Annotations_defensive_copy rt st s sp steps :
  spans st !! s = Some sp → unlocked (spans st) → ann_wf st →
  ∃ r st1 xs,
    Annotations rt s st = Some (r, st1, [EvLock s; EvUnlock s]) ∧
    span_annotations st s = Some xs ∧
    slice_view st1 r = Some xs ∧
    spans st1 = spans st ∧
    (∀ a, sl_arr r = Some a → ¬ span_owned st1 a) ∧
    ∀ r2 st2 e2,
      run_steps rt r steps st1 = Some (r2, st2, e2) →
      span_annotations st2 s = Some (xs ++ annotated_by s steps) ∧
      ∃ r3 st3,
        Annotations rt s st2 = Some (r3, st3, [EvLock s; EvUnlock s]) ∧
        slice_view st3 r3 = Some (xs ++ annotated_by s steps).
Proof.
  intros Hs Hu Hwf. pose proof Hwf as [Hok Hdis].
  destruct (slice_view_in_is_Some _ _ (Hok _ _ Hs)) as [xs Hxs].
  destruct (Annotations_run rt s st sp xs Hs (Hu _ _ Hs) Hxs)
    as (r & h' & Happ & Hrun & Hv).
  destruct (append_in_frame _ _ _ _ _ _ Happ) as (Hdom & Hsame & _ & Hnew).
  assert (Hxs' : span_annotations st s = Some xs).
  { apply span_annotations_Some. by exists sp. }
  destruct (caller_write st (with_arrays h' st)) as (Hwf1 & Hv1 & Hown1);
    try done.
  { intros b Hb. simpl. apply Hsame; [done|by apply span_owned_dom]. }
  assert (Hr : caller_slice (with_arrays h' st) r).
  { intros a Ha. destruct Hnew as [Heq|(c & Hc & Hnc & Hc')].
    - by rewrite Heq in Ha.
    - assert (c = a) as -> by congruence. split; [done|].
      rewrite Hown1. intros Ho. by apply Hnc, span_owned_dom. }
  exists r, (with_arrays h' st), xs.
  split; [done|]. split; [done|]. split; [done|]. split; [done|].
  split; [intros a Ha; by apply Hr|].
  intros r2 st2 e2 Hsteps.
  destruct (run_steps_annotations _ _ _ _ _ _ _ Hwf1 Hu Hr Hsteps)
    as (Hwf2 & Hu2 & Hv2).
  assert (H2 : span_annotations st2 s = Some (xs ++ annotated_by s steps)).
  { apply Hv2. by rewrite Hv1. }
  split; [done|].
  apply span_annotations_Some in H2 as (sp2 & Hs2 & Hxs2).
  destruct (Annotations_run rt s st2 sp2 _ Hs2 (Hu2 _ _ Hs2) Hxs2)
    as (r3 & h3 & _ & Hrun3 & Hv3).
  by exists r3, (with_arrays h3 st2).
Qed.

(** ** orphan *)

Lemma orphan_settled_run s st sp :
  spans st !! s = Some sp → mtx sp = false → orphan_fires sp = false →
  orphan s st = Some (tt, st, [EvLock s; EvUnlock s]).
Proof.
  intros Hs Hm Hf. rewrite (orphan_run _ _ _ Hs Hm).
  unfold orphan_span, orphan_events. rewrite Hf.
  by rewrite (insert_id _ _ _ Hs), with_spans_id.
Qed.

Lemma orphan_again_run n s st sp :
  spans st !! s = Some sp → mtx sp = false → orphan_fires sp = false →
  ∃ evs, for_each (replicate n s) orphan st = Some (tt, st, evs) ∧
         notifications s evs = 0.
Proof.
  intros Hs Hm Hf. induction n as [|n (evs & IH & Hn)]; simpl.
  - by exists [].
  - exists ([EvLock s; EvUnlock s] ++ evs).
    rewrite (bind_run _ _ _ _ _ _ (orphan_settled_run _ _ _ Hs Hm Hf)).
    rewrite IH. split; [done|]. by rewrite notifications_app, Hn.
Qed.

(** C3.  [orphan] is idempotent and notifies the registry at most once per
    span.  On a span that is neither done nor orphaned it sets [orphaned]
    and calls [orphanedSpan] once; on a span that is done or orphaned it
    changes nothing and calls nothing.  So [n+1] calls in a row return and
    make exactly one notification for a live span and none for a finished
    one, one more call changes nothing, and in any run of operations of the
    core from that store the span is notified at most once, and not at all
    when it was done or orphaned at the start. *)
Theorem orphan_exactly_once rt st s sp n ops st2 evs2 :
  spans st !! s = Some sp → mtx sp = false →
  run_ops rt ops st = Some (tt, st2, evs2) →
  (∃ st1 evs1,
      for_each (replicate (S n) s) orphan st = Some (tt, st1, evs1) ∧
      st1 = with_spans
              (<[s := if negb (done sp) && negb (orphaned sp)
                      then set_orphaned true sp else sp]> (spans st)) st ∧
      notifications s evs1
      = (if negb (done sp) && negb (orphaned sp) then 1 else 0) ∧
      orphan s st1 = Some (tt, st1, [EvLock s; EvUnlock s])) ∧
  notifications s evs2 ≤ 1 ∧
  (done sp = true ∨ orphaned sp = true → notifications s evs2 = 0).
Proof.
  intros Hs Hm Hrun. split.
  - set (st1 := with_spans (<[s := orphan_span sp]> (spans st)) st).
    assert (Hs1 : spans st1 !! s = Some (orphan_span sp))
      by apply lookup_insert_eq.
    assert (Hm1 : mtx (orphan_span sp) = false)
      by (by rewrite orphan_span_mtx).
    destruct (orphan_again_run n s st1 _ Hs1 Hm1 (orphan_span_fires sp))
      as (evs & Hevs & Hn).
    exists st1, (orphan_events s sp ++ evs). split; [|split; [done|split]].
    + simpl. rewrite (bind_run _ _ _ _ _ _ (orphan_run _ _ _ Hs Hm)).
      fold st1. by rewrite Hevs.
    + rewrite notifications_app, Hn, notifications_orphan_events.
      rewrite decide_True by done. unfold orphan_fires.
      destruct (negb (done sp) && negb (orphaned sp)); lia.
    + apply (orphan_settled_run _ _ _ Hs1 Hm1), orphan_span_fires.
  - destruct (life_run_ops rt s ops _ _ _ _ Hrun) as (_ & Hq & Hle & _).
    split; [done|]. intros Hf. apply Hq. exists sp. split; [done|].
    by apply orphan_fires_false.
Qed.

Lemma orphan_exactly_once_witness :
  ∃ st2 evs2,
    run_ops rt0 ops_orphan_finish st_family = Some (tt, st2, evs2) ∧
    notifications 1 evs2 ≤ 1.
Proof.
  eexists _, _. split; [vm_compute; reflexivity|].
  refine (proj1 (proj2 (orphan_exactly_once rt0 st_family 1
                          (mk_span 11 (Some 0) false false ∅) 2
                          ops_orphan_finish _ _ _ _ _))).
  - reflexivity.
  - reflexivity.
  - vm_compute. reflexivity.
Defined.

(** ** The flags only rise *)

(** C6.  No operation of the core resets [done] or [orphaned]: in every
    run of operations (start, finish closure, orphan, addChild,
    removeChild, Annotate and the accessors), every span of the store is
    still there afterwards, and a flag that was true is true. *)
Theorem flags_monotonic rt ops st st' evs s sp :
  run_ops rt ops st = Some (tt, st', evs) →
  spans st !! s = Some sp →
  ∃ sp', spans st' !! s = Some sp' ∧
         (done sp = true → done sp' = true) ∧
         (orphaned sp = true → orphaned sp' = true).
Proof.
  intros Hrun Hs.
  destruct (life_run_ops rt s ops _ _ _ _ Hrun) as (Hle & _).
  destruct (Hle _ _ Hs) as (sp' & ? & ? & ? & ?). by exists sp'.
Qed.

(** ** Lock discipline of the operations *)

(** C9, as the code has it.  In every run of operations of the core at
    most one span lock is held at a time, every lock taken is released,
    and the calls into Func, registry and observer code are made while no
    lock is held, with one exception: [orphan] calls the registry's
    [orphanedSpan(s)] while it holds the lock of [s] itself. *)
Theorem callbacks_outside_locks rt ops st st' evs :
  run_ops rt ops st = Some (tt, st', evs) →
  scan orphanedSpan_under_own_lock None evs = Some None.
Proof.
  revert st evs. induction ops as [|op ops IH]; intros st evs; simpl.
  - by intros [= _ <-].
  - intros H. apply bind_Some in H as ([] & st1 & e1 & e2 & H1 & H2 & ->).
    rewrite scan_app, (disc_run_op rt op _ _ _ _ H1). by eapply IH.
Qed.

(** C9, as stated, fails: [orphan] on a live span calls [orphanedSpan]
    between taking and releasing the lock of the span. *)
Lemma orphan_notifies_under_lock :
  run_op rt0 (OpOrphan 0) st_root
  = Some (tt,
          with_spans {[0 := mk_span 10 None false true ∅]} st_root,
          [EvLock 0; EvOrphanedSpan 7 0; EvUnlock 0]) ∧
  scan nothing_under_lock None [EvLock 0; EvOrphanedSpan 7 0; EvUnlock 0]
  = None.
Proof. split; [|reflexivity]. vm_compute. reflexivity. Qed.


Lemma flags_monotonic_witness :
  ∃ st' evs,
    run_ops rt0 ops_child_life st_orphaned = Some (tt, st', evs) ∧
    ∃ sp', spans st' !! 1 = Some sp' ∧
           (done (mk_span 11 (Some 0) false true ∅) = true →
            done sp' = true) ∧
           (orphaned (mk_span 11 (Some 0) false true ∅) = true →
            orphaned sp' = true).
Proof.
  eexists _, _. split; [vm_compute; reflexivity|].
  refine (flags_monotonic rt0 ops_child_life st_orphaned _ _ 1
            (mk_span 11 (Some 0) false true ∅) _ _).
  - vm_compute. reflexivity.
  - reflexivity.
Defined.

Lemma callbacks_outside_locks_witness :
  ∃ st' evs,
    run_ops rt0 ops_panicking_finish st_family = Some (tt, st', evs) ∧
    scan orphanedSpan_under_own_lock None evs = Some None.
Proof.
  eexists _, _. split; [vm_compute; reflexivity|].
  eapply (callbacks_outside_locks rt0 ops_panicking_finish st_family).
  vm_compute. reflexivity.
Defined.

(** ** The properties at concrete inputs *)

Lemma wf_st_family : wf st_family.
Proof.
  unfold wf, closed, st_family. split.
  - intros s sp Hs. cbn [spans] in Hs. apply lookup_insert_Some in Hs as [[<- <-]|[_ Hs]];
      [done|]. by apply lookup_singleton_Some in Hs as [<- <-].
  - intros s sp Hs. cbn [spans] in Hs. apply lookup_insert_Some in Hs as [[<- <-]|[_ Hs]].
    + split; [|split; [done|by exists 0]].
      intros c Hc. cbn [children mk_span] in Hc.
      apply elem_of_singleton in Hc as ->. by eexists.
    + apply lookup_singleton_Some in Hs as [<- <-].
      split; [|split; [|by exists 0]].
      * intros c Hc. cbn [children mk_span] in Hc.
        by apply elem_of_empty in Hc.
      * intros p [= <-]. by eexists.
Qed.

Lemma wf_st_family3 : wf st_family3.
Proof.
  unfold wf, closed, st_family3. split.
  - intros s sp Hs. cbn [spans] in Hs. apply lookup_insert_Some in Hs as [[<- <-]|[_ Hs]];
      [done|]. by apply lookup_singleton_Some in Hs as [<- <-].
  - intros s sp Hs. cbn [spans] in Hs. apply lookup_insert_Some in Hs as [[<- <-]|[_ Hs]].
    + split; [|split; [done|by exists 0]].
      intros c Hc. cbn [children mk_span] in Hc.
      apply elem_of_singleton in Hc as ->. by eexists.
    + apply lookup_singleton_Some in Hs as [<- <-].
      split; [|split; [|by exists 0]].
      * intros c Hc. cbn [children mk_span] in Hc.
        by apply elem_of_empty in Hc.
      * intros p [= <-]. by eexists.
Qed.

Lemma unlocked_st_late : unlocked (spans st_late).
Proof.
  unfold st_late.
  intros s sp Hs. cbn [spans] in Hs. apply lookup_insert_Some in Hs as [[<- <-]|[_ Hs]];
    [done|]. by apply lookup_singleton_Some in Hs as [<- <-].
Qed.

Lemma unlocked_st_annotated : unlocked (spans st_annotated).
Proof.
  intros s sp Hs. cbn [spans st_annotated] in Hs.
  by apply lookup_singleton_Some in Hs as [<- <-].
Qed.

Lemma ann_wf_st_annotated : ann_wf st_annotated.
Proof.
  split.
  - intros s sp Hs. cbn [spans st_annotated] in Hs.
    apply lookup_singleton_Some in Hs as [<- <-].
    split; [simpl; lia|]. simpl. eexists. split; [reflexivity|]. simpl. lia.
  - intros s1 s2 sp1 sp2 a H1 H2 _ _. cbn [spans st_annotated] in H1, H2.
    apply lookup_singleton_Some in H1 as [<- _].
    by apply lookup_singleton_Some in H2 as [<- _].
Qed.

Lemma exit_protocol_witness :
  ∃ st' tr,
    Traced.exit {| cl_s := 0; cl_observer := None |} None None 105%Z
      st_family
    = Some (Returned, st', tr) ∧
    exit {| cl_s := 0; cl_observer := None |} None None 105%Z st_family
    = Some (Returned, st', calls_of tr) ∧
    locked_accesses None tr = Some None ∧
    (∃ sp', spans st' !! 0 = Some sp' ∧ done sp' = true) ∧
    settled (spans st') 1.
Proof.
  destruct (exit_protocol {| cl_s := 0; cl_observer := None |} None None
              105%Z st_family (mk_span 10 None false false {[1]})
              eq_refl wf_st_family)
    as (st_mid & tro & st' & tr & _ & _ & Hrun & Hcalls & Hlocked & _ & Hch
        & _ & _ & Hdone & _).
  exists st', tr. split; [exact Hrun|]. split; [exact Hcalls|].
  split; [exact Hlocked|]. split; [exact Hdone|].
  apply Hch. simpl. by apply elem_of_singleton.
Defined.


Lemma observer_captured_at_start_witness :
  ∃ st1 evs1,
    newSpan rt0 (CtxSpan 0 background) fn0 [] 11%Z None 101%Z st_root3
    = Some ((1, {| cl_s := 1; cl_observer := Some 3 |}), st1, evs1) ∧
    ∃ t st3 evs3,
      exit {| cl_s := 1; cl_observer := Some 3 |} None None 105%Z
        (setObserver t (Some 9) st_family3)
      = Some (Returned, st3, evs3) ∧
      ∀ o x e p fin,
        EvObserverFinish o x e p fin ∈ evs3 ↔
        Some 3 = Some o ∧ x = 1 ∧ e = None ∧ p = false ∧ fin = 105%Z.
Proof.
  assert (∃ st1 evs1,
    newSpan rt0 (CtxSpan 0 background) fn0 [] 11%Z None 101%Z st_root3
    = Some ((1, {| cl_s := 1; cl_observer := Some 3 |}), st1, evs1))
    as (st1 & evs1 & Hnew) by (eexists _, _; vm_compute; reflexivity).
  exists st1, evs1. split; [exact Hnew|].
  destruct (observer_captured_at_start rt0 (CtxSpan 0 background) fn0 []
              11%Z None 101%Z st_root3 1
              {| cl_s := 1; cl_observer := Some 3 |} st1 evs1 st_family3
              (mk_span 11 (Some 0) false false ∅) (Some 9) None None 105%Z
              Hnew wf_st_family3 eq_refl)
    as (t & tr & _ & _ & _ & Hobs & _ & st3 & evs3 & Hrun & Hfin).
  exists t, st3, evs3. split; [exact Hrun|].
  simpl in Hobs. rewrite <- Hobs in Hfin. exact Hfin.
Defined.

Lemma addChild_orphans_late_child_witness :
  ∃ st' tr,
    Traced.addChild 0 1 st_late = Some (tt, st', tr) ∧
    addChild 0 1 st_late = Some (tt, st', calls_of tr) ∧
    locked_accesses None tr = Some None ∧
    ∃ csp', spans st' !! 1 = Some csp' ∧ orphaned csp' = true.
Proof.
  destruct (addChild_orphans_late_child rt0 st_late 0 1
              (mk_span 10 None true false ∅) (mk_span 11 None false false ∅)
              (CtxSpan 0 background) fn0 [] 12%Z 102%Z 2
              {| cl_s := 2; cl_observer := None |} st_late []
              eq_refl eq_refl unlocked_st_late)
    as ((st' & tr & Hrun & Hcalls & Hlocked & _ & _ & _ & Horph) & _).
  exists st', tr. split; [exact Hrun|]. split; [exact Hcalls|].
  split; [exact Hlocked|]. by apply Horph.
Defined.

Lemma span_context_lookup_witness :
  Span_Value 0 spanKey st_root = Some (ISpan (Some 0), st_root, []) ∧
  SpanFromCtx (CtxSpan 0 background) = Some (Some 0) ∧
  SpanFromCtx carrying0 = Some (Some 0).
Proof.
  destruct (span_context_lookup st_root 0 (mk_span 10 None false false ∅)
              (userKey 5) background carrying0 0 eq_refl eq_refl)
    as (H1 & _ & _ & _ & H2 & _ & H3).
  split; [exact H1|]. split; [exact H2|exact H3].
Defined.

Lemma Annotations_defensive_copy_witness :
  ∃ r st1,
    Annotations rt0 0 st_annotated = Some (r, st1, [EvLock 0; EvUnlock 0]) ∧
    slice_view st1 r = Some [ann_a] ∧
    ∀ r2 st2 e2,
      run_steps rt0 r steps_mutate_annotate st1 = Some (r2, st2, e2) →
      ∃ r3 st3,
        Annotations rt0 0 st2 = Some (r3, st3, [EvLock 0; EvUnlock 0]) ∧
        slice_view st3 r3 = Some ([ann_a] ++ [ann_b]).
Proof.
  destruct (Annotations_defensive_copy rt0 st_annotated 0 span_annotated
              steps_mutate_annotate eq_refl unlocked_st_annotated
              ann_wf_st_annotated)
    as (r & st1 & xs & Hrun & Hxs & Hv & _ & _ & Hlater).
  vm_compute in Hxs. injection Hxs as <-.
  exists r, st1. split; [exact Hrun|]. split; [exact Hv|].
  intros r2 st2 e2 Hsteps. by destruct (Hlater _ _ _ Hsteps) as (_ & ?).
Defined.

(** ** newSpan returns *)

Lemma resolve_returns rt ctx fn_ id_ trace_ st :
  ctx_ok st ctx trace_ →
  ∃ r st1 e1,
    resolve rt ctx fn_ id_ trace_ st = Some (r, st1, e1) ∧
    r.1.1 = embedded_ctx st ctx.
Proof.
  intros (Hsome & Hspan & Hcarried & _). unfold resolve, embedded_ctx.
  assert (Hmint : ∀ c, ∃ (r : context * option nat * option nat) st1 e1,
    bind (NewTrace id_) (λ t, observeTrace rt (scope_r fn_) t ;;;
                               ret (c, @None nat, Some t)) st
    = Some (r, st1, e1) ∧ r.1.1 = c).
  { intros c.
    rewrite (observeTrace_NewTrace rt (scope_r fn_) id_
               (λ t, (c, @None nat, Some t))).
    by eexists _, _, _. }
  destruct ctx as [|value| |p inner].
  - by destruct Hsome.
  - simpl. rewrite ret_bind_run.
    destruct (value spanKey) as [|[p|]|] eqn:Hv, trace_ as [t|];
      try (by eexists _, _, _); try apply Hmint.
    destruct (Hcarried p) as [psp Hp]; [|done|].
    { unfold ctx_span. simpl. by rewrite Hv. }
    rewrite (bind_run _ _ _ _ _ _ (get_span_run _ _ _ Hp)).
    by eexists _, _, _.
  - simpl. rewrite ret_bind_run.
    destruct trace_ as [t|]; [by eexists _, _, _|apply Hmint].
  - destruct (Hspan p inner eq_refl) as [psp Hp].
    rewrite (bind_run _ _ _ _ _ _ (get_span_run _ _ _ Hp)), Hp.
    destruct trace_ as [t|]; by eexists _, _, _.
Qed.

(** [newSpan], symbolically executed on a well-formed store. *)
Lemma newSpan_run rt ctx fn_ args_ id_ trace_ now st :
  wf st → ctx_ok st ctx trace_ →
  ∃ r st1 e1 t tr,
    resolve rt ctx fn_ id_ trace_ st = Some (r, st1, e1) ∧
    r.1.1 = embedded_ctx st ctx ∧
    r.2 = Some t ∧ traces st1 !! t = Some tr ∧
    let s := fresh (dom (spans st)) in
    let h2 := <[s := span_literal fn_ args_ id_ now r]> (spans st) in
    newSpan rt ctx fn_ args_ id_ trace_ now st
    = Some ((s, {| cl_s := s; cl_observer := observer tr |}),
            with_spans (link_spans s r.1.2 h2) st1,
            e1 ++ link_events fn_ s r.1.2 h2 ++
            observer_start_events (observer tr) s).
Proof.
  intros [Hu Hcl] Hok.
  destruct (resolve_returns rt ctx fn_ id_ trace_ st Hok)
    as (r & st1 & e1 & Hr & Hctx).
  pose proof (resolve_Some _ _ _ _ _ _ _ _ _ Hr)
    as (Hpar & Hsp & Har & Halloc & Hcase).
  destruct Hok as (_ & _ & Hcarried & Htrace).
  assert (∃ t tr, r.2 = Some t ∧ traces st1 !! t = Some tr)
    as (t & tr & Ht & Htr).
  { destruct trace_ as [t0|].
    - destruct Hcase as (-> & -> & _). destruct (Htrace t0 eq_refl) as [tr ?].
      by exists t0, tr.
    - destruct (ctx_span ctx) as [p|].
      + destruct Hcase as (psp & Hp & -> & -> & _).
        destruct (Hcl _ _ Hp) as (_ & _ & t & Ht & [tr Htr]).
        by exists t, tr.
      + destruct Hcase as (-> & _ & ->). eexists _, _. split; [done|].
        apply lookup_insert_eq. }
  exists r, st1, e1, t, tr. repeat (split; [done|]). intros s h2.
  unfold newSpan. rewrite (bind_run _ _ _ _ _ _ Hr). cbv zeta.
  assert (Hobs : getObserver r.2 st1 = Some (observer tr, st1, [])).
  { unfold getObserver. by rewrite Ht, Htr. }
  rewrite (bind_run _ _ _ _ _ _ Hobs).
  assert (Hnew : new_span (span_literal fn_ args_ id_ now r) st1
                 = Some (s, with_spans h2 st1, [])).
  { unfold new_span. subst s h2. by rewrite Hsp. }
  fold (span_literal fn_ args_ id_ now r).
  rewrite (bind_run _ _ _ _ _ _ Hnew).
  assert (Hu2 : unlocked h2) by (by apply unlocked_insert).
  assert (Hlink :
    match r.1.2 with
    | Some p =>
        psp <- get_span p ;;
        emit (EvFuncStart fn_ (Some (f psp))) ;;; addChild p s
    | None =>
        emit (EvFuncStart fn_ None) ;;; emit (EvRootSpanStart (scope_r fn_) s)
    end (with_spans h2 st1)
    = Some (tt, with_spans (link_spans s r.1.2 h2) st1,
            link_events fn_ s r.1.2 h2)).
  { unfold link_spans, link_events. destruct r.1.2 as [p|] eqn:Hp; [|done].
    assert (is_Some (spans st !! p)) as [psp Hpsp].
    { destruct trace_; [done|]. apply Hcarried; [|done]. congruence. }
    assert (Hne : s ≠ p).
    { intros Heq. apply (is_fresh (dom (spans st))). fold s. rewrite Heq.
      apply elem_of_dom. by eexists. }
    assert (Hp2 : h2 !! p = Some psp)
      by (subst h2; by rewrite lookup_insert_ne).
    rewrite (bind_run _ _ _ _ _ _
               (get_span_run p (with_spans h2 st1) psp Hp2)).
    rewrite emit_bind_run, Hp2.
    rewrite (addChild_run p s (with_spans h2 st1) psp Hp2 Hu2).
    - done.
    - intros _. simpl. subst h2. rewrite lookup_insert_eq. by eexists. }
  rewrite (bind_run _ _ _ _ _ _ Hlink). unfold observer_start_events.
  destruct (observer tr); simpl; by rewrite ?app_nil_r.
Qed.

Lemma orphan_fires_literal fn_ args_ id_ now r :
  orphan_fires (span_literal fn_ args_ id_ now r) = true.
Proof. done. Qed.

Lemma link_spans_new fn_ args_ id_ now r s h :
  (∀ p, r.1.2 = Some p → p ≠ s ∧ is_Some (h !! p)) →
  let lit := span_literal fn_ args_ id_ now r in
  link_spans s r.1.2 (<[s := lit]> h) !! s
  = Some (match r.1.2 with
          | Some p =>
              match h !! p with
              | Some psp => if done psp then set_orphaned true lit else lit
              | None => lit
              end
          | None => lit
          end).
Proof.
  intros Hp lit. unfold link_spans.
  destruct r.1.2 as [p|]; [|apply lookup_insert_eq].
  destruct (Hp p eq_refl) as [Hne [psp Hpsp]]. unfold addChild_spans.
  rewrite lookup_insert_ne, Hpsp by done.
  destruct (done psp).
  - rewrite lookup_alter_eq, lookup_alter_ne, lookup_insert_eq by done.
    done.
  - by rewrite lookup_alter_ne, lookup_insert_eq.
Qed.

(** X1.  On a well-formed store and with a usable context, [newSpan]
    returns a span at a fresh address whose fields are the arguments, with
    the context unwrapped once when it is itself a span, not done, without
    children or annotations, lock free; it is orphaned from the start
    exactly when its parent had already finished. *)
Theorem newSpan_returns_fresh_span rt ctx fn_ args_ id_ trace_ now st :
  wf st → ctx_ok st ctx trace_ →
  ∃ s cl st' evs sp',
    newSpan rt ctx fn_ args_ id_ trace_ now st = Some ((s, cl), st', evs) ∧
    cl_s cl = s ∧ spans st !! s = None ∧ spans st' !! s = Some sp' ∧
    id sp' = id_ ∧ start sp' = now ∧ f sp' = fn_ ∧ args sp' = args_ ∧
    Context sp' = embedded_ctx st ctx ∧
    mtx sp' = false ∧ done sp' = false ∧ children sp' = ∅ ∧
    annotations sp' = nil_slice ∧
    (orphaned sp' = true ↔
     ∃ p psp, parent sp' = Some p ∧ spans st !! p = Some psp ∧
              done psp = true).
Proof.
  intros Hwf Hok.
  destruct (newSpan_run rt ctx fn_ args_ id_ trace_ now st Hwf Hok)
    as (r & st1 & e1 & t & tr & Hr & Hctx & Ht & Htr & Hrun).
  cbv zeta in Hrun.
  set (s := fresh (dom (spans st))) in *.
  set (lit := span_literal fn_ args_ id_ now r) in *.
  apply resolve_Some in Hr as (Hpar & _ & _ & Halloc & _).
  assert (Hfresh : spans st !! s = None) by apply not_elem_of_dom, is_fresh.
  assert (Hp : ∀ p, r.1.2 = Some p → p ≠ s ∧ is_Some (spans st !! p)).
  { intros p Hp. assert (is_Some (spans st !! p)) as [psp Hpsp].
    { rewrite Hp in Hpar. destruct trace_; [done|]. by apply Halloc. }
    split; [|by eexists]. intros ->. by rewrite Hfresh in Hpsp. }
  pose proof (link_spans_new fn_ args_ id_ now r s (spans st) Hp) as Hs.
  cbv zeta in Hs. fold lit in Hs.
  eexists s, _, _, _, _. split; [exact Hrun|]. split; [done|].
  split; [done|]. split; [exact Hs|].
  assert (Hlit : ∀ sp', sp' = lit ∨ sp' = set_orphaned true lit →
            id sp' = id_ ∧ start sp' = now ∧ f sp' = fn_ ∧ args sp' = args_ ∧
            Context sp' = embedded_ctx st ctx ∧
            mtx sp' = false ∧ done sp' = false ∧ children sp' = ∅ ∧
            annotations sp' = nil_slice ∧ parent sp' = r.1.2).
  { intros sp' [->| ->]; simpl; by rewrite Hctx. }
  destruct r.1.2 as [p|] eqn:Hrp.
  - destruct (Hp p eq_refl) as [Hne [psp Hpsp]]. rewrite Hpsp.
    destruct (done psp) eqn:Hd.
    + destruct (Hlit (set_orphaned true lit)) as
        (?&?&?&?&?&?&?&?&?&?); [by right|].
      repeat (split; [assumption|]). split; [|done].
      intros _. by exists p, psp.
    + destruct (Hlit lit) as (?&?&?&?&?&?&?&?&?&?); [by left|].
      repeat (split; [assumption|]). split; [done|].
      intros (p' & psp' & Hpp & Hp' & Hd'). congruence.
  - destruct (Hlit lit) as (?&?&?&?&?&?&?&?&?&Hnone); [by left|].
    repeat (split; [assumption|]). split; [done|].
    intros (p' & psp' & Hpp & _). congruence.
Qed.

(** ** The store stays well-formed *)

Lemma closed_alter st x g :
  closed st →
  (∀ sp, parent (g sp) = parent sp ∧ trace (g sp) = trace sp ∧
         ∀ c, c ∈ children (g sp) →
              c ∈ children sp ∨ is_Some (spans st !! c)) →
  closed (with_spans (alter g x (spans st)) st).
Proof.
  intros Hcl Hg y yp'. cbn [spans traces with_spans].
  assert (Hdom : ∀ c, is_Some (spans st !! c) →
                      is_Some (alter g x (spans st) !! c)).
  { intros c Hc. rewrite lookup_alter. case_decide; [subst|done].
    by apply fmap_is_Some. }
  assert (Hold : ∀ yp, spans st !! y = Some yp →
            parent yp' = parent yp → trace yp' = trace yp →
            (∀ c, c ∈ children yp' →
                  c ∈ children yp ∨ is_Some (spans st !! c)) →
            (∀ c, c ∈ children yp' → is_Some (alter g x (spans st) !! c)) ∧
            (∀ p, parent yp' = Some p →
                  is_Some (alter g x (spans st) !! p)) ∧
            (∃ t, trace yp' = Some t ∧ is_Some (traces st !! t))).
  { intros yp Hy Hp Ht Hc. destruct (Hcl _ _ Hy) as (Hc0 & Hp0 & Ht0).
    split; [|split].
    - intros c Hin. apply Hdom. destruct (Hc c Hin); [by apply Hc0|done].
    - intros p Hpp. apply Hdom, Hp0. congruence.
    - by rewrite Ht. }
  rewrite lookup_alter. case_decide; subst.
  - intros Hy. apply fmap_Some in Hy as (yp & Hy & ->).
    destruct (Hg yp) as (Hp & Ht & Hc). by eapply Hold.
  - intros Hy. eapply Hold; eauto.
Qed.

Lemma closed_insert st s sp :
  closed st →
  (∀ c, c ∈ children sp → c = s ∨ is_Some (spans st !! c)) →
  (∀ p, parent sp = Some p → p = s ∨ is_Some (spans st !! p)) →
  (∃ t, trace sp = Some t ∧ is_Some (traces st !! t)) →
  closed (with_spans (<[s := sp]> (spans st)) st).
Proof.
  intros Hcl Hc Hp Ht y yp'. cbn [spans traces with_spans].
  assert (Hdom : ∀ c, c = s ∨ is_Some (spans st !! c) →
                      is_Some (<[s := sp]> (spans st) !! c)).
  { intros c Hcs. rewrite lookup_insert_is_Some.
    destruct (decide (s = c)); [by left|right].
    split; [done|]. by destruct Hcs. }
  rewrite lookup_insert. case_decide; subst.
  - intros [= <-]. split; [|split; [|done]].
    + intros c Hin. by apply Hdom, Hc.
    + intros p Hpp. by apply Hdom, Hp.
  - intros Hy. destruct (Hcl _ _ Hy) as (Hc0 & Hp0 & Ht0).
    split; [|split; [|done]].
    + intros c Hin. apply Hdom. right. by apply Hc0.
    + intros p Hpp. apply Hdom. right. by apply Hp0.
Qed.

Lemma closed_more_traces st st1 :
  closed st → spans st1 = spans st →
  (∀ t, is_Some (traces st !! t) → is_Some (traces st1 !! t)) →
  closed st1.
Proof.
  intros Hcl Hsp Htr y yp. rewrite Hsp. intros Hy.
  destruct (Hcl _ _ Hy) as (Hc & Hp & t & Ht & Htt).
  split; [done|]. split; [done|]. exists t. split; [done|]. by apply Htr.
Qed.

Lemma closed_orphan_all l st :
  closed st → closed (with_spans (orphan_all l (spans st)) st).
Proof.
  revert st. induction l as [|c l IH]; intros st Hcl; simpl.
  - by rewrite with_spans_id.
  - assert (H1 : closed (with_spans (alter orphan_span c (spans st)) st)).
    { apply closed_alter; [done|]. intros sp. unfold orphan_span.
      destruct (orphan_fires sp); simpl; auto. }
    exact (IH _ H1).
Qed.

Lemma unlocked_link_spans s parent_ h :
  unlocked h → unlocked (link_spans s parent_ h).
Proof.
  intros Hu. unfold link_spans, addChild_spans.
  destruct parent_ as [p|]; [|done]. destruct (h !! p) as [psp|]; [|done].
  assert (unlocked (alter (add_child s) p h))
    by (by apply unlocked_alter; [|intros []]).
  destruct (done psp); [|done].
  apply unlocked_alter; [done|apply orphan_span_mtx].
Qed.

Lemma wf_link_spans rt ctx fn_ args_ id_ trace_ now st r st1 e1 t tr :
  wf st →
  resolve rt ctx fn_ id_ trace_ st = Some (r, st1, e1) →
  r.2 = Some t → traces st1 !! t = Some tr →
  let s := fresh (dom (spans st)) in
  wf (with_spans
        (link_spans s r.1.2
           (<[s := span_literal fn_ args_ id_ now r]> (spans st))) st1).
Proof.
  intros [Hu Hcl] Hr Ht Htr s.
  set (lit := span_literal fn_ args_ id_ now r) in *.
  apply resolve_Some in Hr as (Hpar & Hsp & Har & Halloc & Hcase).
  assert (Hcl1 : closed st1).
  { apply (closed_more_traces st); [done..|]. intros t0 Ht0.
    destruct trace_ as [t1|]; [by destruct Hcase as (_ & -> & _)|].
    destruct (ctx_span ctx).
    - by destruct Hcase as (? & _ & _ & -> & _).
    - destruct Hcase as (_ & _ & ->). rewrite lookup_insert_is_Some.
      destruct (decide (fresh (dom (traces st)) = t0)); [by left|by right]. }
  assert (Hp : ∀ p, r.1.2 = Some p → is_Some (spans st !! p)).
  { intros p Hp. rewrite Hp in Hpar. destruct trace_; [done|].
    by apply Halloc. }
  assert (Hcl2 : closed (with_spans (<[s := lit]> (spans st1)) st1)).
  { apply closed_insert; [done|..].
    - intros c Hc. by apply elem_of_empty in Hc.
    - intros p Hpp. right. rewrite Hsp. by apply Hp.
    - exists t. split; [done|]. by eexists. }
  rewrite Hsp in Hcl2. split.
  - cbn [spans with_spans]. apply unlocked_link_spans.
    by apply unlocked_insert.
  - unfold link_spans. destruct r.1.2 as [p|] eqn:Hrp; [|done].
    destruct (Hp p eq_refl) as [psp Hpsp].
    assert (Hne : s ≠ p).
    { intros Heq. apply (is_fresh (dom (spans st))). fold s. rewrite Heq.
      apply elem_of_dom. by eexists. }
    unfold addChild_spans. rewrite lookup_insert_ne, Hpsp by done.
    set (st2 := with_spans (<[s := lit]> (spans st)) st1) in *.
    assert (Hcl3 : closed (with_spans (alter (add_child s) p (spans st2)) st2)).
    { apply closed_alter; [done|]. intros sp. split; [done|]. split; [done|].
      intros c Hc. simpl in Hc. unfold spanBag_Add in Hc.
      apply elem_of_union in Hc as [Hc|Hc]; [|by left].
      apply elem_of_singleton in Hc as ->. right. simpl.
      rewrite lookup_insert_eq. by eexists. }
    destruct (done psp); [|exact Hcl3].
    apply (closed_alter _ s orphan_span) in Hcl3; [exact Hcl3|].
    intros sp. unfold orphan_span. destruct (orphan_fires sp); simpl; auto.
Qed.

(** X2.  [newSpan] keeps the store well-formed: it returns with no lock
    held, and every child, parent and trace pointer of every span, the new
    one included, points into the store. *)
Theorem newSpan_keeps_wf rt ctx fn_ args_ id_ trace_ now st :
  wf st → ctx_ok st ctx trace_ →
  ∃ s cl st' evs,
    newSpan rt ctx fn_ args_ id_ trace_ now st = Some ((s, cl), st', evs) ∧
    wf st'.
Proof.
  intros Hwf Hok.
  destruct (newSpan_run rt ctx fn_ args_ id_ trace_ now st Hwf Hok)
    as (r & st1 & e1 & t & tr & Hr & Hctx & Ht & Htr & Hrun).
  eexists _, _, _, _. split; [exact Hrun|].
  by eapply wf_link_spans.
Qed.

Lemma closed_exit_spans s sp st :
  closed st → spans st !! s = Some sp →
  closed (with_spans (exit_spans s sp (spans st)) st).
Proof.
  intros Hcl Hs. unfold exit_spans.
  assert (H1 : closed (with_spans (<[s := set_done true sp]> (spans st)) st)).
  { rewrite <- (alter_lookup (set_done true) _ _ _ Hs).
    apply closed_alter; [done|]. intros x. simpl. auto. }
  apply (closed_orphan_all (spanBag_Iterate (children sp))) in H1.
  cbn [spans with_spans] in H1. destruct (parent sp) as [p|]; [|done].
  apply (closed_alter _ p (remove_child s)) in H1; [exact H1|].
  intros x. split; [done|]. split; [done|]. intros c Hc. left.
  simpl in Hc. unfold spanBag_Remove in Hc.
  by apply elem_of_difference in Hc as [? _].
Qed.

Lemma unlocked_exit_spans s sp h :
  unlocked h → h !! s = Some sp → unlocked (exit_spans s sp h).
Proof.
  intros Hu Hs. unfold exit_spans.
  assert (unlocked (orphan_all (spanBag_Iterate (children sp))
                      (<[s := set_done true sp]> h))).
  { apply unlocked_orphan_all, unlocked_insert; [done|]. apply (Hu _ _ Hs). }
  destruct (parent sp); [|done]. by apply unlocked_alter; [|intros []].
Qed.

(** X3.  The finish closure returns on every span of a well-formed store
    and leaves the store well-formed. *)
Theorem exit_keeps_wf cl errptr rec finish st sp :
  wf st → spans st !! cl_s cl = Some sp →
  ∃ st' evs,
    exit cl errptr rec finish st = Some (exit_outcome rec, st', evs) ∧
    wf st'.
Proof.
  intros [Hu Hcl] Hs. destruct (Hcl _ _ Hs) as (Hch & Hpar & _).
  eexists _, _. split; [by apply exit_run|]. split.
  - by apply unlocked_exit_spans.
  - by apply closed_exit_spans.
Qed.

(** ** What the finish closure changes *)

Lemma orphan_span_idem sp : orphan_span (orphan_span sp) = orphan_span sp.
Proof. unfold orphan_span at 1. by rewrite orphan_span_fires. Qed.

Lemma orphan_all_lookup l h c :
  orphan_all l h !! c
  = if decide (c ∈ l) then orphan_span <$> h !! c else h !! c.
Proof.
  revert h. induction l as [|x l IH]; intros h.
  - change (orphan_all [] h) with h.
    by rewrite decide_False by apply not_elem_of_nil.
  - change (orphan_all (x :: l) h) with (orphan_all l (alter orphan_span x h)).
    rewrite IH, lookup_alter.
    destruct (decide (c ∈ l)) as [Hl|Hl], (decide (x = c)) as [->|Hne].
    + rewrite decide_True by (by left).
      destruct (h !! c); simpl; [|done]. by rewrite orphan_span_idem.
    + by rewrite decide_True by (by right).
    + by rewrite decide_True by (by left).
    + rewrite decide_False; [done|].
      intros Hin. apply elem_of_cons in Hin as [?|?]; [congruence|done].
Qed.

Lemma exit_spans_lookup s sp h x :
  exit_spans s sp h !! x
  = (if decide (parent sp = Some x) then remove_child s else Datatypes.id) <$>
    ((if decide (x ∈ children sp) then orphan_span else Datatypes.id) <$>
     (<[s := set_done true sp]> h !! x)).
Proof.
  unfold exit_spans, spanBag_Iterate.
  set (h1 := <[s := set_done true sp]> h).
  assert (Ho : orphan_all (elements (children sp)) h1 !! x
               = (if decide (x ∈ children sp) then orphan_span else Datatypes.id) <$>
                 h1 !! x).
  { rewrite orphan_all_lookup.
    destruct (decide (x ∈ elements (children sp))) as [Hin|Hin];
      rewrite elem_of_elements in Hin;
      (destruct (decide (x ∈ children sp)); [|by rewrite option_fmap_id]);
      done. }
  destruct (parent sp) as [p|].
  - destruct (decide (Some p = Some x)) as [[= ->]|Hne].
    + by rewrite lookup_alter_eq, Ho.
    + rewrite lookup_alter_ne, Ho by congruence. by rewrite option_fmap_id.
  - destruct (decide (None = Some x)); [done|]. by rewrite option_fmap_id.
Qed.

Lemma exit_spans_dom s sp h :
  h !! s = Some sp → dom (exit_spans s sp h) = dom h.
Proof.
  intros Hs. apply set_eq. intros y.
  rewrite !elem_of_dom, exit_spans_lookup.
  rewrite !fmap_is_Some, lookup_insert_is_Some.
  destruct (decide (s = y)) as [<-|Hne]; [|tauto].
  split; [by eexists|by left].
Qed.

Lemma exit_spans_fields s sp h x xp :
  h !! s = Some sp → h !! x = Some xp →
  ∃ xp',
    exit_spans s sp h !! x = Some xp' ∧
    same_identity xp xp' ∧ mtx xp' = mtx xp ∧
    annotations xp' = annotations xp ∧
    done xp' = (if decide (x = s) then true else done xp) ∧
    orphaned xp'
    = orphaned xp ||
      (bool_decide (x ∈ children sp ∧ x ≠ s) && negb (done xp)) ∧
    children xp'
    = (if decide (parent sp = Some x) then children xp ∖ {[s]}
       else children xp).
Proof.
  intros Hs Hx.
  set (g1 := if decide (x ∈ children sp) then orphan_span else Datatypes.id).
  set (g2 := if decide (parent sp = Some x) then remove_child s
             else Datatypes.id).
  set (x1 := if decide (x = s) then set_done true sp else xp).
  exists (g2 (g1 x1)).
  split.
  { rewrite exit_spans_lookup, lookup_insert. subst x1.
    destruct (decide (s = x)) as [<-|Hne].
    - by destruct (decide (s = s)).
    - destruct (decide (x = s)); [congruence|]. by rewrite Hx. }
  assert (Hxs : x = s → xp = sp) by (intros ->; congruence).
  assert (H2 : ∀ y, same_identity y (g2 y) ∧ mtx (g2 y) = mtx y ∧
                    annotations (g2 y) = annotations y ∧
                    done (g2 y) = done y ∧ orphaned (g2 y) = orphaned y).
  { intros y. subst g2. destruct (decide (parent sp = Some x));
      by repeat split. }
  assert (H1 : ∀ y, same_identity y (g1 y) ∧ mtx (g1 y) = mtx y ∧
                    annotations (g1 y) = annotations y ∧
                    done (g1 y) = done y ∧ children (g1 y) = children y ∧
                    orphaned (g1 y)
                    = orphaned y ||
                      (bool_decide (x ∈ children sp) && negb (done y))).
  { intros y. subst g1. destruct (decide (x ∈ children sp)).
    - rewrite bool_decide_eq_true_2 by done.
      unfold orphan_span, orphan_fires.
      destruct (done y) eqn:Hd, (orphaned y) eqn:Ho; simpl;
        by rewrite ?Hd, ?Ho.
    - rewrite bool_decide_eq_false_2 by done. simpl.
      by rewrite orb_false_r. }
  assert (H0 : same_identity xp x1 ∧ mtx x1 = mtx xp ∧
               annotations x1 = annotations xp ∧
               orphaned x1 = orphaned xp ∧ children x1 = children xp ∧
               done x1 = (if decide (x = s) then true else done xp)).
  { subst x1. destruct (decide (x = s)) as [Heq|Hne]; [|by repeat split].
    rewrite <- (Hxs Heq). by repeat split. }
  destruct (H2 (g1 x1)) as (I2 & M2 & A2 & D2 & O2).
  destruct (H1 x1) as (I1 & M1 & A1 & D1 & C1 & O1).
  destruct H0 as (I0 & M0 & A0 & O0 & C0 & D0).
  assert (C2 : children (g2 (g1 x1))
               = (if decide (parent sp = Some x) then children xp ∖ {[s]}
                  else children xp)).
  { subst g2. destruct (decide (parent sp = Some x)); simpl;
      unfold spanBag_Remove; congruence. }
  clearbody x1 g1 g2.
  split.
  { eapply same_identity_trans; [|exact I2].
    eapply same_identity_trans; [exact I0|exact I1]. }
  split; [congruence|]. split; [congruence|]. split; [congruence|].
  split; [|exact C2].
  rewrite O2, O1, O0, D0. destruct (decide (x = s)) as [Heq|Hne].
  - rewrite (bool_decide_eq_false_2 (_ ∧ _)) by tauto.
    by rewrite andb_false_r.
  - destruct (decide (x ∈ children sp)).
    + by rewrite !bool_decide_eq_true_2 by done.
    + by rewrite !bool_decide_eq_false_2 by tauto.
Qed.

(** X4.  The finish closure of [s] changes three things and nothing
    else: it sets [done] on [s], it sets [orphaned] on the direct children
    of [s] that are not done, and it takes [s] out of the child set of its
    parent.  Grandchildren and all other spans, the traces and the
    annotation arrays are left as they were, and no span is added or
    removed. *)
Theorem exit_changes_family_only cl errptr rec finish st sp x xp :
  wf st → spans st !! cl_s cl = Some sp → spans st !! x = Some xp →
  ∃ st' evs xp',
    exit cl errptr rec finish st = Some (exit_outcome rec, st', evs) ∧
    traces st' = traces st ∧ arrays st' = arrays st ∧
    dom (spans st') = dom (spans st) ∧
    spans st' !! x = Some xp' ∧
    same_identity xp xp' ∧ mtx xp' = mtx xp ∧
    annotations xp' = annotations xp ∧
    done xp' = (if decide (x = cl_s cl) then true else done xp) ∧
    orphaned xp'
    = orphaned xp ||
      (bool_decide (x ∈ children sp ∧ x ≠ cl_s cl) && negb (done xp)) ∧
    children xp'
    = (if decide (parent sp = Some x) then children xp ∖ {[cl_s cl]}
       else children xp).
Proof.
  intros [Hu Hcl] Hs Hx. destruct (Hcl _ _ Hs) as (Hch & Hpar & _).
  destruct (exit_spans_fields _ _ _ _ _ Hs Hx) as (xp' & Hx' & Hfields).
  exists (with_spans (exit_spans (cl_s cl) sp (spans st)) st),
    (exit_events cl sp errptr rec finish (spans st)), xp'.
  split; [by apply exit_run|]. split; [done|]. split; [done|].
  split; [by apply exit_spans_dom|]. by split.
Qed.

(** ** Start and finish composed *)

Lemma remove_add_child s sp :
  s ∉ children sp → remove_child s (add_child s sp) = sp.
Proof.
  intros Hs. destruct sp as [m i st0 fn0' tr pa ar cx d o ch an].
  unfold remove_child, add_child, spanBag_Remove, spanBag_Add, set_children.
  simpl in *.
  f_equal. apply set_eq. intros y.
  rewrite elem_of_difference, elem_of_union, elem_of_singleton.
  split; [tauto|]. intros Hy. split; [by right|]. by intros ->.
Qed.

Lemma remove_child_absent s sp : s ∉ children sp → remove_child s sp = sp.
Proof.
  intros Hs. destruct sp as [m i st0 fn0' tr pa ar cx d o ch an].
  unfold remove_child, spanBag_Remove, set_children. simpl in *.
  f_equal. apply set_eq. intros y.
  rewrite elem_of_difference, elem_of_singleton.
  split; [tauto|]. intros Hy. split; [done|]. by intros ->.
Qed.

Lemma set_done_done sp : done sp = true → set_done true sp = sp.
Proof. destruct sp; simpl; by intros ->. Qed.

Lemma orphan_span_settled sp : orphan_fires sp = false → orphan_span sp = sp.
Proof. unfold orphan_span. by intros ->. Qed.

(** X5.  A span started under a parent that is not done, and finished
    before that parent, leaves every other span of the store exactly as it
    was, the child set of the parent included; the span itself stays in the
    store, done and not orphaned, and the registry is never called. *)
Theorem start_finish_round_trip rt ctx fn_ args_ id_ now errptr rec finish
    st p psp :
  wf st → ctx_ok st ctx None → ctx_span ctx = Some p →
  spans st !! p = Some psp → done psp = false →
  ∃ s cl st1 evs1 st2 evs2 sp2,
    newSpan rt ctx fn_ args_ id_ None now st = Some ((s, cl), st1, evs1) ∧
    exit cl errptr rec finish st1 = Some (exit_outcome rec, st2, evs2) ∧
    spans st !! s = None ∧ spans st2 !! s = Some sp2 ∧
    parent sp2 = Some p ∧ done sp2 = true ∧ orphaned sp2 = false ∧
    (∀ x, x ≠ s → spans st2 !! x = spans st !! x) ∧
    traces st2 = traces st ∧ arrays st2 = arrays st ∧
    Forall (λ e, is_registry_call e = false) (evs1 ++ evs2).
Proof.
  intros Hwf Hok Hcs Hp Hd.
  destruct (newSpan_run rt ctx fn_ args_ id_ None now st Hwf Hok)
    as (r & st1 & e1 & t & tr & Hr & Hctx & Ht & Htr & Hrun).
  pose proof (wf_link_spans rt ctx fn_ args_ id_ None now st r st1 e1 t tr
                Hwf Hr Ht Htr) as Hwf1.
  cbv zeta in Hrun, Hwf1.
  set (s := fresh (dom (spans st))) in *.
  set (lit := span_literal fn_ args_ id_ now r) in *.
  apply resolve_Some in Hr as (Hpar & _ & _ & _ & Hcase).
  rewrite Hcs in Hpar, Hcase. destruct Hcase as (psp' & Hp' & _ & -> & ->).
  rewrite Hpar in *. clear psp' Hp'.
  assert (Hfresh : spans st !! s = None) by apply not_elem_of_dom, is_fresh.
  assert (Hne : s ≠ p) by (intros Heq; congruence).
  set (h2 := <[s := lit]> (spans st)) in *.
  assert (Hh2p : h2 !! p = Some psp)
    by (subst h2; by rewrite lookup_insert_ne).
  assert (Hlink : link_spans s (Some p) h2 = alter (add_child s) p h2).
  { unfold link_spans, addChild_spans. by rewrite Hh2p, Hd. }
  rewrite Hlink in Hrun, Hwf1.
  set (st1 := with_spans (alter (add_child s) p h2) st) in *.
  assert (Hs1 : spans st1 !! s = Some lit).
  { subst st1 h2. cbn [spans with_spans].
    by rewrite lookup_alter_ne, lookup_insert_eq. }
  destruct Hwf1 as [Hu1 Hcl1]. destruct (Hcl1 _ _ Hs1) as (Hch1 & Hpar1 & _).
  set (cl := {| cl_s := s; cl_observer := observer tr |}) in *.
  pose proof (exit_run cl errptr rec finish st1 lit Hs1 Hu1 Hch1 Hpar1)
    as Hexit.
  assert (Hnotin : s ∉ children psp).
  { intros Hin. destruct Hwf as [_ Hcl]. destruct (Hcl _ _ Hp) as (Hch & _).
    destruct (Hch _ Hin) as [? ?]. congruence. }
  assert (Hlook : ∀ x, exit_spans s lit (spans st1) !! x
                       = if decide (x = s) then Some (set_done true lit)
                         else spans st !! x).
  { intros x. rewrite exit_spans_lookup.
    destruct (decide (x ∈ children lit)) as [Hin|_];
      [by apply elem_of_empty in Hin|].
    rewrite option_fmap_id, lookup_insert.
    destruct (decide (s = x)) as [<-|Hsx].
    - destruct (decide (parent lit = Some s)) as [Heq|_].
      + simpl in Heq. rewrite Hpar in Heq. congruence.
      + by destruct (decide (s = s)).
    - destruct (decide (x = s)); [congruence|].
      subst st1 h2. cbn [spans with_spans].
      destruct (decide (parent lit = Some x)) as [Heq|Hpx].
      + simpl in Heq. rewrite Hpar in Heq. injection Heq as <-.
        rewrite lookup_alter_eq, lookup_insert_ne, Hp by done. simpl.
        by rewrite remove_add_child.
      + simpl in Hpx. rewrite Hpar in Hpx.
        rewrite option_fmap_id, lookup_alter_ne, lookup_insert_ne;
          [done|done|congruence]. }
  eexists s, cl, st1, _, _, _, (set_done true lit).
  split; [exact Hrun|]. split; [exact Hexit|]. split; [done|].
  cbn [spans traces arrays with_spans].
  split; [by rewrite Hlook, decide_True|]. split; [by simpl|].
  split; [done|]. split; [done|]. split.
  { intros x Hx. by rewrite Hlook, decide_False. }
  split; [done|]. split; [done|].
  rewrite !Forall_app. split; [split; [constructor|split]|].
  - unfold link_events, addChild_events. rewrite Hh2p, Hd.
    by repeat constructor.
  - unfold observer_start_events. destruct (observer tr); by repeat constructor.
  - unfold exit_events, exit_registry_events, exit_observer_events,
      spanBag_Iterate.
    change (children lit) with (∅ : gset nat). rewrite elements_empty.
    change (parent lit) with r.1.2. rewrite Hpar.
    change (orphaned lit) with false.
    destruct (cl_observer cl), rec; by repeat constructor.
Qed.

Lemma orphan_all_events_notifies l h c csp :
  c ∈ l → h !! c = Some csp → orphan_fires csp = true →
  EvOrphanedSpan (scope_r (f csp)) c ∈ orphan_all_events l h.
Proof.
  revert h. induction l as [|x l IH]; intros h Hc Hcsp Hf.
  - by apply elem_of_nil in Hc.
  - cbn [orphan_all_events]. apply elem_of_app.
    destruct (decide (x = c)) as [->|Hne].
    + left. rewrite Hcsp. unfold orphan_events. rewrite Hf.
      right. by left.
    + right. apply IH; [|by rewrite lookup_alter_ne|done].
      apply elem_of_cons in Hc as [?|?]; [congruence|done].
Qed.

Lemma notifications_pos c r evs :
  EvOrphanedSpan r c ∈ evs → 0 < notifications c evs.
Proof.
  intros Hin. apply list_elem_of_split in Hin as (l1 & l2 & ->).
  rewrite notifications_app. unfold notifications at 2. simpl.
  rewrite bool_decide_eq_true_2 by done. simpl. lia.
Qed.

Lemma orphan_all_settled l h :
  (∀ c y, c ∈ l → h !! c = Some y → orphan_fires y = false) →
  orphan_all l h = h ∧
  ∀ r c, EvOrphanedSpan r c ∉ orphan_all_events l h.
Proof.
  induction l as [|x l IH]; intros Hl.
  - split; [done|]. intros r c Hin. by apply elem_of_nil in Hin.
  - assert (Hx : alter orphan_span x h = h).
    { apply map_eq. intros y. rewrite lookup_alter.
      destruct (decide (x = y)) as [<-|]; [|done].
      destruct (h !! x) as [xp|] eqn:Hxp; [|done]. simpl.
      rewrite orphan_span_settled; [done|]. eapply Hl; [by left|done]. }
    destruct IH as [IH1 IH2].
    { intros c y Hc. apply Hl. by right. }
    change (orphan_all (x :: l) h) with (orphan_all l (alter orphan_span x h)).
    cbn [orphan_all_events]. rewrite Hx. split; [done|].
    intros r c Hin. apply elem_of_app in Hin as [Hin|Hin];
      [|by apply IH2 in Hin].
    destruct (h !! x) as [xp|] eqn:Hxp; [|by apply elem_of_nil in Hin].
    unfold orphan_events in Hin.
    rewrite (Hl x xp) in Hin by (by left || done). simpl in Hin.
    repeat (apply elem_of_cons in Hin as [Hin|Hin]; [discriminate|]).
    by apply elem_of_nil in Hin.
Qed.

(** X6.  When a parent finishes before its child (a child that is neither
    done nor orphaned), the finish of the parent reports the child to the
    registry as orphaned exactly once, and the later finish of the child
    reports the end of an orphan, without a second orphan report. *)
Theorem parent_first_then_child clp clc errp recp finp errc recc finc
    st psp csp :
  wf st →
  spans st !! cl_s clp = Some psp → spans st !! cl_s clc = Some csp →
  cl_s clc ∈ children psp → cl_s clc ≠ cl_s clp →
  parent csp = Some (cl_s clp) → done csp = false → orphaned csp = false →
  ∃ st1 evs1 st2 evs2,
    exit clp errp recp finp st = Some (exit_outcome recp, st1, evs1) ∧
    exit clc errc recc finc st1 = Some (exit_outcome recc, st2, evs2) ∧
    EvOrphanedSpan (scope_r (f csp)) (cl_s clc) ∈ evs1 ∧
    notifications (cl_s clc) evs1 = 1 ∧
    EvOrphanEnd (scope_r (f csp)) (cl_s clc) ∈ evs2 ∧
    notifications (cl_s clc) evs2 = 0.
Proof.
  intros Hwf Hp Hc Hin Hne Hpar Hd Ho. pose proof Hwf as [Hu Hcl].
  set (p := cl_s clp) in *. set (c := cl_s clc) in *.
  destruct (Hcl _ _ Hp) as (Hchp & Hparp & _).
  pose proof (exit_run clp errp recp finp st psp Hp Hu Hchp Hparp) as Hrun1.
  set (st1 := with_spans (exit_spans p psp (spans st)) st) in *.
  assert (Hu1 : unlocked (spans st1)) by (by apply unlocked_exit_spans).
  assert (Hcl1 : closed st1) by (by apply closed_exit_spans).
  destruct (exit_spans_fields p psp (spans st) c csp Hp Hc)
    as (csp1 & Hc1 & Hid & _ & _ & Hd1 & Ho1 & _).
  destruct Hid as (_ & _ & Hf & _ & Hpar1 & _).
  rewrite bool_decide_eq_true_2, Hd, Ho in Ho1 by done. simpl in Ho1.
  destruct (Hcl1 _ _ Hc1) as (Hchc & Hparc & _).
  pose proof (exit_run clc errc recc finc st1 csp1 Hc1 Hu1 Hchc Hparc)
    as Hrun2.
  assert (Hset : settled (spans st1) c).
  { exists csp1. split; [done|]. apply orphan_fires_false. by right. }
  destruct (life_exit c clc errc recc finc _ _ _ _ Hrun2) as (_ & Hz & _).
  destruct (life_exit c clp errp recp finp _ _ _ _ Hrun1) as (_ & _ & Hle & _).
  assert (Hev1 : EvOrphanedSpan (scope_r (f csp)) c
                 ∈ exit_events clp psp errp recp finp (spans st)).
  { unfold exit_events. apply elem_of_app. right. apply elem_of_app. left.
    apply orphan_all_events_notifies.
    - by apply elem_of_elements.
    - by rewrite lookup_insert_ne.
    - unfold orphan_fires. by rewrite Hd, Ho. }
  eexists _, _, _, _. split; [exact Hrun1|]. split; [exact Hrun2|].
  split; [exact Hev1|]. split.
  { apply notifications_pos in Hev1. lia. }
  split; [|by apply Hz].
  unfold exit_events, exit_registry_events.
  rewrite Hpar1, Hpar, Ho1, Hf. rewrite !elem_of_app. right. right. left.
  right. by left.
Qed.

(** X7.  The finish closure is not guarded against a second call.  Called
    again, it returns and leaves the store as the first call left it, but
    it reports the end of the function, the end of the root span or of the
    orphan, and the observer's finish a second time, with the arguments of
    the second call; no span is reported as orphaned by it. *)
Theorem finish_twice cl errptr rec finish errptr' rec' finish' st sp :
  wf st → spans st !! cl_s cl = Some sp →
  ∃ st1 evs1 evs2,
    exit cl errptr rec finish st = Some (exit_outcome rec, st1, evs1) ∧
    exit cl errptr' rec' finish' st1 = Some (exit_outcome rec', st1, evs2) ∧
    EvFuncEnd (f sp) (exit_err errptr') (exit_panicked rec')
      (Time_Sub finish' (start sp)) ∈ evs2 ∧
    (parent sp = None → EvRootSpanEnd (scope_r (f sp)) (cl_s cl) ∈ evs2) ∧
    (is_Some (parent sp) → orphaned sp = true →
     EvOrphanEnd (scope_r (f sp)) (cl_s cl) ∈ evs2) ∧
    (∀ o, cl_observer cl = Some o →
          EvObserverFinish o (cl_s cl) (exit_err errptr')
            (exit_panicked rec') finish' ∈ evs2) ∧
    (∀ r c, EvOrphanedSpan r c ∉ evs2).
Proof.
  intros Hwf Hs. pose proof Hwf as [Hu Hcl]. set (s := cl_s cl) in *.
  destruct (Hcl _ _ Hs) as (Hch & Hpar & _).
  pose proof (exit_run cl errptr rec finish st sp Hs Hu Hch Hpar) as Hrun1.
  set (st1 := with_spans (exit_spans s sp (spans st)) st) in *.
  assert (Hu1 : unlocked (spans st1)) by (by apply unlocked_exit_spans).
  assert (Hcl1 : closed st1) by (by apply closed_exit_spans).
  destruct (exit_spans_fields s sp (spans st) s sp Hs Hs)
    as (sp1 & Hs1 & Hid & _ & _ & Hd1 & Ho1 & Hc1).
  destruct Hid as (_ & Hstart & Hf & _ & Hpar1 & _).
  rewrite decide_True in Hd1 by done.
  rewrite (bool_decide_eq_false_2 (_ ∧ _)), orb_false_r in Ho1 by tauto.
  destruct (Hcl1 _ _ Hs1) as (Hch1 & Hparc1 & _).
  pose proof (exit_run cl errptr' rec' finish' st1 sp1 Hs1 Hu1 Hch1 Hparc1)
    as Hrun2. fold s in Hrun2.
  assert (Hins : <[s := set_done true sp1]> (spans st1) = spans st1).
  { rewrite set_done_done by done. by apply insert_id. }
  assert (Hsub : ∀ c, c ∈ children sp1 → c ∈ children sp).
  { intros c. rewrite Hc1. destruct (decide (parent sp = Some s)); [|done].
    by intros [? _]%elem_of_difference. }
  assert (Hsettled : ∀ c y, c ∈ elements (children sp1) →
            spans st1 !! c = Some y → orphan_fires y = false).
  { intros c y Hin%elem_of_elements Hy. apply Hsub in Hin.
    destruct (Hch _ Hin) as [y0 Hy0].
    destruct (exit_spans_fields s sp (spans st) c y0 Hs Hy0)
      as (y' & Hy' & _ & _ & _ & Hdy & Hoy & _).
    assert (y' = y) as -> by (subst st1; simpl in Hy; congruence).
    apply orphan_fires_false. destruct (decide (c = s)) as [->|Hcs].
    - by left.
    - rewrite bool_decide_eq_true_2 in Hoy by done. rewrite Hdy, Hoy.
      destruct (done y0), (orphaned y0); simpl; auto. }
  destruct (orphan_all_settled _ _ Hsettled) as [Hall Hnone].
  assert (Hsame : exit_spans s sp1 (spans st1) = spans st1).
  { unfold exit_spans, spanBag_Iterate. rewrite Hins, Hall.
    destruct (parent sp1) as [p|] eqn:Hp1; [|done].
    apply map_eq. intros y. rewrite lookup_alter.
    destruct (decide (p = y)) as [<-|]; [|done].
    destruct (spans st1 !! p) as [pp1|] eqn:Hpp1; [|done]. simpl.
    rewrite remove_child_absent; [done|].
    destruct (Hpar p) as [pp0 Hpp0]; [congruence|].
    destruct (exit_spans_fields s sp (spans st) p pp0 Hs Hpp0)
      as (pp' & Hpp' & _ & _ & _ & _ & _ & Hcp).
    assert (pp' = pp1) as -> by (subst st1; simpl in Hpp1; congruence).
    rewrite Hcp, decide_True by congruence.
    intros [_ Hn]%elem_of_difference. apply Hn. by apply elem_of_singleton. }
  rewrite Hsame, with_spans_id in Hrun2.
  eexists st1, _, _. split; [exact Hrun1|]. split; [exact Hrun2|].
  unfold exit_events, exit_registry_events, exit_observer_events,
    spanBag_Iterate.
  fold s. rewrite Hins, Hf, Hstart, Hpar1, Ho1.
  split; [by left|]. split.
  { intros ->. rewrite !elem_of_app. right. right. left. by left. }
  split.
  { intros [p ->] ->. rewrite !elem_of_app. right. right. left.
    right. by left. }
  split.
  { intros o ->. rewrite !elem_of_app. right. right. right. left. by left. }
  intros r c Hin.
  repeat (apply elem_of_cons in Hin as [Hin|Hin]; [discriminate|]).
  apply elem_of_app in Hin as [Hin|Hin]; [by apply Hnone in Hin|].
  apply elem_of_app in Hin as [Hin|Hin].
  { destruct (parent sp), (orphaned sp);
      repeat (apply elem_of_cons in Hin as [Hin|Hin]; [discriminate|]);
      by apply elem_of_nil in Hin. }
  apply elem_of_app in Hin as [Hin|Hin].
  { destruct (cl_observer cl);
      repeat (apply elem_of_cons in Hin as [Hin|Hin]; [discriminate|]);
      by apply elem_of_nil in Hin. }
  destruct rec';
    repeat (apply elem_of_cons in Hin as [Hin|Hin]; [discriminate|]);
    by apply elem_of_nil in Hin.
Qed.

Global Instance reads_only_compositional : Compositional reads_only.
Proof.
  split.
  - intros st. by repeat split.
  - intros st1 e1 st2 e2 st3 (S1 & T1 & A1 & E1) (S2 & T2 & A2 & E2).
    split; [congruence|]. split; [congruence|].
    split; [by etrans|]. by apply Forall_app.
Qed.

Lemma reads_only_bracket {A} s (k : Span → M A) :
  (∀ sp, preserves reads_only (k sp)) →
  preserves reads_only (Lock s ;;; sp <- get_span s ;; Unlock s ;;; k sp).
Proof.
  intros Hk st a st' evs H.
  apply bind_Some in H as ([] & st1 & e1 & e2 & HL & H & ->).
  apply Lock_Some in HL as (sp & Hs & Hm & -> & ->).
  apply bind_Some in H as (sp1 & st2 & e2' & e3 & HG & H & ->).
  apply get_span_Some in HG as (Hsp1 & -> & ->).
  apply bind_Some in H as ([] & st3 & e3' & e4 & HU & H & ->).
  apply Unlock_Some in HU as (sp2 & Hsp2 & -> & ->).
  cbn [spans with_spans] in Hsp1, Hsp2.
  rewrite lookup_insert_eq in Hsp1, Hsp2.
  injection Hsp1 as <-. injection Hsp2 as <-.
  assert (Heq : with_spans
                  (<[s := set_mtx false (set_mtx true sp)]>
                     (spans (with_spans (<[s := set_mtx true sp]> (spans st))
                               st)))
                  (with_spans (<[s := set_mtx true sp]> (spans st)) st) = st)
    by apply (critical_section_id s st sp Hs Hm).
  rewrite Heq in H.
  destruct (Hk _ _ _ _ _ H) as (S1 & T1 & A1 & E1).
  split; [done|]. split; [done|]. split; [done|].
  simpl. by repeat constructor.
Qed.

Lemma reads_only_append_nil rt xs : preserves reads_only (append rt nil_slice xs).
Proof.
  intros st r st' evs. unfold append.
  destruct (append_in rt (arrays st) nil_slice xs) as [[sl' h']|] eqn:Happ;
    [|done].
  intros [= _ <- <-].
  destruct (append_in_frame _ _ _ _ _ _ Happ) as (_ & Hsame & _).
  split; [done|]. split; [done|]. split; [|constructor].
  cbn [arrays with_arrays]. apply map_subseteq_spec. intros a arr Ha.
  rewrite Hsame; [done|done|]. apply elem_of_dom. by eexists.
Qed.

Lemma reads_only_visit c : preserves reads_only (emit (EvVisit c)).
Proof.
  intros st [] st' evs [= <- <-]. split; [done|]. split; [done|].
  split; [done|]. by repeat constructor.
Qed.

Lemma reads_only_run_op rt op :
  is_accessor op = true → preserves reads_only (run_op rt op).
Proof.
  destruct op; try discriminate; intros _; cbn [run_op].
  - apply preserves_void; [apply _|].
    apply (reads_only_bracket s
             (λ sp, xs <- read_slice (annotations sp) ;;
                    append rt nil_slice xs)).
    intros sp. apply preserves_bind; [apply _|apply preserves_read_slice, _|].
    intros xs. apply reads_only_append_nil.
  - apply preserves_void; [apply _|].
    apply (reads_only_bracket s (λ sp, ret (orphaned sp))).
    intros sp. apply preserves_ret, _.
  - apply (reads_only_bracket s
             (λ sp, loaded <- load_spans
                      (remove_dups (spanBag_Iterate (children sp))) ;;
                    for_each (merge_sort spanSorter_le loaded)
                      (λ c, emit (EvVisit c.1)))).
    intros sp. apply preserves_bind; [apply _|apply preserves_load_spans, _|].
    intros loaded. apply preserves_for_each; [apply _|].
    intros c. apply reads_only_visit.
  - unfold Duration. pres_auto.
  - unfold Start. pres_auto.
  - unfold Span_Value. pres_auto.
  - unfold String_. pres_auto.
  - unfold Args. pres_auto.
  - unfold Id. pres_auto.
  - unfold Func_. pres_auto.
  - unfold Trace_. pres_auto.
  - unfold Parent. pres_auto.
Qed.

(** X8.  The accessors ([Annotations], [Orphaned], [Children], [Duration],
    [Start], [Value], [String], [Args], [Id], [Func], [Trace], [Parent])
    only read: after any run of them every span and every trace is exactly
    as before, lock words included, every array that existed has its
    contents, and the only calls logged are their own lock operations and
    the callback of [Children]. *)
Theorem accessors_read_only rt ops st st' evs :
  Forall (λ op, is_accessor op = true) ops →
  run_ops rt ops st = Some (tt, st', evs) →
  spans st' = spans st ∧ traces st' = traces st ∧
  arrays st ⊆ arrays st' ∧
  Forall (λ e, is_accessor_event e = true) evs.
Proof.
  intros Hops. revert st evs.
  induction Hops as [|op ops Hop Hops IH]; intros st evs; simpl.
  - intros [= <- <-]. by repeat split.
  - intros H. apply bind_Some in H as ([] & st1 & e1 & e2 & H1 & H2 & ->).
    eapply (comp_trans (R := reads_only)).
    + by eapply (reads_only_run_op rt op).
    + by apply IH.
Qed.

(** X9.  No operation returns with a lock held: when no lock is held
    before a run of operations, none is held after it, on old and new
    spans alike. *)
Theorem no_lock_left_held rt ops st st' evs s sp' :
  run_ops rt ops st = Some (tt, st', evs) →
  (∀ x xp, spans st !! x = Some xp → mtx xp = false) →
  spans st' !! s = Some sp' → mtx sp' = false.
Proof.
  intros Hrun Hu Hs.
  by eapply (unlocked_run_ops rt ops st st' evs Hrun Hu).
Qed.

(** X10.  The fields fixed at construction never change: after any run of
    operations a span still has its id, start time, function, trace,
    parent, arguments and embedded context. *)
Theorem identity_fields_immutable rt ops st st' evs s sp :
  run_ops rt ops st = Some (tt, st', evs) →
  spans st !! s = Some sp →
  ∃ sp', spans st' !! s = Some sp' ∧
         id sp' = id sp ∧ start sp' = start sp ∧ f sp' = f sp ∧
         trace sp' = trace sp ∧ parent sp' = parent sp ∧
         args sp' = args sp ∧ Context sp' = Context sp.
Proof.
  intros Hrun Hs.
  destruct (life_run_ops rt s ops _ _ _ _ Hrun) as (Hle & _).
  destruct (Hle _ _ Hs) as (sp' & Hs' & Hid & _). by exists sp'.
Qed.

(** ** Children *)

Global Instance spanSorter_le_total : Total spanSorter_le.
Proof. intros x y. unfold spanSorter_le. lia. Qed.

Global Instance spanSorter_le_trans : Transitive spanSorter_le.
Proof. intros x y z. unfold spanSorter_le. lia. Qed.

Lemma load_spans_run l st :
  (∀ c, c ∈ l → is_Some (spans st !! c)) →
  ∃ loaded,
    load_spans l st = Some (loaded, st, []) ∧ loaded.*1 = l ∧
    Forall (λ x, spans st !! x.1 = Some x.2) loaded.
Proof.
  induction l as [|c l IH]; intros Hl.
  - exists []. by repeat split.
  - destruct (Hl c) as [sp Hc]; [by left|].
    destruct IH as (loaded & Hrun & Hfst & Hall).
    { intros x Hx. apply Hl. by right. }
    exists ((c, sp) :: loaded). split; [|split].
    + cbn [load_spans].
      rewrite (bind_run _ _ _ _ _ _ (get_span_run _ _ _ Hc)).
      by rewrite (bind_run _ _ _ _ _ _ Hrun).
    + by rewrite fmap_cons, Hfst.
    + by constructor.
Qed.

Lemma for_each_emit_run {A} (l : list A) (g : A → Event) st :
  for_each l (λ c, emit (g c)) st = Some (tt, st, g <$> l).
Proof.
  induction l as [|x l IH]; [done|]. cbn [for_each].
  rewrite (bind_run _ _ st tt st [g x]) by done. by rewrite IH.
Qed.

(** X11.  [Children] calls the callback exactly once for every child the
    span has at that moment, in the order of the sorter (start time, then
    id), after it has released the lock of the span; it changes nothing
    in the store. *)
Theorem Children_visits_each_child_once s st sp :
  wf st → spans st !! s = Some sp →
  ∃ visited : list (ptr * Span),
    Children s st
    = Some (tt, st, [EvLock s; EvUnlock s] ++ (EvVisit <$> visited.*1)) ∧
    visited.*1 ≡ₚ elements (children sp) ∧ NoDup visited.*1 ∧
    Forall (λ x, spans st !! x.1 = Some x.2) visited ∧
    StronglySorted spanSorter_le visited.
Proof.
  intros [Hu Hcl] Hs. pose proof (Hu _ _ Hs) as Hm.
  destruct (Hcl _ _ Hs) as (Hch & _).
  set (l := remove_dups (spanBag_Iterate (children sp))).
  assert (Hperm : l ≡ₚ elements (children sp)).
  { apply NoDup_Permutation;
      [apply NoDup_remove_dups|apply NoDup_elements|].
    intros x. apply elem_of_remove_dups. }
  destruct (load_spans_run l st) as (loaded & Hload & Hfst & Hall).
  { intros c Hc. apply Hch. rewrite Hperm in Hc. by apply elem_of_elements in Hc. }
  exists (merge_sort spanSorter_le loaded).
  assert (Hp2 : (merge_sort spanSorter_le loaded).*1 ≡ₚ l).
  { rewrite <- Hfst. apply fmap_Permutation, merge_sort_Permutation. }
  split; [|split; [by rewrite Hp2|split; [|split]]].
  - unfold Children.
    rewrite (bind_run _ _ _ _ _ _ (Lock_run _ _ _ Hs Hm)).
    set (st1 := with_spans _ st).
    assert (H1 : spans st1 !! s = Some (set_mtx true sp))
      by (subst st1; simpl; apply lookup_insert_eq).
    rewrite (bind_run _ _ _ _ _ _ (get_span_run _ _ _ H1)). cbv zeta.
    rewrite (bind_run _ _ _ _ _ _ (Unlock_run _ _ _ H1)).
    subst st1. cbn [spans with_spans].
    replace (with_spans _ (with_spans _ st)) with st
      by (symmetry; apply (critical_section_id _ _ _ Hs Hm)).
    change (children (set_mtx true sp)) with (children sp). fold l.
    rewrite (bind_run _ _ _ _ _ _ Hload).
    rewrite (for_each_emit_run _ (λ c, EvVisit c.1)).
    by rewrite <- list_fmap_compose.
  - rewrite Hp2. apply NoDup_remove_dups.
  - by rewrite merge_sort_Permutation.
  - apply StronglySorted_merge_sort; apply _.
Qed.

(** ** Values through a new span *)

(** X12.  A span answers the reserved key with itself.  For any other key
    a new span answers as the context it was started from: as the parent
    span answers when that context is a span (whose embedded context the
    new span takes over), and as the context itself otherwise; a lookup
    that fails on the context fails on the span. *)
Theorem newSpan_inherits_values rt ctx fn_ args_ id_ trace_ now st :
  wf st → ctx_ok st ctx trace_ →
  ∃ s cl st' evs,
    newSpan rt ctx fn_ args_ id_ trace_ now st = Some ((s, cl), st', evs) ∧
    Span_Value s spanKey st' = Some (ISpan (Some s), st', []) ∧
    ∀ key, key ≠ spanKey →
      Span_Value s key st'
      = match ctx with
        | CtxSpan p _ => Span_Value p key st'
        | _ => lift (ctx_Value ctx key) st'
        end.
Proof.
  intros Hwf Hok.
  destruct (newSpan_run rt ctx fn_ args_ id_ trace_ now st Hwf Hok)
    as (r & st1 & e1 & t & tr & Hr & Hctx & Ht & Htr & Hrun).
  cbv zeta in Hrun.
  set (s := fresh (dom (spans st))) in *.
  set (lit := span_literal fn_ args_ id_ now r) in *.
  pose proof (newSpan_Some _ _ _ _ _ _ _ _ _ _ _ _ Hrun)
    as (r' & st1' & e1' & e3 & t' & tr' & Hr' & _ & _ & _ & _ & _ & _ & _
        & Hle & _).
  rewrite Hr in Hr'. injection Hr' as <- <- <-.
  apply resolve_Some in Hr as (Hpar & Hsp & _ & Halloc & _).
  rewrite Hsp in Hle. fold lit in Hle.
  assert (Hfresh : spans st !! s = None) by apply not_elem_of_dom, is_fresh.
  destruct (Hle s lit) as (sp' & Hs' & Hid & _);
    [fold s; apply lookup_insert_eq|].
  destruct Hid as (_ & _ & _ & _ & _ & _ & HC).
  change (Context lit) with r.1.1 in HC. rewrite Hctx in HC.
  set (st' := with_spans _ st1) in *.
  assert (Hval : ∀ x xp key, key ≠ spanKey → spans st' !! x = Some xp →
            Span_Value x key st' = lift (ctx_Value (Context xp) key) st').
  { intros x xp key Hkey Hx. unfold Span_Value. rewrite decide_False by done.
    rewrite (bind_run _ _ _ _ _ _ (get_span_run _ _ _ Hx)).
    destruct (lift _ _) as [[[? ?] ?]|]; by rewrite ?app_nil_l. }
  eexists s, {| cl_s := s; cl_observer := observer tr |}, st', _.
  split; [exact Hrun|]. split; [done|].
  intros key Hkey. rewrite (Hval s sp' key Hkey Hs'), HC.
  destruct Hok as (_ & Hspan & _).
  destruct ctx as [|value| |p inner]; cbn [embedded_ctx]; try done.
  destruct (Hspan p inner eq_refl) as [psp Hp]. rewrite Hp.
  destruct (Hle p psp) as (psp' & Hp' & Hidp & _).
  { rewrite lookup_insert_ne; [done|]. fold s. congruence. }
  destruct Hidp as (_ & _ & _ & _ & _ & _ & HCp).
  by rewrite (Hval p psp' key Hkey Hp'), HCp.
Qed.

(** ** SpanFromCtx *)


(** ** Annotate *)

(** X14.  [Annotate] returns on every span of a well-formed store, done or
    not: the span gains exactly the given annotation, at the end; its
    flags, its children and every other span are as before, and the
    annotations of every other span read as before. *)
Theorem Annotate_appends rt s name val st sp :
  spans st !! s = Some sp → mtx sp = false → ann_wf st →
  ∃ st' sl',
    Annotate rt s name val st = Some (tt, st', [EvLock s; EvUnlock s]) ∧
    ann_wf st' ∧ traces st' = traces st ∧
    spans st' = <[s := set_annotations sl' sp]> (spans st) ∧
    ∀ x xs, span_annotations st x = Some xs →
            span_annotations st' x
            = Some (xs ++ if decide (s = x)
                          then [{| Name := name; Value := val |}] else []).
Proof.
  intros Hs Hm Hwf. pose proof Hwf as [Hok _].
  destruct (slice_view_in_is_Some _ _ (Hok _ _ Hs)) as [old Hold].
  destruct (Annotate_run rt s name val st sp old Hs Hm (Hok _ _ Hs) Hold)
    as (sl' & h' & Happ & Hrun & Hv & Hok').
  destruct (ann_Annotate rt s name val st _ _ _ Hwf Hrun)
    as (Hwf' & _ & Hgrow & _).
  eexists _, sl'. split; [exact Hrun|]. split; [done|]. split; [done|].
  split; [done|]. exact Hgrow.
Qed.

(** ** The calls of a start *)

(** X15.  [newSpan] makes its calls in a fixed order.  Under a parent:
    the start of the function with the function of the parent, then the
    registration with the parent under the lock of the parent, then, when
    the parent was already done, the orphan report for the new span under
    its own lock.  Without a parent: first the observation of a trace
    minted for it, if none was given or inherited, then the start of the
    function without a parent and the start of a root span.  The start
    call of the observer, if there is one, comes last. *)
Theorem newSpan_start_protocol rt ctx fn_ args_ id_ trace_ now st :
  wf st → ctx_ok st ctx trace_ →
  ∃ s cl st' evs,
    newSpan rt ctx fn_ args_ id_ trace_ now st = Some ((s, cl), st', evs) ∧
    evs =
      match trace_, ctx_span ctx with
      | None, Some p =>
          match spans st !! p with
          | Some psp =>
              [EvFuncStart fn_ (Some (f psp)); EvLock p; EvUnlock p] ++
              (if done psp
               then [EvLock s; EvOrphanedSpan (scope_r fn_) s; EvUnlock s]
               else [])
          | None => []
          end
      | None, None =>
          [EvObserveTrace (scope_r fn_) (fresh (dom (traces st)));
           EvFuncStart fn_ None; EvRootSpanStart (scope_r fn_) s]
      | Some _, _ => [EvFuncStart fn_ None; EvRootSpanStart (scope_r fn_) s]
      end ++
      match cl_observer cl with
      | Some o => [EvObserverStart o s]
      | None => []
      end.
Proof.
  intros Hwf Hok.
  destruct (newSpan_run rt ctx fn_ args_ id_ trace_ now st Hwf Hok)
    as (r & st1 & e1 & t & tr & Hr & Hctx & Ht & Htr & Hrun).
  cbv zeta in Hrun.
  set (s := fresh (dom (spans st))) in *.
  set (lit := span_literal fn_ args_ id_ now r) in *.
  eexists s, _, _, _. split; [exact Hrun|].
  cbn [cl_observer]. unfold observer_start_events.
  rewrite app_assoc. f_equal.
  apply resolve_Some in Hr as (Hpar & _ & _ & Halloc & Hcase).
  assert (Hfresh : spans st !! s = None) by apply not_elem_of_dom, is_fresh.
  rewrite Hpar. destruct trace_ as [t0|].
  { by destruct Hcase as (_ & _ & ->). }
  destruct (ctx_span ctx) as [p|] eqn:Hcs.
  - destruct Hcase as (psp & Hp & _ & _ & ->). rewrite Hp.
    assert (Hne : s ≠ p) by congruence.
    unfold link_events, addChild_events.
    rewrite lookup_insert_ne, Hp by done. simpl.
    destruct (done psp); [|done].
    by rewrite lookup_alter_ne, lookup_insert_eq by done.
  - by destruct Hcase as (_ & -> & _).
Qed.

(** ** The accessors of a new span *)

(** X16.  What the accessors return on a span that has just been started
    is what [newSpan] was given: [Id], [Start], [Func] and [Args] return
    the id, the start time, the function and the formatted arguments,
    [Duration] the time elapsed since that start, [Parent] the span of the
    context unless a trace was given, and [Trace] a trace of the store:
    the given one if one was given. *)
Theorem accessors_return_construction_values rt ctx fn_ args_ id_ trace_
    now st :
  wf st → ctx_ok st ctx trace_ →
  ∃ s cl st' evs t,
    newSpan rt ctx fn_ args_ id_ trace_ now st = Some ((s, cl), st', evs) ∧
    Id s st' = Some (id_, st', []) ∧
    Start s st' = Some (now, st', []) ∧
    Func_ s st' = Some (fn_, st', []) ∧
    Args rt s st' = Some (Sprintf_arg rt <$> args_, st', []) ∧
    (∀ now', Duration s now' st' = Some (Time_Sub now' now, st', [])) ∧
    Parent s st'
    = Some (match trace_ with Some _ => None | None => ctx_span ctx end,
            st', []) ∧
    Trace_ s st' = Some (Some t, st', []) ∧
    is_Some (traces st' !! t) ∧
    (∀ t0, trace_ = Some t0 → t = t0).
Proof.
  intros Hwf Hok.
  destruct (newSpan_run rt ctx fn_ args_ id_ trace_ now st Hwf Hok)
    as (r & st1 & e1 & t & tr & Hr & Hctx & Ht & Htr & Hrun).
  cbv zeta in Hrun.
  set (s := fresh (dom (spans st))) in *.
  set (lit := span_literal fn_ args_ id_ now r) in *.
  pose proof (newSpan_Some _ _ _ _ _ _ _ _ _ _ _ _ Hrun)
    as (r' & st1' & e1' & e3 & t' & tr' & Hr' & _ & _ & _ & _ & _ & _ & _
        & Hle & _).
  rewrite Hr in Hr'. injection Hr' as <- <- <-.
  apply resolve_Some in Hr as (Hpar & Hsp & _ & _ & Hcase).
  rewrite Hsp in Hle. fold lit in Hle.
  set (st' := with_spans _ st1) in *.
  destruct (Hle s lit) as (sp' & Hs' & Hid & _);
    [fold s; apply lookup_insert_eq|].
  destruct Hid as (Hi & Hst & Hf & Htrc & Hp & Ha & _).
  simpl in Hi, Hst, Hf, Htrc, Hp, Ha.
  assert (Hget : ∀ {A} (g : Span → A),
            (sp <- get_span s ;; ret (g sp)) st' = Some (g sp', st', [])).
  { intros A g. by rewrite (bind_run _ _ _ _ _ _ (get_span_run _ _ _ Hs')). }
  eexists s, _, st', _, t. split; [exact Hrun|].
  unfold Id, Start, Func_, Args, Duration, Parent, Trace_.
  split; [by rewrite Hget, Hi|]. split; [by rewrite Hget, Hst|].
  split; [by rewrite Hget, Hf|]. split; [by rewrite Hget, Ha|].
  split.
  { intros now'. by rewrite (Hget _ (λ sp, Time_Sub now' (start sp))), Hst. }
  split; [by rewrite Hget, Hp, Hpar|]. split; [by rewrite Hget, Htrc, Ht|].
  split; [by exists tr|].
  intros t0 ->. destruct Hcase as (Ht0 & _). congruence.
Qed.

(** ** The properties above on concrete stores *)

Lemma ctx_ok_family : ctx_ok st_family (CtxSpan 0 background) None.
Proof.
  split; [by eexists|]. split; [|split; [|done]].
  - intros p inner [= <- _]. by eexists.
  - intros p [= <-] _. by eexists.
Qed.

Lemma newSpan_returns_fresh_span_witness :
  ∃ s cl st' evs sp',
    newSpan rt0 (CtxSpan 0 background) fn0 [] 12%Z None 102%Z st_family
    = Some ((s, cl), st', evs) ∧
    spans st' !! s = Some sp' ∧ Context sp' = background ∧
    done sp' = false ∧ children sp' = ∅.
Proof.
  destruct (newSpan_returns_fresh_span rt0 (CtxSpan 0 background) fn0 []
              12%Z None 102%Z st_family wf_st_family ctx_ok_family)
    as (s & cl & st' & evs & sp' & Hrun & _ & _ & Hs & _ & _ & _ & _ & HC
        & _ & Hd & Hc & _).
  exists s, cl, st', evs, sp'. by repeat split.
Defined.

Lemma newSpan_keeps_wf_witness :
  ∃ s cl st' evs,
    newSpan rt0 (CtxSpan 0 background) fn0 [] 12%Z None 102%Z st_family
    = Some ((s, cl), st', evs) ∧ wf st'.
Proof.
  exact (newSpan_keeps_wf rt0 (CtxSpan 0 background) fn0 [] 12%Z None 102%Z
           st_family wf_st_family ctx_ok_family).
Defined.

Lemma exit_keeps_wf_witness :
  ∃ st' evs,
    exit {| cl_s := 0; cl_observer := None |} None None 105%Z st_family
    = Some (Returned, st', evs) ∧ wf st'.
Proof.
  exact (exit_keeps_wf {| cl_s := 0; cl_observer := None |} None None 105%Z
           st_family (mk_span 10 None false false {[1]}) wf_st_family
           eq_refl).
Defined.

Lemma exit_changes_family_only_witness :
  ∃ st' evs xp',
    exit {| cl_s := 0; cl_observer := None |} None None 105%Z st_family
    = Some (Returned, st', evs) ∧
    spans st' !! 1 = Some xp' ∧ done xp' = false ∧ orphaned xp' = true ∧
    children xp' = ∅.
Proof.
  destruct (exit_changes_family_only {| cl_s := 0; cl_observer := None |}
              None None 105%Z st_family (mk_span 10 None false false {[1]})
              1 (mk_span 11 (Some 0) false false ∅) wf_st_family eq_refl
              eq_refl)
    as (st' & evs & xp' & Hrun & _ & _ & _ & Hx & _ & _ & _ & Hd & Ho & Hc).
  exists st', evs, xp'. split; [exact Hrun|]. split; [exact Hx|].
  split; [exact Hd|]. split; [|exact Hc].
  rewrite Ho. vm_compute. reflexivity.
Defined.

Lemma start_finish_round_trip_witness :
  ∃ s cl st1 evs1 st2 evs2,
    newSpan rt0 (CtxSpan 0 background) fn0 [] 12%Z None 102%Z st_family
    = Some ((s, cl), st1, evs1) ∧
    exit cl None None 105%Z st1 = Some (Returned, st2, evs2) ∧
    spans st2 !! 0 = spans st_family !! 0 ∧
    spans st2 !! 1 = spans st_family !! 1.
Proof.
  destruct (start_finish_round_trip rt0 (CtxSpan 0 background) fn0 [] 12%Z
              102%Z None None 105%Z st_family 0
              (mk_span 10 None false false {[1]}) wf_st_family ctx_ok_family
              eq_refl eq_refl eq_refl)
    as (s & cl & st1 & evs1 & st2 & evs2 & sp2 & Hnew & Hexit & Hfresh & _
        & _ & _ & _ & Hsame & _).
  exists s, cl, st1, evs1, st2, evs2. split; [exact Hnew|].
  split; [exact Hexit|].
  split; apply Hsame; intros <-; vm_compute in Hfresh; discriminate Hfresh.
Defined.

Lemma parent_first_then_child_witness :
  ∃ st1 evs1 st2 evs2,
    exit {| cl_s := 0; cl_observer := None |} None None 105%Z st_family
    = Some (Returned, st1, evs1) ∧
    exit {| cl_s := 1; cl_observer := None |} None None 106%Z st1
    = Some (Returned, st2, evs2) ∧
    EvOrphanedSpan 7 1 ∈ evs1 ∧ EvOrphanEnd 7 1 ∈ evs2.
Proof.
  destruct (parent_first_then_child {| cl_s := 0; cl_observer := None |}
              {| cl_s := 1; cl_observer := None |} None None 105%Z None None
              106%Z st_family (mk_span 10 None false false {[1]})
              (mk_span 11 (Some 0) false false ∅) wf_st_family eq_refl
              eq_refl)
    as (st1 & evs1 & st2 & evs2 & H1 & H2 & Ho & _ & He & _).
  - change (1 ∈ ({[1]} : gset nat)). by apply elem_of_singleton.
  - discriminate.
  - reflexivity.
  - reflexivity.
  - reflexivity.
  - by exists st1, evs1, st2, evs2.
Defined.

Lemma finish_twice_witness :
  ∃ st1 evs1 evs2,
    exit {| cl_s := 0; cl_observer := None |} None None 105%Z st_family
    = Some (Returned, st1, evs1) ∧
    exit {| cl_s := 0; cl_observer := None |} None None 107%Z st1
    = Some (Returned, st1, evs2) ∧
    EvFuncEnd fn0 None false 7%Z ∈ evs2 ∧ EvRootSpanEnd 7 0 ∈ evs2.
Proof.
  destruct (finish_twice {| cl_s := 0; cl_observer := None |} None None
              105%Z None None 107%Z st_family
              (mk_span 10 None false false {[1]}) wf_st_family eq_refl)
    as (st1 & evs1 & evs2 & H1 & H2 & Hf & Hr & _).
  exists st1, evs1, evs2. split; [exact H1|]. split; [exact H2|].
  split; [exact Hf|]. by apply Hr.
Defined.

Lemma accessors_read_only_witness :
  ∃ st' evs,
    run_ops rt0 ops_read st_family = Some (tt, st', evs) ∧
    spans st' = spans st_family ∧ traces st' = traces st_family.
Proof.
  eexists _, _. split; [vm_compute; reflexivity|].
  refine (let H := accessors_read_only rt0 ops_read st_family _ _ _ _ in
          conj (proj1 H) (proj1 (proj2 H))).
  - by repeat constructor.
  - vm_compute. reflexivity.
Defined.

Lemma no_lock_left_held_witness :
  ∃ st' evs,
    run_ops rt0 ops_orphan_finish st_family = Some (tt, st', evs) ∧
    ∃ sp', spans st' !! 1 = Some sp' ∧ mtx sp' = false.
Proof.
  eexists _, _. split; [vm_compute; reflexivity|].
  eexists. split; [vm_compute; reflexivity|].
  refine (no_lock_left_held rt0 ops_orphan_finish st_family _ _ 1 _ _ _ _).
  - vm_compute. reflexivity.
  - exact (proj1 wf_st_family).
  - vm_compute. reflexivity.
Defined.

Lemma identity_fields_immutable_witness :
  ∃ st' evs,
    run_ops rt0 ops_orphan_finish st_family = Some (tt, st', evs) ∧
    ∃ sp', spans st' !! 1 = Some sp' ∧ id sp' = 11%Z ∧
           parent sp' = Some 0.
Proof.
  assert (∃ st' evs,
            run_ops rt0 ops_orphan_finish st_family = Some (tt, st', evs))
    as (st' & evs & Hrun) by (eexists _, _; vm_compute; reflexivity).
  destruct (identity_fields_immutable rt0 ops_orphan_finish st_family st' evs
              1 (mk_span 11 (Some 0) false false ∅) Hrun eq_refl)
    as (sp' & Hs & Hid & _ & _ & _ & Hp & _).
  exists st', evs. split; [exact Hrun|].
  exists sp'. split; [exact Hs|]. split; [exact Hid|exact Hp].
Defined.

Lemma Children_visits_each_child_once_witness :
  ∃ visited : list (ptr * Span),
    Children 0 st_family
    = Some (tt, st_family,
            [EvLock 0; EvUnlock 0] ++ (EvVisit <$> visited.*1)) ∧
    visited.*1 ≡ₚ elements ({[1]} : gset nat).
Proof.
  destruct (Children_visits_each_child_once 0 st_family
              (mk_span 10 None false false {[1]}) wf_st_family eq_refl)
    as (visited & Hrun & Hperm & _).
  exists visited. split; [exact Hrun|exact Hperm].
Defined.

Lemma newSpan_inherits_values_witness :
  ∃ s cl st' evs,
    newSpan rt0 (CtxSpan 0 background) fn0 [] 12%Z None 102%Z st_family
    = Some ((s, cl), st', evs) ∧
    Span_Value s (userKey 5) st' = Span_Value 0 (userKey 5) st'.
Proof.
  destruct (newSpan_inherits_values rt0 (CtxSpan 0 background) fn0 [] 12%Z
              None 102%Z st_family wf_st_family ctx_ok_family)
    as (s & cl & st' & evs & Hrun & _ & Hval).
  exists s, cl, st', evs. split; [exact Hrun|]. by apply Hval.
Defined.

Lemma Annotate_appends_witness :
  ∃ st',
    Annotate rt0 0 "b" "2" st_annotated
    = Some (tt, st', [EvLock 0; EvUnlock 0]) ∧
    span_annotations st' 0 = Some [ann_a; ann_b].
Proof.
  destruct (Annotate_appends rt0 0 "b" "2" st_annotated span_annotated
              eq_refl eq_refl ann_wf_st_annotated)
    as (st' & sl' & Hrun & _ & _ & _ & Hann).
  exists st'. split; [exact Hrun|].
  exact (Hann 0 [ann_a] eq_refl).
Defined.

Lemma newSpan_start_protocol_witness :
  ∃ s cl st',
    newSpan rt0 (CtxSpan 0 background) fn0 [] 12%Z None 102%Z st_family
    = Some ((s, cl), st',
            [EvFuncStart fn0 (Some fn0); EvLock 0; EvUnlock 0] ++
            match cl_observer cl with
            | Some o => [EvObserverStart o s]
            | None => []
            end).
Proof.
  destruct (newSpan_start_protocol rt0 (CtxSpan 0 background) fn0 [] 12%Z
              None 102%Z st_family wf_st_family ctx_ok_family)
    as (s & cl & st' & evs & Hrun & ->).
  exists s, cl, st'. exact Hrun.
Defined.

Lemma accessors_return_construction_values_witness :
  ∃ s cl st' evs,
    newSpan rt0 (CtxSpan 0 background) fn0 [] 12%Z None 102%Z st_family
    = Some ((s, cl), st', evs) ∧
    Id s st' = Some (12%Z, st', []) ∧
    Parent s st' = Some (Some 0, st', []) ∧
    Duration s 105%Z st' = Some (3%Z, st', []).
Proof.
  destruct (accessors_return_construction_values rt0 (CtxSpan 0 background)
              fn0 [] 12%Z None 102%Z st_family wf_st_family ctx_ok_family)
    as (s & cl & st' & evs & t & Hrun & Hi & _ & _ & _ & Hd & Hp & _).
  exists s, cl, st', evs. split; [exact Hrun|]. split; [exact Hi|].
  split; [exact Hp|]. exact (Hd 105%Z).
Defined.
